(** * A growable array over raw memory: [RawMemory<T>] and [Vector<T>]

    Shallow embedding of [advanced-vector/vector.h].

    Modelling decisions, all taken from the source:

    - A block of raw memory is a list of slots.  A slot is either
      uninitialised ([Raw]) or holds a constructed object ([Live x]).
      The pointer [buffer_] of a [RawMemory] is modelled by the block it
      points to (the block is owned exclusively, so value semantics is
      faithful); [nullptr] is the empty block.  Pointers into a block are
      offsets from its start.
    - The element type [T] is a parameter, given by its special member
      functions ([Element]).  Each is a function of the values involved
      and may throw ([None]); one that throws leaves its operands as
      they were.  The arguments of [Emplace] and [EmplaceBack] stand for
      what [T(std::forward<Args>(args)...)] gives; they do not refer to
      elements of the vector itself.
    - Every method is a computation in a state-and-exception monad: it
      either returns, or throws and leaves a state behind, or stops the
      program ([assert] failure, [std::terminate] for an exception that
      leaves a [noexcept] function, undefined behaviour).  A trace of
      allocations and element life-cycle events is collected on the way,
      like the counters of an instrumented test object; deallocation is
      not traced.
    - Iterators are distances from [begin()].
    - [size_t] is modelled by [nat]: sizes are lengths of allocated
      blocks, and their arithmetic is assumed not to overflow.  The
      source computes one product from a number that the caller chooses
      freely, [n * sizeof(T)] in [RawMemory::Allocate], and does not
      check it: when it wraps around, [operator new] is asked for fewer
      bytes than [n] objects take while [capacity_] becomes [n].  The
      model of [Allocate] does not cover such a call; [fits] says that
      the product has not wrapped, and the statements about [Reserve(n)],
      [Resize(n)] and [Vector(n)] assume it.
    - [assert] is modelled as compiled in (no [NDEBUG]). *)

From Stdlib Require Import ZArith Lia.
From stdpp Require Import base list.

Set Implicit Arguments.
Set Default Proof Using "Type".

(** ** Elements, slots and events *)

(** The special member functions of the element type [T], and the two
    type traits the source queries with [if constexpr]. *)
Class Element (T : Type) : Type := {
  (** [std::is_nothrow_move_constructible_v<T>] *)
  is_nothrow_move_constructible : bool;
  (** [std::is_copy_constructible_v<T>] *)
  is_copy_constructible : bool;
  (** [T()], value-initialisation *)
  value_construct : option T;
  (** [T(const T&)]: the copy *)
  copy_construct : T -> option T;
  (** [T(T&&)]: the new object and the state the source is left in *)
  move_construct : T -> option (T * T);
  (** [dst = src]: the new value of [dst] *)
  copy_assign : T -> T -> option T;
  (** [dst = std::move(src)]: the new values of [dst] and of [src] *)
  move_assign : T -> T -> option (T * T);
}.

Inductive slot (T : Type) : Type :=
| Raw : slot T
| Live : T -> slot T.
Arguments Raw {T}.
Arguments Live {T} x.

(** A block of raw memory. *)
Abbreviation block T := (list (slot T)).

Inductive event (T : Type) : Type :=
| EvAllocate (n : nat)      (* operator new for n elements *)
| EvValueInit (x : T)       (* T() constructed *)
| EvEmplace (x : T)         (* T(args...) constructed *)
| EvCopyCtor (x : T)        (* T(const T&), from this source *)
| EvMoveCtor (x : T)        (* T(T&&), from this source *)
| EvCopyAssign (x : T)      (* dst = src, from this source *)
| EvMoveAssign (x : T)      (* dst = std::move(src), from this source *)
| EvDestroy (x : T).        (* ~T() of this object *)
Arguments EvAllocate {T} n.
Arguments EvValueInit {T} x.
Arguments EvEmplace {T} x.
Arguments EvCopyCtor {T} x.
Arguments EvMoveCtor {T} x.
Arguments EvCopyAssign {T} x.
Arguments EvMoveAssign {T} x.
Arguments EvDestroy {T} x.

Inductive exn : Type :=
| bad_alloc      (* operator new failed *)
| element_exn.   (* a member function of T threw *)

Inductive fatal : Type :=
| assertion_failed
| terminated
| undefined_behaviour.

(** ** The monad of methods *)

Section Monad.
Context {T : Type}.

Inductive res (S A : Type) : Type :=
| Ok : A -> S -> list (event T) -> res S A
| Throw : exn -> S -> list (event T) -> res S A
| Fatal : fatal -> res S A.
Arguments Ok {S A} a s tr.
Arguments Throw {S A} e s tr.
Arguments Fatal {S A} f.

Definition M (S A : Type) : Type := S -> res S A.

Definition ret {S A} (a : A) : M S A := fun s => Ok a s [].

(** Events [tr] happened before the outcome [r]. *)
Definition after {S A} (tr : list (event T)) (r : res S A) : res S A :=
  match r with
  | Ok a s tr' => Ok a s (tr ++ tr')
  | Throw e s tr' => Throw e s (tr ++ tr')
  | Fatal f => Fatal f
  end.

Definition bind {S A B} (m : M S A) (k : A -> M S B) : M S B :=
  fun s =>
    match m s with
    | Ok a s' tr => after tr (k a s')
    | Throw e s' tr => Throw e s' tr
    | Fatal f => Fatal f
    end.

Definition throw {S A} (e : exn) : M S A := fun s => Throw e s [].
Definition abort {S A} (f : fatal) : M S A := fun _ => Fatal f.
Definition get {S} : M S S := fun s => Ok s s [].
Definition put {S} (s : S) : M S unit := fun _ => Ok tt s [].
Definition modify {S} (f : S -> S) : M S unit := fun s => Ok tt (f s) [].
Definition emit {S} (ev : event T) : M S unit := fun s => Ok tt s [ev].

(** [assert(c)] *)
Definition assert {S} (c : bool) : M S unit :=
  if c then ret tt else abort assertion_failed.

(** [try { m } catch (...) { handler; throw; }] *)
Definition catch_rethrow {S A} (m : M S A) (handler : M S unit) : M S A :=
  fun s =>
    match m s with
    | Throw e s' tr =>
        match handler s' with
        | Ok _ s'' tr' => Throw e s'' (tr ++ tr')
        | Throw e' s'' tr' => Throw e' s'' (tr ++ tr')
        | Fatal f => Fatal f
        end
    | r => r
    end.

(** A function declared [noexcept]: an exception that leaves it calls
    [std::terminate]. *)
Definition noexcept {S A} (m : M S A) : M S A :=
  fun s =>
    match m s with
    | Throw _ _ _ => Fatal terminated
    | r => r
    end.

(** A part [B] of the state [S]. *)
Record lens (S B : Type) : Type := {
  view : S -> B;
  update : B -> S -> S;
}.

(** Run [m] on the part of the state selected by [l]. *)
Definition zoom {S B A} (l : lens S B) (m : M B A) : M S A :=
  fun s =>
    match m (view l s) with
    | Ok a b tr => Ok a (update l b s) tr
    | Throw e b tr => Throw e (update l b s) tr
    | Fatal f => Fatal f
    end.

(** A local variable [init : L] whose scope is [body]; it goes out of
    scope when [body] returns or throws. *)
Definition with_local {S L A} (init : L) (body : M (S * L) A) : M S A :=
  fun s =>
    match body (s, init) with
    | Ok a (s', _) tr => Ok a s' tr
    | Throw e (s', _) tr => Throw e s' tr
    | Fatal f => Fatal f
    end.

Definition trace_of {S A} (r : res S A) : list (event T) :=
  match r with
  | Ok _ _ tr | Throw _ _ tr => tr
  | Fatal _ => []
  end.
End Monad.

Arguments Ok {T S A} a s tr.
Arguments Throw {T S A} e s tr.
Arguments Fatal {T S A} f.
Arguments res T S A : clear implicits.
Arguments M T S A : clear implicits.

Declare Scope method_scope.
Delimit Scope method_scope with method.
Notation "x <- m ;; k" := (bind m (fun x => k))
  (at level 100, m at next level, right associativity) : method_scope.
Notation "m ;; k" := (bind m (fun _ => k))
  (at level 100, right associativity) : method_scope.
Open Scope method_scope.

Definition fst_lens {A B : Type} : lens (A * B) A :=
  {| view := fst; update := fun a p => (a, snd p) |}.
Definition snd_lens {A B : Type} : lens (A * B) B :=
  {| view := snd; update := fun b p => (fst p, b) |}.
Definition compose_lens {A B C : Type} (l : lens A B) (l' : lens B C) : lens A C :=
  {| view := fun a => view l' (view l a);
     update := fun c a => update l (update l' c (view l a)) a |}.
(** ** Objects in raw memory and the [<memory>] / [<algorithm>] functions *)

Section Algorithms.
Context {T : Type} `{Element T}.

#[local] Abbreviation M := (M T).

(** Access to the slot at offset [p]; outside the block it is undefined
    behaviour. *)
Definition slot_at (p : nat) : M (block T) (slot T) :=
  fun b =>
    match b !! p with
    | Some s => Ok s b []
    | None => Fatal undefined_behaviour
    end.

Definition set_slot (p : nat) (s : slot T) : M (block T) unit :=
  _ <- slot_at p ;; modify (fun b => <[p := s]> b).

(** [*p]: the object at [p], which must be alive. *)
Definition deref (p : nat) : M (block T) T :=
  s <- slot_at p ;;
  match s with
  | Live x => ret x
  | Raw => abort undefined_behaviour
  end.

(** [new (p) T(...)], where [init] is what the constructor gives and
    [ev] names the constructor. *)
Definition construct_at (p : nat) (init : option T) (ev : T -> event T)
  : M (block T) unit :=
  _ <- slot_at p ;;
  match init with
  | Some x => set_slot p (Live x) ;; emit (ev x)
  | None => throw element_exn
  end.

(** [std::destroy_at(p)] *)
Definition destroy_at (p : nat) : M (block T) unit :=
  x <- deref p ;;
  set_slot p Raw ;;
  emit (EvDestroy x).

(** [std::destroy_n(first, n)] *)
Fixpoint destroy_n (first n : nat) : M (block T) unit :=
  match n with
  | 0 => ret tt
  | S n' => destroy_at first ;; destroy_n (S first) n'
  end.

(** [std::destroy(first, last)] *)
Definition destroy (first last : nat) : M (block T) unit :=
  destroy_n first (last - first).

(** The loop of [std::uninitialized_value_construct_n]; [result] is
    where it started and [cur] the next slot.  The handler is the
    algorithm's [catch (...) { std::destroy(result, cur); throw; }]. *)
Fixpoint uninitialized_value_construct_loop (result cur n : nat)
  : M (block T) unit :=
  match n with
  | 0 => ret tt
  | S n' =>
      catch_rethrow (construct_at cur value_construct (@EvValueInit T))
                    (destroy result cur) ;;
      uninitialized_value_construct_loop result (S cur) n'
  end.

(** [std::uninitialized_value_construct_n(first, n)] *)
Definition uninitialized_value_construct_n (first n : nat) : M (block T) unit :=
  uninitialized_value_construct_loop first first n.

Fixpoint uninitialized_copy_loop (src : block T) (result first cur n : nat)
  : M (block T) unit :=
  match n with
  | 0 => ret tt
  | S n' =>
      match src !! first with
      | Some (Live x) =>
          catch_rethrow (construct_at cur (copy_construct x) (fun _ => EvCopyCtor x))
                        (destroy result cur) ;;
          uninitialized_copy_loop src result (S first) (S cur) n'
      | _ => abort undefined_behaviour
      end
  end.

(** [std::uninitialized_copy_n(first, n, d_first)]: the source range
    lies in the block [src], which is only read; the state is the
    destination block. *)
Definition uninitialized_copy_n (src : block T) (first n d_first : nat)
  : M (block T) unit :=
  uninitialized_copy_loop src d_first first d_first n.

(** [T(std::move(x))]; a move constructor declared [noexcept] that
    throws calls [std::terminate]. *)
Definition call_move_construct {St} (x : T) : M St (T * T) :=
  match move_construct x with
  | Some p => ret p
  | None =>
      if is_nothrow_move_constructible then abort terminated
      else throw element_exn
  end.

(** Placement-new at [cur] of an object moved from the one at
    [first].  The blocks the two pointers point into are parts [src]
    and [dst] of the state (they may be the same block). *)
Definition move_construct_at {St} (src dst : lens St (block T)) (first cur : nat)
  : M St unit :=
  x <- zoom src (deref first) ;;
  _ <- zoom dst (slot_at cur) ;;
  p <- call_move_construct x ;;
  zoom src (set_slot first (Live (snd p))) ;;
  zoom dst (set_slot cur (Live (fst p))) ;;
  emit (EvMoveCtor x).

Fixpoint uninitialized_move_loop {St} (src dst : lens St (block T))
    (result first cur n : nat) : M St unit :=
  match n with
  | 0 => ret tt
  | S n' =>
      catch_rethrow (move_construct_at src dst first cur)
                    (zoom dst (destroy result cur)) ;;
      uninitialized_move_loop src dst result (S first) (S cur) n'
  end.

(** [std::uninitialized_move_n(first, n, d_first)], from the block
    [src] into the block [dst]. *)
Definition uninitialized_move_n {St} (src dst : lens St (block T))
    (first n d_first : nat) : M St unit :=
  uninitialized_move_loop src dst d_first first d_first n.

(** [*d = x] for an object [x] that is only read. *)
Definition copy_assign_at (x : T) (d : nat) : M (block T) unit :=
  y <- deref d ;;
  match copy_assign y x with
  | Some y' => set_slot d (Live y') ;; emit (EvCopyAssign x)
  | None => throw element_exn
  end.

Fixpoint copy_loop (src : block T) (first d_first n : nat) : M (block T) unit :=
  match n with
  | 0 => ret tt
  | S n' =>
      match src !! first with
      | Some (Live x) =>
          copy_assign_at x d_first ;;
          copy_loop src (S first) (S d_first) n'
      | _ => abort undefined_behaviour
      end
  end.

(** [std::copy(first, last, d_first)] from the block [src] into the
    state; [[first, last)] must be a range. *)
Definition std_copy (src : block T) (first last d_first : nat) : M (block T) unit :=
  if last <? first then abort undefined_behaviour
  else copy_loop src first d_first (last - first).

(** Move-assign the object at [s] to the object at [d], inside one block. *)
Definition move_assign_at (s d : nat) : M (block T) unit :=
  x <- deref s ;;
  y <- deref d ;;
  match move_assign y x with
  | Some p =>
      set_slot s (Live (snd p)) ;;
      set_slot d (Live (fst p)) ;;
      emit (EvMoveAssign x)
  | None => throw element_exn
  end.

Fixpoint move_loop (first d_first n : nat) : M (block T) unit :=
  match n with
  | 0 => ret tt
  | S n' => move_assign_at first d_first ;; move_loop (S first) (S d_first) n'
  end.

(** [std::move(first, last, d_first)] inside one block; [[first, last)]
    must be a range. *)
Definition std_move (first last d_first : nat) : M (block T) unit :=
  if last <? first then abort undefined_behaviour
  else move_loop first d_first (last - first).

(** The loop of [std::move_backward]: step both pointers back, then
    move-assign the object at [last] to the one at [d_last]; [n] times. *)
Fixpoint move_backward_loop (last d_last n : nat) : M (block T) unit :=
  match n with
  | 0 => ret tt
  | S n' =>
      match last, d_last with
      | S last', S d_last' =>
          move_assign_at last' d_last' ;; move_backward_loop last' d_last' n'
      | _, _ => abort undefined_behaviour
      end
  end.

(** [std::move_backward(first, last, d_last)] inside one block. *)
Definition std_move_backward (first last d_last : nat) : M (block T) unit :=
  if last <? first then abort undefined_behaviour
  else move_backward_loop last d_last (last - first).
End Algorithms.

(** ** [RawMemory<T>] *)

(** [operator new] for [n] elements either gives storage or throws
    [std::bad_alloc]; which requests succeed is up to the heap. *)
Class Heap : Type := operator_new : nat -> bool.

(** [sizeof(T)]: the size of an element in bytes, at least 1. *)
Class Sized (T : Type) : Type := sizeof : positive.

(** The largest value of [size_t], on a 64-bit target. *)
Definition SIZE_MAX : Z := (2 ^ 64 - 1)%Z.

(** The argument of [operator new] in [RawMemory::Allocate]:
    [n * sizeof(T)], a product of two [size_t], which wraps around. *)
Definition allocation_bytes (T : Type) `{Sized T} (n : nat) : Z :=
  ((Z.of_nat n * Z.pos sizeof) mod (SIZE_MAX + 1))%Z.
Arguments allocation_bytes T {_} n.

(** [n] elements fit: the product has not wrapped, so the storage that
    [Allocate] asks for is the storage of [n] objects. *)
Definition fits (T : Type) `{Sized T} (n : nat) : bool :=
  (allocation_bytes T n =? Z.of_nat n * Z.pos sizeof)%Z.
Arguments fits T {_} n.

(** Every allocation among the events [tr] was one of elements that
    fit. *)
Definition allocations_fit (T : Type) `{Sized T} (tr : list (event T)) : bool :=
  forallb (fun ev => match ev with EvAllocate n => fits T n | _ => true end) tr.
Arguments allocations_fit T {_} tr.

Record RawMemory (T : Type) : Type := {
  buffer_ : block T;
  capacity_ : nat;
}.

Record Vector (T : Type) : Type := {
  data_ : RawMemory T;
  size_ : nat;
}.

Definition buffer_lens {T} : lens (RawMemory T) (block T) :=
  {| view := @buffer_ T;
     update := fun b m => {| buffer_ := b; capacity_ := capacity_ m |} |}.
Definition data_lens {T} : lens (Vector T) (RawMemory T) :=
  {| view := @data_ T;
     update := fun m v => {| data_ := m; size_ := size_ v |} |}.
Definition set_size {T} (n : nat) (v : Vector T) : Vector T :=
  {| data_ := data_ v; size_ := n |}.
(** [++size_] and [--size_] *)
Definition incr_size {T} (v : Vector T) : Vector T := set_size (size_ v + 1) v.
Definition decr_size {T} (v : Vector T) : Vector T := set_size (size_ v - 1) v.

Section RawMemory.
Context {T : Type} `{Heap}.

#[local] Abbreviation M := (M T).

(** [RawMemory::Allocate], for [n] elements that fit (see [fits]): the
    block returned has room for [n] objects. *)
Definition Allocate {St} (n : nat) : M St (block T) :=
  if negb (n =? 0) then
    if operator_new n then emit (EvAllocate n) ;; ret (replicate n Raw)
    else throw bad_alloc
  else ret [].

(** [RawMemory()] *)
Definition RawMemory_default : RawMemory T :=
  {| buffer_ := []; capacity_ := 0 |}.

(** [RawMemory(size_t capacity)] *)
Definition RawMemory_ctor {St} (capacity : nat) : M St (RawMemory T) :=
  b <- Allocate capacity ;;
  ret {| buffer_ := b; capacity_ := capacity |}.

(** [RawMemory::operator+] *)
Definition RawMemory_plus {St} (m : RawMemory T) (offset : nat) : M St nat :=
  assert (offset <=? capacity_ m) ;;
  ret offset.

(** [RawMemory::operator[]], as the offset of the element referred to *)
Definition RawMemory_index {St} (m : RawMemory T) (index : nat) : M St nat :=
  assert (index <? capacity_ m) ;;
  ret index.

(** [RawMemory::Capacity] *)
Definition RawMemory_Capacity (m : RawMemory T) : nat := capacity_ m.
End RawMemory.

(** ** [Vector<T>] *)

Section Vector.
Context {T : Type} `{Element T} `{Heap}.

#[local] Abbreviation M := (M T).

(** The block [data_.GetAddress()] points into. *)
Definition this_buffer : lens (Vector T) (block T) :=
  compose_lens data_lens buffer_lens.

(** Inside a method with a local [RawMemory<T> new_data], the state is
    the pair of [*this] and [new_data]. *)
Definition old_buffer : lens (Vector T * RawMemory T) (block T) :=
  compose_lens fst_lens this_buffer.
Definition new_buffer : lens (Vector T * RawMemory T) (block T) :=
  compose_lens snd_lens buffer_lens.

(** [data_.Swap(new_data)] *)
Definition Swap_new_data (s : Vector T * RawMemory T) : Vector T * RawMemory T :=
  ({| data_ := snd s; size_ := size_ (fst s) |}, data_ (fst s)).

(** [Vector::Size] *)
Definition Size (this : Vector T) : nat := size_ this.

(** [Vector::Capacity] *)
Definition Capacity (this : Vector T) : nat := RawMemory_Capacity (data_ this).

(** [Vector()] *)
Definition Vector_default : Vector T :=
  {| data_ := RawMemory_default; size_ := 0 |}.

(** [Vector(size_t size)] *)
Definition Vector_sized {St} (size : nat) : M St (Vector T) :=
  data <- RawMemory_ctor size ;;
  with_local data
    (zoom (compose_lens snd_lens buffer_lens)
          (uninitialized_value_construct_n 0 size) ;;
     s <- get ;;
     ret {| data_ := snd s; size_ := size |}).

(** [Vector(const Vector& other)] *)
Definition Vector_copy {St} (other : Vector T) : M St (Vector T) :=
  data <- RawMemory_ctor (size_ other) ;;
  with_local data
    (zoom (compose_lens snd_lens buffer_lens)
          (uninitialized_copy_n (buffer_ (data_ other)) 0 (size_ other) 0) ;;
     s <- get ;;
     ret {| data_ := snd s; size_ := size_ other |}).

(** [~Vector()] *)
Definition Vector_dtor : M (Vector T) unit :=
  this <- get ;;
  zoom this_buffer (destroy_n 0 (size_ this)).

(** [Vector::operator[]], reading the element referred to *)
Definition subscript (index : nat) : M (Vector T) T :=
  this <- get ;;
  assert (index <? size_ this) ;;
  i <- RawMemory_index (data_ this) index ;;
  zoom this_buffer (deref i).

(** [Vector::Reserve] *)
Definition Reserve (new_capacity : nat) : M (Vector T) unit :=
  this <- get ;;
  if new_capacity <=? RawMemory_Capacity (data_ this) then ret tt
  else
    new_data <- RawMemory_ctor new_capacity ;;
    with_local new_data
      ((if is_nothrow_move_constructible || negb is_copy_constructible
        then uninitialized_move_n old_buffer new_buffer 0 (size_ this) 0
        else zoom new_buffer
               (uninitialized_copy_n (buffer_ (data_ this)) 0 (size_ this) 0)) ;;
       zoom old_buffer (destroy_n 0 (size_ this)) ;;
       modify Swap_new_data).

(** [Vector::Resize] *)
Definition Resize (new_size : nat) : M (Vector T) unit :=
  this <- get ;;
  (if new_size <? size_ this then
     zoom this_buffer (destroy_n new_size (size_ this - new_size))
   else
     (if Capacity this <? new_size then
        let new_capacity := Nat.max new_size (Capacity this * 2) in
        Reserve new_capacity
      else ret tt) ;;
     zoom this_buffer
       (uninitialized_value_construct_n (size_ this) (new_size - size_ this))) ;;
  modify (set_size new_size).

(** [Vector::EmplaceBack]; [args] is what [T(std::forward<Args>(args)...)]
    gives.  The result is the offset of the new element. *)
Definition EmplaceBack (args : option T) : M (Vector T) nat :=
  this <- get ;;
  result <-
    (if size_ this =? Capacity this then
       new_data <- RawMemory_ctor (if size_ this =? 0 then 1 else size_ this * 2) ;;
       with_local new_data
         (result <- RawMemory_plus new_data (size_ this) ;;
          zoom new_buffer (construct_at result args (@EvEmplace T)) ;;
          (if is_nothrow_move_constructible || negb is_copy_constructible
           then uninitialized_move_n old_buffer new_buffer 0 (size_ this) 0
           else zoom new_buffer
                  (uninitialized_copy_n (buffer_ (data_ this)) 0 (size_ this) 0)) ;;
          zoom old_buffer (destroy_n 0 (size_ this)) ;;
          modify Swap_new_data ;;
          ret result)
     else
       result <- RawMemory_plus (data_ this) (size_ this) ;;
       zoom this_buffer (construct_at result args (@EvEmplace T)) ;;
       ret result) ;;
  modify incr_size ;;
  ret result.

(** [Vector::PushBack(const T&)] *)
Definition PushBack (value : T) : M (Vector T) unit :=
  EmplaceBack (copy_construct value) ;; ret tt.

(** [Vector::PushBack(T&&)] *)
Definition PushBack_move (value : T) : M (Vector T) unit :=
  EmplaceBack (fst <$> move_construct value) ;; ret tt.

(** [Vector::PopBack] *)
Definition PopBack : M (Vector T) unit :=
  noexcept
    (this <- get ;;
     if 0 <? size_ this then
       zoom this_buffer (destroy_at (size_ this - 1)) ;;
       modify decr_size
     else ret tt).

(** [Vector::EmplaceWithReallocate] *)
Definition EmplaceWithReallocate (shift : nat) (args : option T) : M (Vector T) nat :=
  this <- get ;;
  new_data <- RawMemory_ctor (if size_ this =? 0 then 1 else size_ this * 2) ;;
  with_local new_data
    (res <- RawMemory_plus new_data shift ;;
     zoom new_buffer (construct_at res args (@EvEmplace T)) ;;
     (if is_nothrow_move_constructible || negb is_copy_constructible
      then
        uninitialized_move_n old_buffer new_buffer 0 shift 0 ;;
        uninitialized_move_n old_buffer new_buffer
          shift (size_ this - shift) (shift + 1)
      else
        catch_rethrow
          (zoom new_buffer
             (uninitialized_copy_n (buffer_ (data_ this)) 0 shift 0) ;;
           zoom new_buffer
             (uninitialized_copy_n (buffer_ (data_ this))
                shift (size_ this - shift) (shift + 1)))
          (zoom new_buffer (destroy_n shift 1))) ;;
     zoom old_buffer (destroy_n 0 (size_ this)) ;;
     modify Swap_new_data ;;
     ret res).

(** [Vector::EmplaceWithoutReallocate] *)
Definition EmplaceWithoutReallocate (shift : nat) (args : option T)
  : M (Vector T) nat :=
  this <- get ;;
  (if negb (size_ this =? 0) then
     p <- RawMemory_plus (data_ this) (size_ this) ;;
     move_construct_at this_buffer this_buffer (size_ this - 1) p ;;
     catch_rethrow
       (zoom this_buffer
          (std_move_backward shift (size_ this) (size_ this + 1)))
       (zoom this_buffer (destroy_n (size_ this) 1)) ;;
     zoom this_buffer (destroy_at shift)
   else ret tt) ;;
  result <- RawMemory_plus (data_ this) shift ;;
  zoom this_buffer (construct_at result args (@EvEmplace T)) ;;
  ret result.

(** [Vector::Emplace]; the iterator [pos] is given by its distance
    from [begin()], and so is the result. *)
Definition Emplace (pos : Z) (args : option T) : M (Vector T) Z :=
  this <- get ;;
  assert ((0 <=? pos)%Z && (pos <=? Z.of_nat (size_ this))%Z) ;;
  let shift := Z.to_nat pos in
  result <-
    (if size_ this =? Capacity this
     then EmplaceWithReallocate shift args
     else EmplaceWithoutReallocate shift args) ;;
  modify incr_size ;;
  ret (Z.of_nat result).

(** [Vector::Insert(const_iterator, const T&)] *)
Definition Insert (pos : Z) (value : T) : M (Vector T) Z :=
  Emplace pos (copy_construct value).

(** [Vector::Insert(const_iterator, T&&)] *)
Definition Insert_move (pos : Z) (value : T) : M (Vector T) Z :=
  Emplace pos (fst <$> move_construct value).

(** [Vector::Erase]; the iterator [pos] is given by its distance from
    [begin()], and so is the result [begin() + shift]. *)
Definition Erase (pos : Z) : M (Vector T) Z :=
  noexcept
    (this <- get ;;
     let shift := pos in
     (if (0 <=? pos)%Z && (pos <=? Z.of_nat (size_ this))%Z then
        zoom this_buffer
          (std_move (Z.to_nat shift + 1) (size_ this) (Z.to_nat shift)) ;;
        PopBack
      else ret tt) ;;
     ret shift).
End Vector.

(** ** Several vectors

    The methods that take another vector compare addresses
    ([this != &rhs]) and exchange buffers, so they are modelled on a
    store of vector objects; an object is named by its position in the
    store, which stands for its address. *)

(** The store of vector objects. *)
Abbreviation objects T := (list (Vector T)).

Section Objects.
Context {T : Type} `{Element T} `{Heap}.

#[local] Abbreviation M := (M T).

(** The object named [id]; a name that refers to nothing is a
    dangling reference. *)
Definition object (id : nat) : M (objects T) (Vector T) :=
  fun st =>
    match st !! id with
    | Some v => Ok v st []
    | None => Fatal undefined_behaviour
    end.

Definition object_lens (id : nat) : lens (objects T) (Vector T) :=
  {| view := fun st => default Vector_default (st !! id);
     update := fun v st => <[id := v]> st |}.

(** Call the method [m] on the object named [this]. *)
Definition call {A} (this : nat) (m : M (Vector T) A) : M (objects T) A :=
  _ <- object this ;;
  zoom (object_lens this) m.

(** A new object with the value [v]; the result is its name. *)
Definition new_object (v : Vector T) : M (objects T) nat :=
  st <- get ;;
  put (st ++ [v]) ;;
  ret (length st).

(** A local object goes out of scope: [~Vector()] runs and the storage
    of the object, the last of the store, is given back. *)
Definition delete_object (id : nat) : M (objects T) unit :=
  call id Vector_dtor ;;
  modify (take id).

(** [Vector::Swap]: [data_.Swap(other.data_)], then
    [std::swap(size_, other.size_)] *)
Definition Swap (this other : nat) : M (objects T) unit :=
  noexcept
    (a <- object this ;;
     b <- object other ;;
     call this (modify (update data_lens (data_ b))) ;;
     call other (modify (update data_lens (data_ a))) ;;
     call this (modify (set_size (size_ b))) ;;
     call other (modify (set_size (size_ a)))).

(** [Vector(Vector&& other)]; the result is the name of the new
    object. *)
Definition Vector_move (other : nat) : M (objects T) nat :=
  noexcept
    (this <- new_object Vector_default ;;
     Swap this other ;;
     ret this).

(** [Vector::operator=(const Vector&)] *)
Definition assign_copy (this rhs : nat) : M (objects T) unit :=
  noexcept
    (if negb (this =? rhs) then
       t <- object this ;;
       r <- object rhs ;;
       if RawMemory_Capacity (data_ t) <? size_ r then
         v <- Vector_copy r ;;
         rhs_copy <- new_object v ;;
         Swap this rhs_copy ;;
         delete_object rhs_copy
       else
         call this
           (zoom this_buffer
              (std_copy (buffer_ (data_ r)) 0 (Nat.min (size_ r) (size_ t)) 0) ;;
            (if size_ r <? size_ t then
               zoom this_buffer (destroy_n (size_ r) (size_ t - size_ r))
             else
               zoom this_buffer
                 (uninitialized_copy_n (buffer_ (data_ r))
                    (size_ t) (size_ r - size_ t) (size_ t))) ;;
            modify (set_size (size_ r)))
     else ret tt).

(** [Vector::operator=(Vector&&)] *)
Definition assign_move (this rhs : nat) : M (objects T) unit :=
  noexcept
    (if negb (this =? rhs) then Swap this rhs else ret tt).

(** The operations of the public interface, on objects of a store. *)
Inductive op : Type :=
| op_Vector_default
| op_Vector_sized (size : nat)
| op_Vector_copy (other : nat)
| op_Vector_move (other : nat)
| op_assign_copy (this rhs : nat)
| op_assign_move (this rhs : nat)
| op_subscript (this index : nat)
| op_Reserve (this new_capacity : nat)
| op_Swap (this other : nat)
| op_Resize (this new_size : nat)
| op_PushBack (this : nat) (value : T)
| op_PushBack_move (this : nat) (value : T)
| op_EmplaceBack (this : nat) (args : option T)
| op_PopBack (this : nat)
| op_Emplace (this : nat) (pos : Z) (args : option T)
| op_Erase (this : nat) (pos : Z)
| op_Insert (this : nat) (pos : Z) (value : T)
| op_Insert_move (this : nat) (pos : Z) (value : T).

Definition exec (o : op) : M (objects T) unit :=
  match o with
  | op_Vector_default => new_object Vector_default ;; ret tt
  | op_Vector_sized size => v <- Vector_sized size ;; new_object v ;; ret tt
  | op_Vector_copy other =>
      r <- object other ;; v <- Vector_copy r ;; new_object v ;; ret tt
  | op_Vector_move other => Vector_move other ;; ret tt
  | op_assign_copy this rhs => assign_copy this rhs
  | op_assign_move this rhs => assign_move this rhs
  | op_subscript this index => call this (subscript index) ;; ret tt
  | op_Reserve this new_capacity => call this (Reserve new_capacity)
  | op_Swap this other => Swap this other
  | op_Resize this new_size => call this (Resize new_size)
  | op_PushBack this value => call this (PushBack value)
  | op_PushBack_move this value => call this (PushBack_move value)
  | op_EmplaceBack this args => call this (EmplaceBack args) ;; ret tt
  | op_PopBack this => call this PopBack
  | op_Emplace this pos args => call this (Emplace pos args) ;; ret tt
  | op_Erase this pos => call this (Erase pos) ;; ret tt
  | op_Insert this pos value => call this (Insert pos value) ;; ret tt
  | op_Insert_move this pos value => call this (Insert_move pos value) ;; ret tt
  end.

(** A program: operations one after the other. *)
Fixpoint run (prog : list op) : M (objects T) unit :=
  match prog with
  | [] => ret tt
  | o :: prog' => exec o ;; run prog'
  end.
End Objects.

(** ** Element types and heaps used in examples *)

(** [int]: every member function succeeds and leaves its source as it
    was. *)
#[export] Instance int_element : Element Z := {|
  is_nothrow_move_constructible := true;
  is_copy_constructible := true;
  value_construct := Some 0%Z;
  copy_construct := fun x => Some x;
  move_construct := fun x => Some (x, x);
  copy_assign := fun _ x => Some x;
  move_assign := fun _ x => Some (x, x);
|}.

(** [std::unique_ptr<int>]: the pointee, or [None] for a null pointer.
    It cannot be copied, its moves never throw, and a moved-from pointer
    is null. *)
Definition unique_ptr : Type := option Z.
#[export] Instance unique_ptr_element : Element unique_ptr := {|
  is_nothrow_move_constructible := true;
  is_copy_constructible := false;
  value_construct := Some None;
  copy_construct := fun _ => None;
  move_construct := fun p => Some (p, None);
  copy_assign := fun _ _ => None;
  move_assign := fun _ p => Some (p, None);
|}.


(** A copyable type whose copy and move constructors may throw: copying
    or moving the value [13] throws. *)
Record guarded : Type := Guarded { guarded_value : nat }.
#[export] Instance guarded_element : Element guarded := {|
  is_nothrow_move_constructible := false;
  is_copy_constructible := true;
  value_construct := Some (Guarded 0);
  copy_construct := fun x =>
    if guarded_value x =? 13 then None else Some x;
  move_construct := fun x =>
    if guarded_value x =? 13 then None else Some (x, Guarded 0);
  copy_assign := fun _ x => Some x;
  move_assign := fun _ x => Some (x, Guarded 0);
|}.

(** A heap that never runs out, and one that has room for at most
    eight elements in a block. *)
Definition unlimited_heap : Heap := fun _ => true.
Definition small_heap : Heap := fun n => n <=? 8.

(** The sizes of [int], of [std::unique_ptr<int>] and of a class with
    one [size_t] member, on a 64-bit target. *)
#[export] Instance int_sized : Sized Z := 4%positive.
#[export] Instance unique_ptr_sized : Sized unique_ptr := 8%positive.
#[export] Instance guarded_sized : Sized guarded := 8%positive.

(** ** Well-formed vectors *)

(** The vector that holds the elements [xs] in a buffer with [spare]
    unused slots after them. *)
Definition vector_of {T} (xs : list T) (spare : nat) : Vector T :=
  {| data_ := {| buffer_ := (Live <$> xs) ++ replicate spare Raw;
                 capacity_ := length xs + spare |};
     size_ := length xs |}.

(** ** The growth operations *)

(** The operations that grow the buffer: [Reserve], [EmplaceBack] and
    [Emplace] (which [PushBack] and [Insert] call). *)
Inductive growth (T : Type) : Type :=
| by_Reserve (new_capacity : nat)
| by_EmplaceBack (args : option T)
| by_Emplace (pos : Z) (args : option T).
Arguments by_Reserve {T} new_capacity.
Arguments by_EmplaceBack {T} args.
Arguments by_Emplace {T} pos args.

Definition grow {T} `{Element T} `{Heap} (g : growth T) : M T (Vector T) unit :=
  match g with
  | by_Reserve new_capacity => Reserve new_capacity
  | by_EmplaceBack args => EmplaceBack args ;; ret tt
  | by_Emplace pos args => Emplace pos args ;; ret tt
  end.

(** The operation needs a new buffer: [Reserve] beyond the capacity,
    [EmplaceBack] and [Emplace] on a full buffer. *)
Definition grows {T} `{Element T} `{Heap} (g : growth T) (v : Vector T) : Prop :=
  match g with
  | by_Reserve new_capacity => Capacity v < new_capacity
  | by_EmplaceBack _ | by_Emplace _ _ => Size v = Capacity v
  end.

(** * Notions used in the statements *)

(** The live elements of a vector, as its slots [[0, size_)]. *)
Definition elements {T} (v : Vector T) : list (slot T) :=
  take (size_ v) (buffer_ (data_ v)).

(** The invariant of the vector: the length is within the capacity. *)
Definition within_capacity {T} (v : Vector T) : Prop :=
  0 <= Size v /\ Size v <= Capacity v.

(** The capacity the specification gives a new buffer: the larger of
    the requested capacity and twice the current one, and at least 1
    when the current capacity is 0. *)
Definition claimed_capacity (requested current : nat) : nat :=
  if current =? 0 then Nat.max 1 (Nat.max requested (2 * current))
  else Nat.max requested (2 * current).

(** [sat r Q E]: if the outcome [r] is a return, its value, state and
    trace satisfy [Q]; if it is an exception, they satisfy [E]. *)
Definition sat {T St A} (r : res T St A)
    (Q : A -> St -> list (event T) -> Prop)
    (E : exn -> St -> list (event T) -> Prop) : Prop :=
  match r with
  | Ok a s tr => Q a s tr
  | Throw e s tr => E e s tr
  | Fatal _ => True
  end.

(** Kinds of events, and how many events of a kind a trace has. *)
Definition is_move_ctor {T} (ev : event T) : bool :=
  match ev with EvMoveCtor _ => true | _ => false end.
Definition is_copy_ctor {T} (ev : event T) : bool :=
  match ev with EvCopyCtor _ => true | _ => false end.
Definition is_value_init {T} (ev : event T) : bool :=
  match ev with EvValueInit _ => true | _ => false end.
Definition is_destroy {T} (ev : event T) : bool :=
  match ev with EvDestroy _ => true | _ => false end.

Definition count {T} (p : event T -> bool) (tr : list (event T)) : nat :=
  length (List.filter p tr).

(** The numbers of move constructions and of copy constructions of
    elements in a trace. *)
Definition moves {T} (tr : list (event T)) : nat := count is_move_ctor tr.
Definition copies {T} (tr : list (event T)) : nat := count is_copy_ctor tr.

(** The trace of a growth that relocated [n] elements and returned,
    and the trace of one that threw. *)
Definition relocated {T} `{Element T} (n : nat) (tr : list (event T)) : Prop :=
  (if is_nothrow_move_constructible || negb is_copy_constructible
   then moves tr = n /\ copies tr = 0
   else copies tr = n /\ moves tr = 0)
  /\ count is_value_init tr = 0.
Definition relocating {T} `{Element T} (tr : list (event T)) : Prop :=
  if is_nothrow_move_constructible || negb is_copy_constructible
  then copies tr = 0 else moves tr = 0.

(** What a method with a local [new_data] keeps until it swaps the
    buffers: the size and the capacity fields. *)
Definition frame_shape {T} (v : Vector T) (c : nat)
    (s : Vector T * RawMemory T) : Prop :=
  size_ (fst s) = size_ v /\
  capacity_ (data_ (fst s)) = capacity_ (data_ v) /\
  capacity_ (snd s) = c.

(** The size and the capacity of [v] are those of [v0]. *)
Definition same_shape {T} (v0 v : Vector T) : Prop :=
  size_ v = size_ v0 /\ capacity_ (data_ v) = capacity_ (data_ v0).

(** Relocation gives the elements their values back: the constructor
    the relocation rule selects transfers the value and does not throw. *)
Definition relocation_transfers (T : Type) `{Element T} : Prop :=
  if is_nothrow_move_constructible || negb is_copy_constructible
  then forall x : T, exists r, move_construct x = Some (x, r)
  else forall x : T, copy_construct x = Some x.
Arguments relocation_transfers T {_}.

(** Move assignment transfers the value and does not throw. *)
Definition move_assign_transfers (T : Type) `{Element T} : Prop :=
  forall d s : T, exists r, move_assign d s = Some (s, r).
Arguments move_assign_transfers T {_}.

(** ** Definitions for further properties *)

(** Move construction and move assignment leave their source as it
    was, as for [int] and other trivially copyable types. *)
Definition move_keeps_source (T : Type) `{Element T} : Prop :=
  (forall x : T, move_construct x = Some (x, x)) /\
  (forall d s : T, move_assign d s = Some (s, s)).
Arguments move_keeps_source T {_}.

(** Copy construction and copy assignment give a copy and do not
    throw. *)
Definition copy_transfers (T : Type) `{Element T} : Prop :=
  (forall x : T, copy_construct x = Some x) /\
  (forall d s : T, copy_assign d s = Some s).
Arguments copy_transfers T {_}.

(** The vector of [xs1 ++ y :: ys] after the insertion at the position
    of [y] has made room: the slot at that position holds no object and
    the others are one slot further; the length is still the old one. *)
Definition with_hole {T} (xs1 : list T) (y : T) (ys : list T) (spare : nat)
  : Vector T :=
  {| data_ := {| buffer_ := (Live <$> xs1) ++ Raw :: Live y :: (Live <$> ys)
                              ++ replicate spare Raw;
                 capacity_ := length (xs1 ++ y :: ys) + S spare |};
     size_ := length (xs1 ++ y :: ys) |}.

(** A type whose default constructor throws and whose move assignment
    throws when the source holds [13]. *)
Record brittle : Type := Brittle { brittle_value : nat }.
#[export] Instance brittle_element : Element brittle := {|
  is_nothrow_move_constructible := false;
  is_copy_constructible := true;
  value_construct := None;
  copy_construct := fun x => Some x;
  move_construct := fun x => Some (x, x);
  copy_assign := fun _ x => Some x;
  move_assign := fun _ x =>
    if brittle_value x =? 13 then None else Some (x, x);
|}.

(** Whether a slot holds an object. *)
Definition is_live {T} (s : slot T) : bool :=
  match s with Live _ => true | Raw => false end.

(** Which slots of a block hold an object. *)
Definition live_slots {T} (b : block T) : list bool := is_live <$> b.

(** The vector is well formed: its buffer has [capacity_] slots, the
    first [size_] of them hold an object each and the others none. *)
Definition well_formed {T} (v : Vector T) : Prop :=
  exists xs spare, v = vector_of xs spare.

(** Inside a method with a local [new_data]: in the state [s'] the
    vector has the length, the capacity and the live slots it has in
    [s], and [new_data] has the capacity it has in [s]. *)
Definition old_kept {T} (s s' : Vector T * RawMemory T) : Prop :=
  size_ (fst s') = size_ (fst s) /\
  capacity_ (data_ (fst s')) = capacity_ (data_ (fst s)) /\
  live_slots (buffer_ (data_ (fst s'))) = live_slots (buffer_ (data_ (fst s))) /\
  capacity_ (snd s') = capacity_ (snd s).

(** * Reasoning about methods *)

(** ** Sizes that fit *)

(** The product [n * sizeof(T)] has not wrapped exactly when it is at
    most [SIZE_MAX]. *)
Lemma fits_spec {T : Type} `{Sized T} (n : nat) :
  fits T n = true <-> (Z.of_nat n * Z.pos sizeof <= SIZE_MAX)%Z.
Proof.
  unfold fits, allocation_bytes. rewrite Z.eqb_eq. split.
  - intros Heq.
    pose proof (Z.mod_pos_bound (Z.of_nat n * Z.pos sizeof) (SIZE_MAX + 1)
                  eq_refl) as Hbound.
    rewrite Heq in Hbound. lia.
  - intros Hle. apply Z.mod_small. nia.
Qed.

(** Fewer elements than a number that fits do fit. *)
Lemma fits_le {T : Type} `{Sized T} (m n : nat) :
  m <= n -> fits T n = true -> fits T m = true.
Proof. rewrite !fits_spec. nia. Qed.

(** ** Outcomes: what holds when a method returns, and when it throws *)

Section Rules.
Context {T : Type}.

#[local] Abbreviation M := (M T).
#[local] Abbreviation res := (res T).
#[local] Abbreviation sat := (sat (T:=T)).

Lemma sat_mono {St A} (r : res St A) (Q Q' : A -> St -> list (event T) -> Prop)
    (E E' : exn -> St -> list (event T) -> Prop) :
  sat r Q E ->
  (forall a s tr, Q a s tr -> Q' a s tr) ->
  (forall e s tr, E e s tr -> E' e s tr) ->
  sat r Q' E'.
Proof. destruct r; simpl; auto. Qed.

Lemma sat_after {St A} (tr0 : list (event T)) (r : res St A) Q E :
  sat r (fun a s tr => Q a s (tr0 ++ tr)) (fun e s tr => E e s (tr0 ++ tr)) ->
  sat (after tr0 r) Q E.
Proof. destruct r; simpl; auto. Qed.

Lemma sat_bind {St A B} (m : M St A) (k : A -> M St B) s Q E :
  sat (m s)
      (fun a s1 tr1 =>
         sat (k a s1) (fun b s2 tr2 => Q b s2 (tr1 ++ tr2))
                      (fun e s2 tr2 => E e s2 (tr1 ++ tr2)))
      E ->
  sat (bind m k s) Q E.
Proof.
  unfold bind. destruct (m s) as [a s1 tr1| |]; simpl; auto.
  intros Hk. by apply sat_after.
Qed.

Lemma sat_zoom {St B A} (l : lens St B) (m : M B A) s Q E :
  sat (m (view l s)) (fun a b tr => Q a (update l b s) tr)
                     (fun e b tr => E e (update l b s) tr) ->
  sat (zoom l m s) Q E.
Proof. unfold zoom. destruct (m (view l s)); simpl; auto. Qed.

Lemma sat_with_local {St L A} (init : L) (body : M (St * L) A) s Q E :
  sat (body (s, init)) (fun a p tr => Q a (fst p) tr) (fun e p tr => E e (fst p) tr) ->
  sat (with_local init body s) Q E.
Proof.
  unfold with_local. destruct (body (s, init)) as [a [s' l] tr|e [s' l] tr|]; simpl; auto.
Qed.

Lemma sat_catch_rethrow {St A} (m : M St A) (h : M St unit) s Q E :
  sat (m s) Q
      (fun e s1 tr1 =>
         sat (h s1) (fun _ s2 tr2 => E e s2 (tr1 ++ tr2))
                    (fun e' s2 tr2 => E e' s2 (tr1 ++ tr2))) ->
  sat (catch_rethrow m h s) Q E.
Proof.
  unfold catch_rethrow. destruct (m s) as [|e s1 tr1|]; simpl; auto.
  destruct (h s1); simpl; auto.
Qed.

Lemma sat_noexcept {St A} (m : M St A) s Q E :
  sat (m s) Q (fun _ _ _ => True) ->
  sat (noexcept m s) Q E.
Proof. unfold noexcept. destruct (m s); simpl; auto. Qed.

Lemma sat_assert {St} (c : bool) (s : St) Q E :
  (c = true -> Q tt s []) ->
  sat (assert c s) Q E.
Proof. destruct c; simpl; auto. Qed.

(** ** Equations of the monad *)

Lemma after_nil {St A} (r : res St A) : after [] r = r.
Proof. by destruct r. Qed.

Lemma after_after {St A} (tr tr' : list (event T)) (r : res St A) :
  after tr (after tr' r) = after (tr ++ tr') r.
Proof. destruct r; simpl; by rewrite ?app_assoc. Qed.

Lemma bind_Ok {St A B} (m : M St A) (k : A -> M St B) s a s' tr :
  m s = Ok a s' tr -> bind m k s = after tr (k a s').
Proof. unfold bind. by intros ->. Qed.

Lemma zoom_Ok {St B A} (l : lens St B) (m : M B A) s a b tr :
  m (view l s) = Ok a b tr -> zoom l m s = Ok a (update l b s) tr.
Proof. unfold zoom. by intros ->. Qed.

Lemma bind_ret_r {St A} (m : M St A) s : bind m ret s = m s.
Proof.
  unfold bind, ret. destruct (m s); simpl; by rewrite ?app_nil_r.
Qed.

Lemma bind_assoc {St A B C} (m : M St A) (k : A -> M St B) (k' : B -> M St C) s :
  bind (bind m k) k' s = bind m (fun a => bind (k a) k') s.
Proof.
  unfold bind. destruct (m s) as [a s1 tr1| |]; simpl; try done.
  destruct (k a s1) as [b s2 tr2| |]; simpl; try done.
  by rewrite after_after.
Qed.
End Rules.

Lemma sat_ret {T St A} (a : A) (s : St) Q E :
  Q a s [] -> sat (T:=T) (ret a s) Q E.
Proof. done. Qed.

Lemma sat_get {T St} (s : St) Q E :
  Q s s [] -> sat (T:=T) (get s) Q E.
Proof. done. Qed.

Lemma sat_put {T St} (s' s : St) Q E :
  Q tt s' [] -> sat (T:=T) (put s' s) Q E.
Proof. done. Qed.

Lemma sat_modify {T St} (f : St -> St) (s : St) Q E :
  Q tt (f s) [] -> sat (T:=T) (modify f s) Q E.
Proof. done. Qed.

Lemma sat_emit {T St} (ev : event T) (s : St) Q E :
  Q tt s [ev] -> sat (emit ev s) Q E.
Proof. done. Qed.

Lemma sat_throw {T St A} (e : exn) (s : St) Q E :
  E e s [] -> sat (T:=T) (A:=A) (throw e s) Q E.
Proof. done. Qed.

(** One step of a proof about the outcome of a method: follow the
    structure of the method. *)
Ltac wp_step :=
  lazymatch goal with
  | |- sat (bind _ _ _) _ _ => apply sat_bind
  | |- sat (ret _ _) _ _ => apply sat_ret
  | |- sat (get _) _ _ => apply sat_get
  | |- sat (put _ _) _ _ => apply sat_put
  | |- sat (modify _ _) _ _ => apply sat_modify
  | |- sat (emit _ _) _ _ => apply sat_emit
  | |- sat (throw _ _) _ _ => apply sat_throw
  | |- sat (abort _ _) _ _ => exact I
  | |- sat (assert _ _) _ _ => apply sat_assert; intros ?
  | |- sat (zoom _ _ _) _ _ => apply sat_zoom
  | |- sat (with_local _ _ _) _ _ => apply sat_with_local
  | |- sat (catch_rethrow _ _ _) _ _ => apply sat_catch_rethrow
  | |- sat (noexcept _ _) _ _ => apply sat_noexcept
  | |- sat ((if is_nothrow_move_constructible || negb is_copy_constructible
             then _ else _) _) _ _ => fail "the relocation step"
  | |- sat ((if ?c then _ else _) _) _ _ => destruct c eqn:?
  | |- sat (match ?x with _ => _ end _) _ _ => destruct x eqn:?
  end.
Ltac wp := repeat wp_step.

(** ** Counting events *)

Lemma count_app {T} (p : event T -> bool) tr tr' :
  count p (tr ++ tr') = count p tr + count p tr'.
Proof. unfold count. by rewrite List.filter_app, length_app. Qed.

Lemma count_nil {T} (p : event T -> bool) : count p [] = 0.
Proof. done. Qed.

Lemma count_cons {T} (p : event T -> bool) ev tr :
  count p (ev :: tr) = (if p ev then 1 else 0) + count p tr.
Proof. unfold count. simpl. by destruct (p ev). Qed.

Lemma count_fmap_true {T A} (p : event T -> bool) (f : A -> event T) xs :
  (forall x, p (f x) = true) -> count p (f <$> xs) = length xs.
Proof.
  intros Hp. induction xs as [|x xs IH]; [done|].
  rewrite fmap_cons, count_cons, Hp, IH. done.
Qed.

Lemma count_fmap_false {T A} (p : event T -> bool) (f : A -> event T) xs :
  (forall x, p (f x) = false) -> count p (f <$> xs) = 0.
Proof.
  intros Hp. induction xs as [|x xs IH]; [done|].
  rewrite fmap_cons, count_cons, Hp, IH. done.
Qed.

Lemma count_replicate_true {T} (p : event T -> bool) n ev :
  p ev = true -> count p (replicate n ev) = n.
Proof.
  intros Hp. induction n as [|n IH]; [done|].
  simpl. rewrite count_cons, Hp, IH. done.
Qed.

(** Arithmetic of event counts. *)
Ltac trace_solve :=
  unfold moves, copies in *;
  repeat rewrite ?count_app, ?count_cons, ?count_nil in *;
  rewrite ?count_fmap_true, ?count_fmap_false, ?count_replicate_true by done;
  simpl in *; try lia.

Section AlgorithmTraces.
Context {T : Type} `{Element T}.

Lemma slot_at_sat p (b : block T) Q E :
  (forall s, b !! p = Some s -> Q s b []) ->
  sat (slot_at p b) Q E.
Proof. unfold slot_at. destruct (b !! p); simpl; auto. Qed.

Lemma set_slot_sat p s (b : block T) Q E :
  (p < length b -> Q tt (<[p := s]> b) []) ->
  sat (set_slot p s b) Q E.
Proof.
  intros HQ. unfold set_slot. wp. apply slot_at_sat.
  intros s' Hs'. wp. apply HQ. by eapply lookup_lt_Some.
Qed.

Lemma deref_sat p (b : block T) Q E :
  (forall x, b !! p = Some (Live x) -> Q x b []) ->
  sat (deref p b) Q E.
Proof.
  intros HQ. unfold deref. wp. apply slot_at_sat.
  intros [|x] Hs; wp. by apply HQ.
Qed.

(** Placement new: it constructs one object and says so, or throws and
    changes nothing. *)
Lemma construct_at_sat p init ev (b : block T) Q E :
  (forall x, init = Some x -> p < length b -> Q tt (<[p := Live x]> b) [ev x]) ->
  (init = None -> E element_exn b []) ->
  sat (construct_at p init ev b) Q E.
Proof.
  intros HQ HE. unfold construct_at. wp. apply slot_at_sat.
  intros s Hs. destruct init as [x|]; wp; [|by apply HE].
  apply set_slot_sat. intros Hp. wp. by apply HQ.
Qed.

(** A destructor never throws. *)
Lemma destroy_at_sat p (b : block T) Q E :
  (forall x, b !! p = Some (Live x) -> Q tt (<[p := Raw]> b) [EvDestroy x]) ->
  sat (destroy_at p b) Q E.
Proof.
  intros HQ. unfold destroy_at. wp. apply deref_sat.
  intros x Hx. wp. apply set_slot_sat. intros Hp. wp. by apply HQ.
Qed.

Lemma destroy_n_sat first n (b : block T) :
  sat (destroy_n first n b)
      (fun _ b' tr =>
         length b' = length b /\ count is_destroy tr = n /\
         forall p, (forall x, p (EvDestroy x) = false) -> count p tr = 0)
      (fun _ _ _ => False).
Proof.
  revert first b. induction n as [|n IH]; intros first b; simpl.
  - by wp.
  - wp. apply destroy_at_sat. intros x Hx.
    eapply sat_mono; [apply IH| |done].
    intros _ b' tr (Hlen & Hd & Hp). rewrite length_insert in Hlen.
    split; [done|]. split; [trace_solve|].
    intros p Hpd. specialize (Hp p Hpd). trace_solve. by rewrite Hpd.
Qed.

Lemma destroy_sat first last (b : block T) :
  sat (destroy first last b)
      (fun _ b' tr =>
         length b' = length b /\
         forall p, (forall x, p (EvDestroy x) = false) -> count p tr = 0)
      (fun _ _ _ => False).
Proof.
  unfold destroy. eapply sat_mono; [apply destroy_n_sat| |done].
  simpl. intros _ b' tr (? & ? & ?). done.
Qed.

Lemma uninitialized_copy_loop_sat src result first cur n (b : block T) :
  sat (uninitialized_copy_loop src result first cur n b)
      (fun _ b' tr =>
         length b' = length b /\ copies tr = n /\
         forall p, (forall x, p (EvCopyCtor x) = false) -> count p tr = 0)
      (fun e b' tr =>
         e = element_exn /\
         forall p, (forall x, p (EvCopyCtor x) = false) ->
                   (forall x, p (EvDestroy x) = false) -> count p tr = 0).
Proof.
  revert first cur b. induction n as [|n IH]; intros first cur b; simpl.
  - by wp.
  - destruct (src !! first) as [[|x]|]; [done| |done].
    wp. apply construct_at_sat.
    + intros y Hy Hcur. eapply sat_mono; [apply IH| |].
      * intros _ b' tr (Hlen & Hc & Hp). rewrite length_insert in Hlen.
        split; [done|]. split; [trace_solve|].
        intros p Hpc. specialize (Hp p Hpc). trace_solve. by rewrite Hpc.
      * simpl. intros e b' tr (-> & Hp). split; [done|].
        intros p Hpc Hpd. specialize (Hp p Hpc Hpd). trace_solve. by rewrite Hpc.
    + intros _. eapply sat_mono; [apply destroy_sat| |done].
      simpl. intros _ b' tr (_ & Hp). split; [done|].
      intros p _ Hpd. by apply Hp.
Qed.

Lemma call_move_construct_sat {St} x (s : St) Q E :
  (forall p, move_construct x = Some p -> Q p s []) ->
  (move_construct x = None -> is_nothrow_move_constructible = false ->
   E element_exn s []) ->
  sat (call_move_construct x s) Q E.
Proof.
  intros HQ HE. unfold call_move_construct.
  destruct (move_construct x) as [p|]; wp; auto.
Qed.

(** Moving [n] objects from one block of the state to another.  [R] is
    any property of the state that writes to the two blocks keep. *)
Lemma uninitialized_move_loop_sat {St} (src dst : lens St (block T))
    (R : St -> Prop) result first cur n s :
  (forall s b, R s -> R (update src b s)) ->
  (forall s b, R s -> R (update dst b s)) ->
  R s ->
  sat (uninitialized_move_loop src dst result first cur n s)
      (fun _ s' tr =>
         R s' /\ moves tr = n /\
         forall p, (forall x, p (EvMoveCtor x) = false) -> count p tr = 0)
      (fun e s' tr =>
         R s' /\ e = element_exn /\ is_nothrow_move_constructible = false /\
         forall p, (forall x, p (EvMoveCtor x) = false) ->
                   (forall x, p (EvDestroy x) = false) -> count p tr = 0).
Proof.
  intros Hsrc Hdst. revert first cur s.
  induction n as [|n IH]; intros first cur s HR; simpl.
  - by wp.
  - wp. unfold move_construct_at. wp.
    apply deref_sat. intros x Hx. wp.
    apply slot_at_sat. intros sl Hsl. wp.
    apply call_move_construct_sat.
    + intros [y r] Hmv. wp. apply set_slot_sat. intros Hfirst. wp.
      apply set_slot_sat. intros Hcur. wp. simpl.
      eapply sat_mono; [apply IH| |]; [auto 10| |].
      * intros _ s' tr (HR' & Hm & Hp). split; [done|]. split; [trace_solve|].
        intros p Hpm. specialize (Hp p Hpm). trace_solve. by rewrite Hpm.
      * simpl. intros e s' tr (HR' & -> & Hnt & Hp). do 3 (split; [done|]).
        intros p Hpm Hpd. specialize (Hp p Hpm Hpd). trace_solve. by rewrite Hpm.
    + intros Hmv Hnt. wp.
      eapply sat_mono; [apply destroy_sat| |done].
      simpl. intros _ b' tr (_ & Hp). split; [auto 10|]. do 2 (split; [done|]).
      intros p _ Hpd. by apply Hp.
Qed.
End AlgorithmTraces.

Lemma sat_any {T St A} (r : res T St A) :
  sat r (fun _ _ _ => True) (fun _ _ _ => True).
Proof. by destruct r. Qed.

(** Instantiate what is known about the kinds of events of a trace at
    the four counters. *)
Ltac inst_count Hp tr :=
  try (assert (count is_move_ctor tr = 0) by (apply Hp; done));
  try (assert (count is_copy_ctor tr = 0) by (apply Hp; done));
  try (assert (count is_value_init tr = 0) by (apply Hp; done));
  try (assert (count is_destroy tr = 0) by (apply Hp; done));
  clear Hp.

Ltac use_counts :=
  repeat match goal with
  | Hp : forall p : event _ -> bool, _ -> count p ?tr = 0 |- _ => inst_count Hp tr
  | Hp : forall p : event _ -> bool, _ -> _ -> count p ?tr = 0 |- _ => inst_count Hp tr
  end.

(** ** Outcomes of the methods that grow the buffer *)

Section Growth.
Context {T : Type} `{Element T} `{Heap}.

Lemma Allocate_sat {St} n (s : St) Q E :
  (forall b tr, length b = n ->
     (forall p, (forall k, p (EvAllocate k) = false) -> count p tr = 0) ->
     operator_new n = true \/ n = 0 ->
     Q b s tr) ->
  (operator_new n = false -> E bad_alloc s []) ->
  sat (Allocate (T:=T) n s) Q E.
Proof.
  intros HQ HE. unfold Allocate. destruct n as [|n]; simpl.
  - wp. apply (HQ []); auto.
  - wp; [|by apply HE]. apply (HQ (Raw :: replicate n Raw)).
    + simpl. by rewrite length_replicate.
    + intros p Hp. trace_solve. by rewrite Hp.
    + by left.
Qed.

Lemma RawMemory_ctor_sat {St} n (s : St) Q E :
  (forall m tr, capacity_ m = n -> length (buffer_ m) = n ->
     (forall p, (forall k, p (EvAllocate k) = false) -> count p tr = 0) ->
     Q m s tr) ->
  (operator_new n = false -> E bad_alloc s []) ->
  sat (RawMemory_ctor (T:=T) n s) Q E.
Proof.
  intros HQ HE. unfold RawMemory_ctor. wp. apply Allocate_sat; [|done].
  intros b tr Hb Hp _. wp. rewrite app_nil_r. by apply HQ.
Qed.

(** The relocation step of [Reserve] and [EmplaceBack] (and each half
    of the one of [EmplaceWithReallocate], with its copies taken
    together): moving or copying [n] elements to the new buffer. *)
Lemma relocation_sat (this v : Vector T) c first n d_first s :
  frame_shape v c s ->
  sat ((if is_nothrow_move_constructible || negb is_copy_constructible
        then uninitialized_move_n old_buffer new_buffer first n d_first
        else zoom new_buffer
               (uninitialized_copy_n (buffer_ (data_ this)) first n d_first)) s)
      (fun _ s' tr => frame_shape v c s' /\ relocated n tr)
      (fun e s' tr =>
         frame_shape v c s' /\ e = element_exn /\ relocating tr /\
         (is_nothrow_move_constructible = true \/ is_copy_constructible = true ->
          fst s' = fst s)).
Proof.
  intros Hs. unfold relocated, relocating.
  destruct (is_nothrow_move_constructible || negb is_copy_constructible) eqn:Hc.
  - unfold uninitialized_move_n.
    eapply sat_mono;
      [apply (uninitialized_move_loop_sat _ _ (frame_shape v c)); [| |done]| |].
    + intros [v' m'] b. unfold frame_shape. simpl. tauto.
    + intros [v' m'] b. unfold frame_shape. simpl. tauto.
    + simpl. intros _ s' tr (Hs' & Hm & Hp). use_counts. trace_solve. done.
    + simpl. intros e s' tr (Hs' & -> & Hnt & Hp). use_counts.
      do 2 (split; [done|]). split; [trace_solve|].
      intros [Hn|Hcc]; [congruence|]. rewrite Hnt, Hcc in Hc. done.
  - wp. unfold uninitialized_copy_n.
    eapply sat_mono; [apply uninitialized_copy_loop_sat| |].
    + simpl. intros _ b' tr (Hlen & Hm & Hp). use_counts.
      split; [|trace_solve; done]. destruct s as [v' m']. unfold frame_shape in *.
      simpl in *. tauto.
    + simpl. intros e b' tr (-> & Hp). use_counts.
      split; [|split; [done|split; [trace_solve|done]]].
      destruct s as [v' m']. unfold frame_shape in *. simpl in *. tauto.
Qed.
End Growth.

Ltac reloc_solve :=
  use_counts; unfold relocated, relocating in *;
  repeat match goal with
  | Hr : context [is_nothrow_move_constructible || negb is_copy_constructible] |- _ =>
      revert Hr
  end;
  destruct (is_nothrow_move_constructible || negb is_copy_constructible); intros;
  trace_solve.

Section GrowthMethods.
Context {T : Type} `{Element T} `{Heap}.

Lemma frame_shape_new v c (s : Vector T * RawMemory T) b :
  frame_shape v c s -> frame_shape v c (update new_buffer b s).
Proof. destruct s. unfold frame_shape. simpl. tauto. Qed.

Lemma frame_shape_old v c (s : Vector T * RawMemory T) b :
  frame_shape v c s -> frame_shape v c (update old_buffer b s).
Proof. destruct s. unfold frame_shape. simpl. tauto. Qed.

Lemma EmplaceWithReallocate_sat (v : Vector T) shift args :
  shift <= size_ v ->
  sat (EmplaceWithReallocate shift args v)
    (fun _ v' tr =>
       size_ v' = size_ v /\
       capacity_ (data_ v') = (if size_ v =? 0 then 1 else size_ v * 2) /\
       relocated (size_ v) tr)
    (fun e v' tr =>
       size_ v' = size_ v /\ capacity_ (data_ v') = capacity_ (data_ v) /\
       relocating tr /\
       (is_nothrow_move_constructible = true \/ is_copy_constructible = true ->
        v' = v) /\
       (e = bad_alloc ->
        operator_new (if size_ v =? 0 then 1 else size_ v * 2) = false /\
        v' = v /\ tr = [])).
Proof.
  intros Hshift.
  unfold EmplaceWithReallocate, RawMemory_plus. wp.
  apply RawMemory_ctor_sat.
  - intros m tr0 Hcap Hlen Hp0. wp.
    apply construct_at_sat.
    + intros x -> Hx. wp.
      destruct (is_nothrow_move_constructible || negb is_copy_constructible) eqn:Hc.
      * wp. unfold uninitialized_move_n.
        eapply sat_mono;
          [apply (uninitialized_move_loop_sat _ _
                    (frame_shape v (if size_ v =? 0 then 1 else size_ v * 2)));
           [apply frame_shape_old|apply frame_shape_new|done]|..].
        -- cbn beta. intros _ s1 tr1 (Hs1 & Hm1 & Hp1).
           eapply sat_mono;
             [apply (uninitialized_move_loop_sat _ _
                    (frame_shape v (if size_ v =? 0 then 1 else size_ v * 2)));
              [apply frame_shape_old|apply frame_shape_new|done]|..].
           ++ cbn beta. intros _ s2 tr2 ((Hsz & _ & Hcap2) & Hm2 & Hp2). wp.
              eapply sat_mono; [apply destroy_n_sat| |done].
              cbn beta. intros _ b3 tr3 (_ & _ & Hp3). wp. simpl.
              do 2 (split; [done|]).
              use_counts. unfold relocated. rewrite Hc. trace_solve.
           ++ cbn beta. intros e s2 tr2 ((Hsz & Hcap2 & _) & -> & Hnt & Hp2).
              do 2 (split; [done|]). use_counts.
              split; [unfold relocating; rewrite Hc; trace_solve|].
              split; [|done]. intros [Hn|Hcc]; [congruence|].
              rewrite Hnt, Hcc in Hc. done.
        -- cbn beta. intros e s2 tr2 ((Hsz & Hcap2 & _) & -> & Hnt & Hp2).
           do 2 (split; [done|]). use_counts.
           split; [unfold relocating; rewrite Hc; trace_solve|].
           split; [|done]. intros [Hn|Hcc]; [congruence|].
           rewrite Hnt, Hcc in Hc. done.
      * wp. unfold uninitialized_copy_n.
        eapply sat_mono; [apply uninitialized_copy_loop_sat|..].
        -- cbn beta. intros _ b1 tr1 (_ & Hc1 & Hp1). wp.
           eapply sat_mono; [apply uninitialized_copy_loop_sat|..].
           ++ cbn beta. intros _ b2 tr2 (_ & Hc2 & Hp2). wp.
              eapply sat_mono; [apply destroy_n_sat| |done].
              cbn beta. intros _ b3 tr3 (_ & _ & Hp3). wp. simpl.
              do 2 (split; [done|]).
              use_counts. unfold relocated. rewrite Hc. trace_solve.
           ++ cbn beta. intros e b2 tr2 (-> & Hp2). wp.
              eapply sat_mono; [apply destroy_n_sat| |done].
              cbn beta. intros _ b3 tr3 (_ & _ & Hp3). simpl.
              do 2 (split; [done|]). use_counts.
              split; [unfold relocating; rewrite Hc; trace_solve|done].
        -- cbn beta. intros e b2 tr2 (-> & Hp2). wp.
           eapply sat_mono; [apply destroy_n_sat| |done].
           cbn beta. intros _ b3 tr3 (_ & _ & Hp3). simpl.
           do 2 (split; [done|]). use_counts.
           split; [unfold relocating; rewrite Hc; trace_solve|done].
    + intros ->. simpl. do 2 (split; [done|]). split; [|done]. reloc_solve.
  - intros Hnew. simpl. do 2 (split; [done|]). split; [|done]. reloc_solve.
Qed.
Lemma Reserve_sat (v : Vector T) n :
  sat (Reserve n v)
    (fun _ v' tr =>
       (n <= capacity_ (data_ v) -> v' = v /\ tr = []) /\
       (capacity_ (data_ v) < n ->
        size_ v' = size_ v /\ capacity_ (data_ v') = n /\ relocated (size_ v) tr))
    (fun e v' tr =>
       capacity_ (data_ v) < n /\
       size_ v' = size_ v /\ capacity_ (data_ v') = capacity_ (data_ v) /\
       relocating tr /\
       (is_nothrow_move_constructible = true \/ is_copy_constructible = true ->
        v' = v) /\
       (e = bad_alloc -> operator_new n = false /\ v' = v /\ tr = [])).
Proof.
  unfold Reserve, RawMemory_Capacity. wp.
  { apply Nat.leb_le in Heqb. split; [done|lia]. }
  apply Nat.leb_gt in Heqb.
  apply RawMemory_ctor_sat.
  - intros m tr0 Hcap Hlen Hp0. wp.
    eapply sat_mono; [apply (@relocation_sat _ _ v v n)|..].
    + done.
    + simpl. intros _ s1 tr1 (Hs1 & Hr1). wp.
      eapply sat_mono; [apply destroy_n_sat| |done].
      simpl. intros _ b2 tr2 (_ & _ & Hp2). wp.
      split; [lia|]. intros _.
      destruct Hs1 as (Hsz & _ & Hc). do 2 (split; [done|]).
      reloc_solve.
    + simpl. intros e s1 tr1 (Hs1 & -> & Hr1 & Hsame).
      destruct Hs1 as (Hsz & Hc' & Hc). do 3 (split; [done|]).
      split; [|done]. reloc_solve.
  - intros Hnew. simpl. do 3 (split; [done|]).
    split; [|done]. reloc_solve.
Qed.

Lemma EmplaceBack_sat (v : Vector T) args :
  sat (EmplaceBack args v)
    (fun _ v' tr =>
       size_ v' = size_ v + 1 /\
       (size_ v = capacity_ (data_ v) ->
        capacity_ (data_ v') = (if size_ v =? 0 then 1 else size_ v * 2) /\
        relocated (size_ v) tr) /\
       (size_ v <> capacity_ (data_ v) ->
        capacity_ (data_ v') = capacity_ (data_ v) /\
        size_ v < capacity_ (data_ v)))
    (fun e v' tr =>
       size_ v' = size_ v /\ capacity_ (data_ v') = capacity_ (data_ v) /\
       (size_ v = capacity_ (data_ v) ->
        relocating tr /\
        (is_nothrow_move_constructible = true \/ is_copy_constructible = true ->
         v' = v) /\
        (e = bad_alloc ->
         operator_new (if size_ v =? 0 then 1 else size_ v * 2) = false /\
         v' = v /\ tr = []))).
Proof.
  unfold EmplaceBack, Capacity, RawMemory_Capacity, RawMemory_plus. wp.
  - apply Nat.eqb_eq in Heqb.
    apply RawMemory_ctor_sat.
    + intros m tr0 Hcap Hlen Hp0. wp.
      apply construct_at_sat.
      * intros x -> Hx. wp.
        eapply sat_mono;
          [apply (@relocation_sat _ _ v v (if size_ v =? 0 then 1 else size_ v * 2))|..].
        -- done.
        -- simpl. intros _ s1 tr1 (Hs1 & Hr1). wp.
           eapply sat_mono; [apply destroy_n_sat| |done].
           simpl. intros _ b2 tr2 (_ & _ & Hp2). wp.
           destruct Hs1 as (Hsz & _ & Hc). unfold incr_size. simpl.
           split; [lia|]. split; [|done]. intros _. split; [done|].
           reloc_solve.
        -- simpl. intros e s1 tr1 (Hs1 & -> & Hr1 & Hsame).
           destruct Hs1 as (Hsz & Hc' & Hc). do 2 (split; [done|]).
           intros _. split; [|done]. reloc_solve.
      * intros ->. simpl. do 2 (split; [done|]). intros _.
        split; [|done]. reloc_solve.
    + intros Hnew. simpl. do 2 (split; [done|]). intros _.
      split; [|done]. reloc_solve.
  - apply Nat.eqb_neq in Heqb. apply Nat.leb_le in H1.
    apply construct_at_sat.
    + intros x -> Hx. wp. unfold incr_size. simpl.
      split; [lia|]. split; [done|]. intros _. split; [done|lia].
    + intros ->. simpl. done.
Qed.
End GrowthMethods.

(** A step whose outcome does not matter beyond the state it leaves. *)
Ltac wp_leaf :=
  eapply sat_mono; [apply sat_any | cbn beta; intros | cbn beta; intros].
Ltac wp_shape :=
  repeat first [wp_step | apply call_move_construct_sat; intros | wp_leaf].

(** ** Sizes and capacities after the other methods *)

Section Shapes.
Context {T : Type} `{Element T} `{Heap}.

Lemma EmplaceWithoutReallocate_sat (v : Vector T) shift args :
  sat (EmplaceWithoutReallocate shift args v)
      (fun _ v' _ => same_shape v v') (fun _ v' _ => same_shape v v').
Proof.
  unfold EmplaceWithoutReallocate, move_construct_at, RawMemory_plus, same_shape.
  wp_shape; simpl; done.
Qed.

Lemma Emplace_sat (v : Vector T) pos args :
  sat (Emplace pos args v)
    (fun _ v' tr =>
       (0 <= pos <= Z.of_nat (size_ v))%Z /\
       size_ v' = size_ v + 1 /\
       (size_ v = capacity_ (data_ v) ->
        capacity_ (data_ v') = (if size_ v =? 0 then 1 else size_ v * 2) /\
        relocated (size_ v) tr) /\
       (size_ v <> capacity_ (data_ v) ->
        capacity_ (data_ v') = capacity_ (data_ v)))
    (fun e v' tr =>
       size_ v' = size_ v /\ capacity_ (data_ v') = capacity_ (data_ v) /\
       (size_ v = capacity_ (data_ v) ->
        relocating tr /\
        (is_nothrow_move_constructible = true \/ is_copy_constructible = true ->
         v' = v) /\
        (e = bad_alloc ->
         operator_new (if size_ v =? 0 then 1 else size_ v * 2) = false /\
         v' = v /\ tr = []))).
Proof.
  unfold Emplace, Capacity, RawMemory_Capacity. wp.
  - apply andb_true_iff in H1 as [Hlo Hhi].
    apply Z.leb_le in Hlo, Hhi. apply Nat.eqb_eq in Heqb.
    eapply sat_mono; [apply EmplaceWithReallocate_sat; lia|..].
    + cbn beta. intros res v' tr (Hsz & Hcap & Hr). wp. unfold incr_size. simpl.
      split; [lia|]. split; [lia|]. split; [|done]. intros _. split; [done|].
      by rewrite !app_nil_r.
    + cbn beta. intros e v' tr (Hsz & Hcap & Hr & Hsame & Hba).
      do 2 (split; [done|]). intros _. done.
  - apply andb_true_iff in H1 as [Hlo Hhi].
    apply Z.leb_le in Hlo, Hhi. apply Nat.eqb_neq in Heqb.
    eapply sat_mono; [apply EmplaceWithoutReallocate_sat|..].
    + cbn beta. intros res v' tr (Hsz & Hcap). wp. unfold incr_size. simpl.
      split; [lia|]. split; [lia|]. split; [done|]. intros _. done.
    + cbn beta. intros e v' tr (Hsz & Hcap). done.
Qed.

Lemma PopBack_sat (v : Vector T) :
  sat (PopBack v)
      (fun _ v' _ => size_ v' = size_ v - 1 /\
                     capacity_ (data_ v') = capacity_ (data_ v))
      (fun _ _ _ => False).
Proof.
  unfold PopBack. wp.
  - apply destroy_at_sat. intros x Hx. wp. done.
  - split; [|done]. apply Nat.ltb_ge in Heqb. lia.
Qed.

Lemma Erase_sat (v : Vector T) pos :
  sat (Erase pos v)
      (fun _ v' _ => size_ v' <= size_ v /\
                     capacity_ (data_ v') = capacity_ (data_ v))
      (fun _ _ _ => False).
Proof.
  unfold Erase. wp.
  - wp_leaf; [|done].
    eapply sat_mono; [apply PopBack_sat|..]; [|done].
    cbn beta. intros _ v' tr' (Hsz & Hcap). wp. simpl in *. split; [lia|done].
  - done.
Qed.

Lemma Resize_sat (v : Vector T) n :
  sat (Resize n v)
      (fun _ v' _ =>
         size_ v' = n /\
         (n < size_ v \/ n <= capacity_ (data_ v) ->
          capacity_ (data_ v') = capacity_ (data_ v)) /\
         (size_ v <= n -> capacity_ (data_ v) < n ->
          capacity_ (data_ v') = Nat.max n (capacity_ (data_ v) * 2)))
      (fun _ v' _ => size_ v' = size_ v).
Proof.
  unfold Resize, Capacity, RawMemory_Capacity. wp.
  - apply Nat.ltb_lt in Heqb. wp_leaf; [|done]. wp. simpl.
    split; [done|]. split; [done|lia].
  - apply Nat.ltb_ge in Heqb. apply Nat.ltb_lt in Heqb0.
    eapply sat_mono; [apply Reserve_sat|..].
    + cbn beta. intros _ v1 tr1 (_ & Hgrow). wp.
      destruct Hgrow as (Hsz & Hcap & _); [lia|].
      wp_leaf; [|simpl; lia]. wp. simpl.
      split; [done|]. split; [lia|done].
    + cbn beta. intros e v1 tr1 (_ & Hsz & _). done.
  - apply Nat.ltb_ge in Heqb, Heqb0. wp.
    wp_leaf; [|done]. wp. simpl. split; [done|]. split; [done|lia].
Qed.

Lemma subscript_sat (v : Vector T) index :
  sat (subscript index v)
      (fun _ v' _ => same_shape v v') (fun _ v' _ => same_shape v v').
Proof.
  unfold subscript, RawMemory_index, same_shape. wp_shape; simpl; done.
Qed.
End Shapes.

(** ** Vectors of a store stay within their capacity *)

Section Stores.
Context {T : Type} `{Element T} `{Heap}.

Lemma object_sat id (st : objects T) Q E :
  (forall v, st !! id = Some v -> Q v st []) ->
  sat (object id st) Q E.
Proof. unfold object. destruct (st !! id); simpl; auto. Qed.

Lemma call_sat {A} this (m : M T (Vector T) A) (st : objects T) Q E :
  (forall v, st !! this = Some v ->
     sat (m v) (fun a v' tr => Q a (<[this := v']> st) tr)
               (fun e v' tr => E e (<[this := v']> st) tr)) ->
  sat (call this m st) Q E.
Proof.
  intros Hm. unfold call. wp. apply object_sat. intros v Hv. wp.
  simpl. rewrite Hv. simpl. eapply sat_mono; [by apply Hm|..].
  - intros a s tr HQ. exact HQ.
  - intros a s tr HQ. exact HQ.
Qed.

Lemma vector_eta (v : Vector T) :
  {| data_ := data_ v; size_ := size_ v |} = v.
Proof. by destruct v. Qed.

Lemma Swap_sat this other (st : objects T) :
  sat (Swap this other st)
      (fun _ st' tr =>
         exists a b, st !! this = Some a /\ st !! other = Some b /\
                     st' = <[other := a]> (<[this := b]> st) /\ tr = [])
      (fun _ _ _ => False).
Proof.
  unfold Swap. apply sat_noexcept. wp.
  apply object_sat. intros a Ha. wp.
  apply object_sat. intros b Hb. wp.
  assert (this < length st) as Hthis by by eapply lookup_lt_Some.
  assert (other < length st) as Hother by by eapply lookup_lt_Some.
  apply call_sat. intros v1 Hv1. wp.
  apply call_sat. intros v2 Hv2. wp.
  apply call_sat. intros v3 Hv3. wp.
  apply call_sat. intros v4 Hv4. wp.
  exists a, b. do 2 (split; [done|]). split; [|done].
  rewrite Ha in Hv1. injection Hv1 as <-.
  destruct (decide (this = other)) as [->|Hne].
  - rewrite Ha in Hb. injection Hb as <-.
    rewrite list_lookup_insert_eq in Hv2 by done. injection Hv2 as <-.
    rewrite list_lookup_insert_eq in Hv3 by (by rewrite length_insert).
    injection Hv3 as <-.
    rewrite list_lookup_insert_eq in Hv4 by (by rewrite !length_insert).
    injection Hv4 as <-.
    rewrite !list_insert_insert_eq. unfold set_size. simpl.
    by rewrite vector_eta.
  - rewrite list_lookup_insert_ne in Hv2 by done.
    rewrite Hb in Hv2. injection Hv2 as <-.
    rewrite list_lookup_insert_ne in Hv3 by done.
    rewrite list_lookup_insert_eq in Hv3 by done. injection Hv3 as <-.
    rewrite list_lookup_insert_ne in Hv4 by done.
    rewrite list_lookup_insert_eq in Hv4 by (by rewrite length_insert).
    injection Hv4 as <-.
    rewrite (list_insert_insert_ne (<[this:=_]> st) this other) by done.
    rewrite !list_insert_insert_eq.
    unfold set_size. simpl. by rewrite !vector_eta.
Qed.

Lemma new_object_sat v (st : objects T) Q E :
  Q (length st) (st ++ [v]) [] ->
  sat (new_object v st) Q E.
Proof. intros HQ. unfold new_object. wp. exact HQ. Qed.

Lemma call_keeps {A} this (m : M T (Vector T) A) (st : objects T) :
  (forall v, within_capacity v ->
     sat (m v) (fun _ v' _ => within_capacity v') (fun _ _ _ => True)) ->
  Forall within_capacity st ->
  sat (call this m st)
      (fun _ st' _ => Forall within_capacity st') (fun _ _ _ => True).
Proof.
  intros Hm Hst. apply call_sat. intros v Hv.
  eapply sat_mono; [apply Hm|..]; [|cbn beta|done].
  - by eapply Forall_lookup_1.
  - intros _ v' _ Hv'. by apply Forall_insert.
Qed.

Lemma Vector_sized_sat {St} size (s : St) :
  sat (Vector_sized size s)
      (fun v s' _ => s' = s /\ size_ v = size /\ capacity_ (data_ v) = size)
      (fun _ s' _ => s' = s).
Proof.
  unfold Vector_sized. wp. apply RawMemory_ctor_sat; [|done].
  intros m tr Hcap Hlen _. wp. wp_leaf; [|done]. wp. simpl. done.
Qed.

Lemma Vector_copy_sat {St} other (s : St) :
  sat (Vector_copy other s)
      (fun v s' _ => s' = s /\ size_ v = size_ other /\
                     capacity_ (data_ v) = size_ other)
      (fun _ s' _ => s' = s).
Proof.
  unfold Vector_copy. wp. apply RawMemory_ctor_sat; [|done].
  intros m tr Hcap Hlen _. wp. wp_leaf; [|done]. wp. simpl. done.
Qed.

Lemma Swap_keeps this other (st : objects T) :
  Forall within_capacity st ->
  sat (Swap this other st)
      (fun _ st' _ => Forall within_capacity st') (fun _ _ _ => True).
Proof.
  intros Hst. eapply sat_mono; [apply Swap_sat|..]; [cbn beta|done].
  intros _ st' tr (a & b & Ha & Hb & -> & _).
  apply Forall_insert; [apply Forall_insert|]; [done|..];
    by eapply Forall_lookup_1.
Qed.

Lemma within_capacity_default : within_capacity (@Vector_default T).
Proof. unfold within_capacity, Size, Capacity. simpl. lia. Qed.

Lemma Vector_move_keeps other (st : objects T) :
  Forall within_capacity st ->
  sat (Vector_move other st)
      (fun _ st' _ => Forall within_capacity st') (fun _ _ _ => True).
Proof.
  intros Hst. unfold Vector_move. wp. apply new_object_sat. wp.
  eapply sat_mono; [apply Swap_keeps|..]; [|cbn beta|done].
  - apply Forall_app. split; [done|]. apply Forall_singleton.
    apply within_capacity_default.
  - intros _ st' _ Hst'. wp. done.
Qed.

Lemma assign_copy_keeps this rhs (st : objects T) :
  Forall within_capacity st ->
  sat (assign_copy this rhs st)
      (fun _ st' _ => Forall within_capacity st') (fun _ _ _ => True).
Proof.
  intros Hst. unfold assign_copy, delete_object, RawMemory_Capacity. wp; [|done].
  apply object_sat. intros t Ht. wp.
  apply object_sat. intros r Hr. wp.
  - eapply sat_mono; [apply Vector_copy_sat|..]; [cbn beta|done].
    intros v ? _ (-> & Hsz & Hcap). wp. apply new_object_sat. wp.
    eapply sat_mono; [apply Swap_keeps|..]; [|cbn beta|done].
    + apply Forall_app. split; [done|]. apply Forall_singleton.
      unfold within_capacity, Size, Capacity, RawMemory_Capacity. lia.
    + intros _ st' _ Hst'. wp.
      eapply sat_mono; [apply call_keeps|..]; [|done|cbn beta|done].
      * intros v0 Hv0. unfold Vector_dtor. wp. wp_leaf; [|done].
        unfold within_capacity, Size, Capacity, RawMemory_Capacity in *.
        simpl. done.
      * intros _ st'' _ Hst''. wp. by apply Forall_take.
  - apply Nat.ltb_ge in Heqb0.
    apply call_sat. intros t' Ht'. rewrite Ht in Ht'. injection Ht' as <-.
    wp_shape; try done.
    all: apply Forall_insert; [done|].
    all: unfold within_capacity, Size, Capacity, RawMemory_Capacity; simpl; lia.
Qed.

#[local] Ltac unfold_within :=
  unfold within_capacity, Size, Capacity, RawMemory_Capacity in *.

Lemma Reserve_keeps n (v : Vector T) :
  within_capacity v ->
  sat (Reserve n v) (fun _ v' _ => within_capacity v') (fun _ _ _ => True).
Proof.
  intros Hv. eapply sat_mono; [apply Reserve_sat|..]; [cbn beta|done].
  intros _ v' tr (Hsame & Hgrow). unfold_within.
  destruct (decide (n <= capacity_ (data_ v))) as [Hle|Hgt].
  - by destruct (Hsame Hle) as [-> _].
  - destruct Hgrow as (Hsz & Hcap & _); lia.
Qed.

Lemma Resize_keeps n (v : Vector T) :
  within_capacity v ->
  sat (Resize n v) (fun _ v' _ => within_capacity v') (fun _ _ _ => True).
Proof.
  intros Hv. eapply sat_mono; [apply Resize_sat|..]; [cbn beta|done].
  intros _ v' tr (Hsz & Hsame & Hgrow). unfold_within.
  destruct (decide (n < size_ v \/ n <= capacity_ (data_ v))) as [Hle|Hgt].
  - rewrite (Hsame Hle). lia.
  - rewrite Hgrow; lia.
Qed.

Lemma EmplaceBack_keeps args (v : Vector T) :
  within_capacity v ->
  sat (EmplaceBack args v) (fun _ v' _ => within_capacity v') (fun _ _ _ => True).
Proof.
  intros Hv. eapply sat_mono; [apply EmplaceBack_sat|..]; [cbn beta|done].
  intros _ v' tr (Hsz & Hgrow & Hsame). unfold_within.
  destruct (decide (size_ v = capacity_ (data_ v))) as [Heq|Hne].
  - destruct (Hgrow Heq) as [Hcap _]. destruct (size_ v); simpl in *; lia.
  - destruct (Hsame Hne) as [Hcap ?]. lia.
Qed.

Lemma Emplace_keeps pos args (v : Vector T) :
  within_capacity v ->
  sat (Emplace pos args v) (fun _ v' _ => within_capacity v') (fun _ _ _ => True).
Proof.
  intros Hv. eapply sat_mono; [apply Emplace_sat|..]; [cbn beta|done].
  intros _ v' tr (_ & Hsz & Hgrow & Hsame). unfold_within.
  destruct (decide (size_ v = capacity_ (data_ v))) as [Heq|Hne].
  - destruct (Hgrow Heq) as [Hcap _]. destruct (size_ v); simpl in *; lia.
  - rewrite (Hsame Hne). lia.
Qed.

Lemma PopBack_keeps (v : Vector T) :
  within_capacity v ->
  sat (PopBack v) (fun _ v' _ => within_capacity v') (fun _ _ _ => True).
Proof.
  intros Hv. eapply sat_mono; [apply PopBack_sat|..]; [cbn beta|done].
  intros _ v' tr (Hsz & Hcap). unfold_within. lia.
Qed.

Lemma Erase_keeps pos (v : Vector T) :
  within_capacity v ->
  sat (Erase pos v) (fun _ v' _ => within_capacity v') (fun _ _ _ => True).
Proof.
  intros Hv. eapply sat_mono; [apply Erase_sat|..]; [cbn beta|done].
  intros _ v' tr (Hsz & Hcap). unfold_within. lia.
Qed.

Lemma subscript_keeps index (v : Vector T) :
  within_capacity v ->
  sat (subscript index v) (fun _ v' _ => within_capacity v') (fun _ _ _ => True).
Proof.
  intros Hv. eapply sat_mono; [apply subscript_sat|..]; [cbn beta|done].
  intros _ v' tr (Hsz & Hcap). unfold_within. lia.
Qed.

(** Every operation of the public interface that returns keeps every
    vector of the store within its capacity. *)
Lemma exec_keeps o (st : objects T) :
  Forall within_capacity st ->
  sat (exec o st) (fun _ st' _ => Forall within_capacity st') (fun _ _ _ => True).
Proof.
  intros Hst. destruct o; unfold exec, PushBack, PushBack_move, Insert, Insert_move.
  - wp. apply new_object_sat. wp. apply Forall_app. split; [done|].
    apply Forall_singleton, within_capacity_default.
  - wp. eapply sat_mono; [apply Vector_sized_sat|..]; [cbn beta|done].
    intros v ? _ (-> & Hsz & Hcap). wp. apply new_object_sat. wp.
    apply Forall_app. split; [done|]. apply Forall_singleton.
    unfold_within. lia.
  - wp. apply object_sat. intros r Hr. wp.
    eapply sat_mono; [apply Vector_copy_sat|..]; [cbn beta|done].
    intros v ? _ (-> & Hsz & Hcap). wp. apply new_object_sat. wp.
    apply Forall_app. split; [done|]. apply Forall_singleton.
    unfold_within. lia.
  - wp. eapply sat_mono; [by apply Vector_move_keeps|..]; [cbn beta|done].
    intros ? st' _ Hst'. by wp.
  - by apply assign_copy_keeps.
  - unfold assign_move. wp; [|done]. by apply Swap_keeps.
  - wp. eapply sat_mono; [apply call_keeps; [apply subscript_keeps|done]|..];
      [cbn beta|done].
    intros ? st' _ Hst'. by wp.
  - apply call_keeps; [apply Reserve_keeps|done].
  - by apply Swap_keeps.
  - apply call_keeps; [apply Resize_keeps|done].
  - apply call_keeps; [|done]. intros v Hv. wp.
    eapply sat_mono; [by apply EmplaceBack_keeps|..]; [cbn beta|done].
    intros ? v' _ Hv'. by wp.
  - apply call_keeps; [|done]. intros v Hv. wp.
    eapply sat_mono; [by apply EmplaceBack_keeps|..]; [cbn beta|done].
    intros ? v' _ Hv'. by wp.
  - wp. eapply sat_mono; [apply call_keeps; [apply EmplaceBack_keeps|done]|..];
      [cbn beta|done].
    intros ? st' _ Hst'. by wp.
  - apply call_keeps; [apply PopBack_keeps|done].
  - wp. eapply sat_mono; [apply call_keeps; [apply Emplace_keeps|done]|..];
      [cbn beta|done].
    intros ? st' _ Hst'. by wp.
  - wp. eapply sat_mono; [apply call_keeps; [apply Erase_keeps|done]|..];
      [cbn beta|done].
    intros ? st' _ Hst'. by wp.
  - wp. eapply sat_mono; [apply call_keeps; [apply Emplace_keeps|done]|..];
      [cbn beta|done].
    intros ? st' _ Hst'. by wp.
  - wp. eapply sat_mono; [apply call_keeps; [apply Emplace_keeps|done]|..];
      [cbn beta|done].
    intros ? st' _ Hst'. by wp.
Qed.

Lemma run_keeps prog (st : objects T) :
  Forall within_capacity st ->
  sat (run prog st) (fun _ st' _ => Forall within_capacity st') (fun _ _ _ => True).
Proof.
  revert st. induction prog as [|o prog IH]; intros st Hst; simpl.
  - by wp.
  - wp. eapply sat_mono; [by apply exec_keeps|..]; [cbn beta|done].
    intros _ st' _ Hst'. eapply sat_mono; [by apply IH|..]; done.
Qed.
End Stores.

(** ** What the methods compute on well-formed vectors *)

Section Exact.
Context {T : Type} `{Element T}.

Lemma slot_at_middle (pre : block T) s post i :
  i = length pre ->
  slot_at i (pre ++ s :: post) = Ok s (pre ++ s :: post) [].
Proof. intros ->. unfold slot_at. by rewrite list_lookup_middle. Qed.

Lemma set_slot_middle (pre : block T) s s' post i :
  i = length pre ->
  set_slot i s' (pre ++ s :: post) = Ok tt (pre ++ s' :: post) [].
Proof.
  intros ->. unfold set_slot, bind, modify.
  rewrite (slot_at_middle _ _ _ eq_refl). simpl.
  rewrite insert_app_r_alt by done. by rewrite Nat.sub_diag.
Qed.

Lemma deref_middle (pre : block T) x post i :
  i = length pre ->
  deref i (pre ++ Live x :: post) = Ok x (pre ++ Live x :: post) [].
Proof.
  intros ->. unfold deref, bind. by rewrite (slot_at_middle _ _ _ eq_refl).
Qed.

Lemma destroy_at_middle (pre : block T) x post i :
  i = length pre ->
  destroy_at i (pre ++ Live x :: post) = Ok tt (pre ++ Raw :: post) [EvDestroy x].
Proof.
  intros ->. unfold destroy_at, bind.
  rewrite (deref_middle _ _ _ eq_refl). simpl.
  by rewrite (set_slot_middle _ _ _ _ eq_refl).
Qed.

Lemma construct_at_middle (pre : block T) s x ev post i :
  i = length pre ->
  construct_at i (Some x) ev (pre ++ s :: post)
  = Ok tt (pre ++ Live x :: post) [ev x].
Proof.
  intros ->. unfold construct_at, bind.
  rewrite (slot_at_middle _ _ _ eq_refl). simpl.
  by rewrite (set_slot_middle _ _ _ _ eq_refl).
Qed.

(** Destroying a run of live objects leaves raw memory. *)
Lemma destroy_n_exact (pre : block T) ys post first :
  first = length pre ->
  destroy_n first (length ys) (pre ++ (Live <$> ys) ++ post)
  = Ok tt (pre ++ replicate (length ys) Raw ++ post) (EvDestroy <$> ys).
Proof.
  revert pre first. induction ys as [|y ys IH]; intros pre first ->; [done|].
  simpl. unfold bind. rewrite (destroy_at_middle _ _ _ eq_refl).
  rewrite (cons_middle Raw), app_assoc.
  rewrite IH by (rewrite length_app; simpl; lia).
  simpl. by rewrite <- app_assoc.
Qed.

(** Value-initialising a run of slots. *)
Lemma uninitialized_value_construct_loop_exact d (pre mid : block T) post result cur :
  value_construct = Some d ->
  cur = length pre ->
  uninitialized_value_construct_loop result cur (length mid) (pre ++ mid ++ post)
  = Ok tt (pre ++ replicate (length mid) (Live d) ++ post)
       (replicate (length mid) (EvValueInit d)).
Proof.
  intros Hd. revert pre cur. induction mid as [|s mid IH]; intros pre cur ->; [done|].
  simpl. unfold bind, catch_rethrow. rewrite Hd.
  rewrite (construct_at_middle _ _ _ _ _ eq_refl).
  rewrite (cons_middle (Live d)), app_assoc.
  rewrite IH by (rewrite length_app; simpl; lia).
  simpl. by rewrite <- app_assoc.
Qed.

Lemma vector_ext (b b' : block T) c c' n n' :
  b = b' -> c = c' -> n = n' ->
  {| data_ := {| buffer_ := b; capacity_ := c |}; size_ := n |}
  = {| data_ := {| buffer_ := b'; capacity_ := c' |}; size_ := n' |}.
Proof. by intros -> -> ->. Qed.

Lemma zoom_this_buffer {A} (m : M T (block T) A) (v : Vector T) a b tr :
  m (buffer_ (data_ v)) = Ok a b tr ->
  zoom this_buffer m v
  = Ok a {| data_ := {| buffer_ := b; capacity_ := capacity_ (data_ v) |};
            size_ := size_ v |} tr.
Proof. intros Hm. unfold zoom. simpl. by rewrite Hm. Qed.

(** [PopBack] on a vector that is not empty destroys the last element
    and decrements the length. *)
Lemma PopBack_exact (xs : list T) x spare :
  PopBack (vector_of (xs ++ [x]) spare)
  = Ok tt (vector_of xs (S spare)) [EvDestroy x].
Proof.
  unfold PopBack, noexcept, bind, get. simpl.
  rewrite length_app. simpl.
  replace (0 <? length xs + 1) with true by (symmetry; apply Nat.ltb_lt; lia).
  erewrite zoom_this_buffer; last first.
  { simpl. rewrite fmap_app, <- app_assoc. simpl.
    apply destroy_at_middle. rewrite length_fmap. lia. }
  simpl. unfold vector_of, decr_size, set_size. simpl.
  f_equal. apply vector_ext; [done|rewrite length_app; simpl; lia..].
Qed.

(** [PopBack] on an empty vector does nothing. *)
Lemma PopBack_empty spare :
  PopBack (vector_of (T:=T) [] spare) = Ok tt (vector_of [] spare) [].
Proof. done. Qed.

(** [Resize] to a smaller length destroys the trailing elements. *)
Lemma Resize_shrink_exact `{Heap} (xs : list T) spare k :
  k < length xs ->
  Resize k (vector_of xs spare)
  = Ok tt (vector_of (take k xs) (spare + (length xs - k)))
       (EvDestroy <$> drop k xs).
Proof.
  intros Hk. unfold Resize, bind, get. simpl.
  replace (k <? length xs) with true by (symmetry; apply Nat.ltb_lt; lia).
  erewrite zoom_this_buffer; last first.
  { simpl. rewrite <- (take_drop k xs) at 2. rewrite fmap_app, <- app_assoc.
    replace (length xs - k) with (length (drop k xs)) by (rewrite length_drop; lia).
    apply destroy_n_exact. rewrite length_fmap, length_take. lia. }
  simpl. rewrite app_nil_r. unfold vector_of, set_size. simpl.
  f_equal. apply vector_ext.
  - rewrite length_drop, <- replicate_add. do 2 f_equal. lia.
  - rewrite length_take. lia.
  - rewrite length_take. lia.
Qed.

(** [Resize] to the current length does nothing. *)
Lemma Resize_same_exact `{Heap} (xs : list T) spare :
  Resize (length xs) (vector_of xs spare) = Ok tt (vector_of xs spare) [].
Proof.
  unfold Resize, bind, get, Capacity, RawMemory_Capacity. simpl.
  rewrite Nat.ltb_irrefl.
  replace (length xs + spare <? length xs) with false
    by (symmetry; apply Nat.ltb_ge; lia).
  simpl. rewrite Nat.sub_diag. done.
Qed.

(** Value-initialising the slots after the elements, before the
    length is updated. *)
Lemma value_construct_tail_exact (xs : list T) spare k d :
  value_construct = Some d ->
  length xs <= k <= length xs + spare ->
  zoom this_buffer
    (uninitialized_value_construct_n (length xs) (k - length xs))
    (vector_of xs spare)
  = Ok tt (set_size (length xs)
             (vector_of (xs ++ replicate (k - length xs) d)
                        (length xs + spare - k)))
       (replicate (k - length xs) (EvValueInit d)).
Proof.
  intros Hd Hk. unfold uninitialized_value_construct_n.
  erewrite zoom_this_buffer; last first.
  { simpl.
    replace spare with ((k - length xs) + (length xs + spare - k)) at 1 by lia.
    rewrite replicate_add.
    replace (k - length xs) with (length (replicate (k - length xs) (@Raw T)))
      at 1 by apply length_replicate.
    apply (uninitialized_value_construct_loop_exact _ _ _ _ Hd).
    by rewrite length_fmap. }
  simpl. rewrite length_replicate. unfold vector_of, set_size. simpl.
  f_equal. apply vector_ext.
  - by rewrite fmap_app, fmap_replicate, <- app_assoc.
  - rewrite length_app, length_replicate. lia.
  - done.
Qed.

(** [Resize] to a larger length within the capacity value-initialises
    the new trailing elements. *)
Lemma Resize_grow_exact `{Heap} (xs : list T) spare k d :
  value_construct = Some d ->
  length xs <= k <= length xs + spare ->
  Resize k (vector_of xs spare)
  = Ok tt (vector_of (xs ++ replicate (k - length xs) d) (length xs + spare - k))
       (replicate (k - length xs) (EvValueInit d)).
Proof.
  intros Hd Hk. unfold Resize, bind, get, Capacity, RawMemory_Capacity. simpl.
  replace (k <? length xs) with false by (symmetry; apply Nat.ltb_ge; lia).
  replace (length xs + spare <? k) with false
    by (symmetry; apply Nat.ltb_ge; lia).
  simpl. rewrite (value_construct_tail_exact _ _ Hd Hk).
  simpl. rewrite app_nil_r. unfold vector_of, set_size. simpl.
  f_equal. apply vector_ext; [done..|].
  rewrite length_app, length_replicate. lia.
Qed.

(** Copying a run of objects into another block, when the copy
    constructor gives a copy. *)
Lemma uninitialized_copy_loop_exact (spre spost pre mid post : block T) ys
    result first cur :
  (forall x, copy_construct x = Some x) ->
  first = length spre -> cur = length pre -> length mid = length ys ->
  uninitialized_copy_loop (spre ++ (Live <$> ys) ++ spost) result first cur
    (length ys) (pre ++ mid ++ post)
  = Ok tt (pre ++ (Live <$> ys) ++ post) (EvCopyCtor <$> ys).
Proof.
  intros Hcopy. revert spre pre mid first cur.
  induction ys as [|y ys IH]; intros spre pre mid first cur -> -> Hlen.
  { destruct mid; [done|discriminate]. }
  destruct mid as [|s mid]; [discriminate|]. simpl in Hlen.
  simpl. rewrite list_lookup_middle by done.
  unfold bind, catch_rethrow. rewrite Hcopy.
  rewrite (construct_at_middle _ _ _ _ _ eq_refl).
  rewrite (cons_middle (Live y) spre), app_assoc.
  rewrite (cons_middle (Live y) pre), (app_assoc pre).
  rewrite (IH _ _ mid) by (rewrite ?length_app; simpl; lia).
  simpl. by rewrite <- app_assoc.
Qed.
End Exact.

Section MoveExact.
Context {T : Type} `{Element T} {St : Type}.
Variables src dst : lens St (block T).
Variable R : St -> Prop.
Hypothesis src_view_update : forall s b, view src (update src b s) = b.
Hypothesis dst_view_update : forall s b, view dst (update dst b s) = b.
Hypothesis src_view_dst : forall s b, view src (update dst b s) = view src s.
Hypothesis dst_view_src : forall s b, view dst (update src b s) = view dst s.
Hypothesis R_src : forall s b, R s -> R (update src b s).
Hypothesis R_dst : forall s b, R s -> R (update dst b s).
Hypothesis transfers : forall x, exists r, move_construct x = Some (x, r).

Lemma move_construct_at_exact (spre spost pre post : block T) y y' r sl
    first cur s :
  R s ->
  first = length spre -> cur = length pre ->
  view src s = spre ++ Live y :: spost ->
  view dst s = pre ++ sl :: post ->
  move_construct y = Some (y', r) ->
  exists s1,
    move_construct_at src dst first cur s = Ok tt s1 [EvMoveCtor y] /\
    R s1 /\
    view src s1 = spre ++ Live r :: spost /\
    view dst s1 = pre ++ Live y' :: post.
Proof using All.
  intros HR -> -> Hsrc Hdst Hmv. unfold move_construct_at.
  eexists. split.
  - erewrite bind_Ok; last first.
    { apply zoom_Ok. rewrite Hsrc. by apply deref_middle. }
    rewrite after_nil.
    erewrite bind_Ok; last first.
    { apply zoom_Ok. rewrite dst_view_src, Hdst. by apply slot_at_middle. }
    rewrite after_nil.
    erewrite bind_Ok; last first.
    { unfold call_move_construct. rewrite Hmv. reflexivity. }
    rewrite after_nil.
    erewrite bind_Ok; last first.
    { apply zoom_Ok. rewrite src_view_dst, src_view_update.
      by apply set_slot_middle. }
    rewrite after_nil.
    erewrite bind_Ok; last first.
    { apply zoom_Ok. rewrite dst_view_src, dst_view_update.
      by apply set_slot_middle. }
    rewrite after_nil. reflexivity.
  - split; [auto 10|]. simpl.
    by rewrite src_view_dst, src_view_update, dst_view_update.
Qed.

(** Moving a run of objects from one block into another, when the
    move constructor transfers the value: the destination holds the
    values, the source what the moves left behind. *)
Lemma uninitialized_move_loop_exact (spre spost pre mid post : block T) ys
    result first cur s :
  R s ->
  first = length spre -> cur = length pre -> length mid = length ys ->
  view src s = spre ++ (Live <$> ys) ++ spost ->
  view dst s = pre ++ mid ++ post ->
  exists s' rs,
    uninitialized_move_loop src dst result first cur (length ys) s
    = Ok tt s' (EvMoveCtor <$> ys) /\
    R s' /\ length rs = length ys /\
    view src s' = spre ++ (Live <$> rs) ++ spost /\
    view dst s' = pre ++ (Live <$> ys) ++ post.
Proof using All.
  revert spre pre mid first cur s.
  induction ys as [|y ys IH]; intros spre pre mid first cur s HR -> -> Hlen Hsrc Hdst.
  { destruct mid; [|discriminate]. exists s, []. done. }
  destruct mid as [|sl mid]; [discriminate|]. simpl in Hlen.
  destruct (transfers y) as [r Hr].
  edestruct (@move_construct_at_exact spre ((Live <$> ys) ++ spost) pre (mid ++ post))
    as (s1 & Hstep & HR1 & Hsrc1 & Hdst1);
    [exact HR|reflexivity|reflexivity|exact Hsrc|exact Hdst|exact Hr|].
  destruct (IH (spre ++ [Live r]) (pre ++ [Live y]) mid
               (S (length spre)) (S (length pre)) s1) as (s' & rs & Hloop & HR' & Hrs & Hs' & Hd').
  - done.
  - rewrite length_app. simpl. lia.
  - rewrite length_app. simpl. lia.
  - lia.
  - by rewrite Hsrc1, (cons_middle (Live r)), app_assoc.
  - by rewrite Hdst1, (cons_middle (Live y)), app_assoc.
  - exists s', (r :: rs). split; [|split; [done|split; [simpl; lia|]]].
    + simpl. erewrite bind_Ok; last first.
      { unfold catch_rethrow. rewrite Hstep. reflexivity. }
      rewrite Hloop. reflexivity.
    + rewrite Hs', Hd', <- !app_assoc. done.
Qed.
End MoveExact.

Section GrowthExact.
Context {T : Type} `{Element T} `{Heap}.

Lemma relocation_exact (this v : Vector T) c (s : Vector T * RawMemory T)
    xs spost mid post :
  relocation_transfers T ->
  frame_shape v c s ->
  buffer_ (data_ this) = (Live <$> xs) ++ spost ->
  view old_buffer s = (Live <$> xs) ++ spost ->
  view new_buffer s = mid ++ post ->
  length mid = length xs ->
  exists s' rs tr,
    (if is_nothrow_move_constructible || negb is_copy_constructible
     then uninitialized_move_n old_buffer new_buffer 0 (length xs) 0
     else zoom new_buffer
            (uninitialized_copy_n (buffer_ (data_ this)) 0 (length xs) 0)) s
    = Ok tt s' tr /\
    relocated (length xs) tr /\ count is_destroy tr = 0 /\
    frame_shape v c s' /\ length rs = length xs /\
    view old_buffer s' = (Live <$> rs) ++ spost /\
    view new_buffer s' = (Live <$> xs) ++ post.
Proof.
  unfold relocation_transfers, relocated.
  intros Htr Hs Hthis Hold Hnew Hlen.
  destruct (is_nothrow_move_constructible || negb is_copy_constructible).
  - unfold uninitialized_move_n.
    edestruct (@uninitialized_move_loop_exact T _ _ old_buffer new_buffer
                 (frame_shape v c)) with (spre := @nil (slot T)) (pre := @nil (slot T))
      as (s' & rs & Hloop & HR & Hrs & Hsrc & Hdst);
      [..|exact Htr|exact Hs|reflexivity|reflexivity|exact Hlen|exact Hold|exact Hnew|].
    + by intros [??] ?.
    + by intros [??] ?.
    + by intros [??] ?.
    + by intros [??] ?.
    + intros. by apply frame_shape_old.
    + intros. by apply frame_shape_new.
    + exists s', rs, (EvMoveCtor <$> xs). split; [exact Hloop|].
      rewrite !count_fmap_false by done.
      unfold moves, copies. rewrite count_fmap_true, count_fmap_false by done.
      done.
  - exists (update new_buffer ((Live <$> xs) ++ post) s), xs, (EvCopyCtor <$> xs).
    split.
    + apply zoom_Ok. unfold uninitialized_copy_n. rewrite Hthis, Hnew.
      by apply (uninitialized_copy_loop_exact [] spost [] mid post xs).
    + rewrite !count_fmap_false by done.
      unfold moves, copies. rewrite count_fmap_true, count_fmap_false by done.
      do 2 (split; [done|]). split; [by apply frame_shape_new|].
      split; [done|]. destruct s as [v0 m0]. simpl in *. done.
Qed.

Lemma bind_get {St B} (k : St -> M T St B) s : bind get k s = k s s.
Proof. unfold bind, get. by rewrite after_nil. Qed.

Lemma with_local_Ok {St L A} (init : L) (body : M T (St * L) A) s a s' l' tr :
  body (s, init) = Ok a (s', l') tr ->
  with_local init body s = Ok a s' tr.
Proof. unfold with_local. by intros ->. Qed.

Lemma RawMemory_ctor_exact {St} n (s : St) :
  n <> 0 -> operator_new n = true ->
  RawMemory_ctor (T:=T) n s
  = Ok {| buffer_ := replicate n Raw; capacity_ := n |} s [EvAllocate n].
Proof.
  intros Hn Hnew. unfold RawMemory_ctor, Allocate, bind.
  apply Nat.eqb_neq in Hn. rewrite Hn. simpl. by rewrite Hnew.
Qed.

(** [Reserve] beyond the capacity gives a buffer of exactly the
    requested capacity that holds the same elements. *)
Lemma Reserve_exact (xs : list T) spare n :
  relocation_transfers T ->
  length xs + spare < n ->
  operator_new n = true ->
  exists tr,
    Reserve n (vector_of xs spare) = Ok tt (vector_of xs (n - length xs)) tr /\
    relocated (length xs) tr /\ count is_destroy tr = length xs.
Proof.
  intros Htr Hn Hnew. unfold Reserve, RawMemory_Capacity.
  rewrite bind_get. simpl.
  replace (n <=? length xs + spare) with false by (symmetry; apply Nat.leb_gt; lia).
  erewrite bind_Ok; last by (apply RawMemory_ctor_exact; [lia|done]).
  edestruct (@relocation_exact (vector_of xs spare) (vector_of xs spare) n
               (vector_of xs spare, {| buffer_ := replicate n Raw; capacity_ := n |})
               xs (replicate spare Raw) (replicate (length xs) Raw)
               (replicate (n - length xs) Raw) Htr)
    as (s' & rs & tr & Hreloc & Hrel & Hdes & Hshape & Hrs & Hold & Hnewb);
    [done|done|done| |by rewrite length_replicate|].
  { simpl. rewrite <- replicate_add. f_equal. lia. }
  destruct s' as [v1 [b1 c1]]. destruct Hshape as (Hsz & _ & Hc).
  simpl in Hsz, Hc, Hold, Hnewb. subst b1 c1.
  eexists. split; [|split].
  - erewrite with_local_Ok; [reflexivity|].
    erewrite bind_Ok; last exact Hreloc.
    erewrite bind_Ok; last first.
    { apply zoom_Ok. simpl. rewrite Hold, <- Hrs.
      apply (destroy_n_exact [] rs). done. }
    unfold modify, Swap_new_data. simpl.
    rewrite Hsz. unfold vector_of.
    replace (length xs + (n - length xs)) with n by lia. reflexivity.
  - reloc_solve.
  - trace_solve.
Qed.

(** [Resize] beyond the capacity reserves [max(new_size, 2 * capacity)]
    first, then value-initialises the new trailing elements. *)
Lemma Resize_realloc_exact (xs : list T) spare k d :
  relocation_transfers T ->
  value_construct = Some d ->
  length xs + spare < k ->
  operator_new (Nat.max k ((length xs + spare) * 2)) = true ->
  exists tr,
    Resize k (vector_of xs spare)
    = Ok tt (vector_of (xs ++ replicate (k - length xs) d)
               (Nat.max k ((length xs + spare) * 2) - k))
         (tr ++ replicate (k - length xs) (EvValueInit d)) /\
    count is_value_init tr = 0.
Proof.
  intros Htr Hd Hk Hnew.
  destruct (Reserve_exact xs spare Htr (n := Nat.max k ((length xs + spare) * 2)))
    as (tr & HRes & Hrel & Hdes); [lia|done|].
  exists tr. split.
  - unfold Resize. rewrite bind_get. unfold Capacity, RawMemory_Capacity. simpl.
    replace (k <? length xs) with false by (symmetry; apply Nat.ltb_ge; lia).
    replace (length xs + spare <? k) with true
      by (symmetry; apply Nat.ltb_lt; lia).
    erewrite bind_Ok; last first.
    { erewrite bind_Ok; last exact HRes.
      rewrite (value_construct_tail_exact _ _ Hd) by lia. reflexivity. }
    unfold modify, set_size, vector_of. simpl. rewrite app_nil_r.
    f_equal. apply vector_ext.
    + do 2 f_equal. lia.
    + rewrite length_app, length_replicate. lia.
    + rewrite length_app, length_replicate. lia.
  - by destruct Hrel as [_ Hv].
Qed.
End GrowthExact.

Section EraseExact.
Context {T : Type} `{Element T}.

Lemma move_assign_at_exact (pre : block T) x y y' r rest s d :
  d = length pre -> s = S (length pre) ->
  move_assign x y = Some (y', r) ->
  move_assign_at s d (pre ++ Live x :: Live y :: rest)
  = Ok tt (pre ++ Live y' :: Live r :: rest) [EvMoveAssign y].
Proof.
  intros -> -> Hmv. unfold move_assign_at.
  erewrite bind_Ok; last first.
  { rewrite (cons_middle (Live x)), app_assoc.
    apply deref_middle. rewrite length_app. simpl. lia. }
  rewrite after_nil.
  erewrite bind_Ok; last first.
  { rewrite <- app_assoc. simpl. by apply deref_middle. }
  rewrite after_nil. rewrite Hmv.
  erewrite bind_Ok; last first.
  { rewrite (cons_middle (Live x)), app_assoc.
    apply set_slot_middle. rewrite length_app. simpl. lia. }
  rewrite after_nil.
  erewrite bind_Ok; last first.
  { rewrite <- app_assoc. simpl. by apply set_slot_middle. }
  done.
Qed.

(** [std::move] of the elements after [x] one slot to the left: they
    overwrite [x], and the last slot keeps what the last move left. *)
Lemma move_loop_exact (pre : block T) x ys post first d_first :
  move_assign_transfers T ->
  d_first = length pre -> first = S (length pre) ->
  exists r,
    move_loop first d_first (length ys) (pre ++ Live x :: (Live <$> ys) ++ post)
    = Ok tt (pre ++ (Live <$> ys) ++ Live r :: post) (EvMoveAssign <$> ys).
Proof.
  intros Htr. revert pre x first d_first.
  induction ys as [|y ys IH]; intros pre x first d_first -> ->.
  { by exists x. }
  destruct (Htr x y) as [r Hr].
  destruct (IH (pre ++ [Live y]) r (S (S (length pre))) (S (length pre)))
    as [r' Hloop].
  { rewrite length_app. simpl. lia. }
  { rewrite length_app. simpl. lia. }
  exists r'. rewrite !fmap_cons. cbn [length move_loop].
  erewrite bind_Ok; last by apply move_assign_at_exact.
  replace (pre ++ Live y :: Live r :: (Live <$> ys) ++ post)
    with ((pre ++ [Live y]) ++ Live r :: (Live <$> ys) ++ post)
    by (by rewrite <- app_assoc).
  rewrite Hloop. simpl. by rewrite <- app_assoc.
Qed.

(** Erasing the element between [pre] and [post]. *)
Lemma Erase_middle_exact (pre : list T) x post spare :
  move_assign_transfers T ->
  exists r,
    Erase (Z.of_nat (length pre)) (vector_of (pre ++ x :: post) spare)
    = Ok (Z.of_nat (length pre)) (vector_of (pre ++ post) (S spare))
         ((EvMoveAssign <$> post) ++ [EvDestroy r]).
Proof.
  intros Htr.
  destruct (move_loop_exact (Live <$> pre) x post (replicate spare Raw)
              (first := length pre + 1) (d_first := length pre) Htr)
    as [r Hloop]; [by rewrite length_fmap|rewrite length_fmap; lia|].
  exists r. unfold Erase, noexcept. rewrite bind_get. simpl.
  rewrite Nat2Z.id.
  replace ((0 <=? Z.of_nat (length pre))%Z
           && (Z.of_nat (length pre) <=? Z.of_nat (length (pre ++ x :: post)))%Z)
    with true; last first.
  { symmetry. apply andb_true_iff. split; apply Z.leb_le; [lia|].
    rewrite length_app. simpl. lia. }
  erewrite bind_Ok; last first.
  { erewrite bind_Ok; last first.
    { apply zoom_this_buffer. simpl. unfold std_move.
      replace (length (pre ++ x :: post) <? length pre + 1) with false; last first.
      { symmetry. apply Nat.ltb_ge. rewrite length_app. simpl. lia. }
      replace (length (pre ++ x :: post) - (length pre + 1)) with (length post);
        last first.
      { rewrite length_app. simpl. lia. }
      rewrite fmap_app, <- app_assoc. simpl. exact Hloop. }
    simpl.
    replace {| data_ := _; size_ := _ |}
      with (vector_of ((pre ++ post) ++ [r]) spare); last first.
    { unfold vector_of. apply vector_ext.
      - rewrite !fmap_app, <- !app_assoc. done.
      - rewrite !length_app. simpl. lia.
      - rewrite !length_app. simpl. lia. }
    rewrite PopBack_exact. reflexivity. }
  simpl. by rewrite app_nil_r.
Qed.
End EraseExact.

(** * The claims *)

Section GrowthClaims.
Context {T : Type} `{Element T} `{Heap}.

Lemma grow_sat (g : growth T) (v : Vector T) :
  grows g v ->
  sat (grow g v)
    (fun _ v' tr => relocated (size_ v) tr)
    (fun e v' tr =>
       size_ v' = size_ v /\ capacity_ (data_ v') = capacity_ (data_ v) /\
       relocating tr /\
       (is_nothrow_move_constructible = true \/ is_copy_constructible = true ->
        v' = v) /\
       (e = bad_alloc -> v' = v)).
Proof.
  destruct g as [n|args|pos args]; unfold grows, grow, Size, Capacity,
    RawMemory_Capacity; intros Hg.
  - eapply sat_mono; [apply Reserve_sat|..]; cbn beta.
    + intros _ v' tr (_ & Hgrow). by destruct (Hgrow Hg) as (_ & _ & ?).
    + intros e v' tr (_ & Hsz & Hcap & Hr & Hsame & Hba).
      do 4 (split; [done|]). intros He. by destruct (Hba He) as (_ & ? & _).
  - wp. eapply sat_mono; [apply EmplaceBack_sat|..]; cbn beta.
    + intros r v' tr (_ & Hgrow & _). wp. rewrite app_nil_r.
      by destruct (Hgrow Hg) as (_ & ?).
    + intros e v' tr (Hsz & Hcap & Hgrow).
      destruct (Hgrow Hg) as (Hr & Hsame & Hba).
      do 4 (split; [done|]). intros He. by destruct (Hba He) as (_ & ? & _).
  - wp. eapply sat_mono; [apply Emplace_sat|..]; cbn beta.
    + intros r v' tr (_ & _ & Hgrow & _). wp. rewrite app_nil_r.
      by destruct (Hgrow Hg) as (_ & ?).
    + intros e v' tr (Hsz & Hcap & Hgrow).
      destruct (Hgrow Hg) as (Hr & Hsame & Hba).
      do 4 (split; [done|]). intros He. by destruct (Hba He) as (_ & ? & _).
Qed.
End GrowthClaims.

(** C1: whenever [Reserve], [EmplaceBack] or [Emplace] relocates the
    elements of a vector into a new, larger buffer, it move-constructs
    every one of them and copy-constructs none if the element type's move
    constructor is [noexcept] or the type is not copy-constructible; in
    every other case it copy-constructs every one of them and
    move-constructs none.  When the operation throws on the way, the
    relocations it did are of the same one kind. *)
Theorem relocation_moves_iff_nothrow_or_not_copyable
    {T : Type} `{Element T} `{Heap} (g : growth T) (v : Vector T) :
  grows g v ->
  (forall r v' tr,
     grow g v = Ok r v' tr ->
     if is_nothrow_move_constructible || negb is_copy_constructible
     then moves tr = Size v /\ copies tr = 0
     else copies tr = Size v /\ moves tr = 0) /\
  (forall e v' tr,
     grow g v = Throw e v' tr ->
     if is_nothrow_move_constructible || negb is_copy_constructible
     then copies tr = 0
     else moves tr = 0).
Proof.
  intros Hg. split.
  - intros r v' tr Hrun.
    pose proof (grow_sat g v Hg) as Hsat. rewrite Hrun in Hsat.
    exact (proj1 Hsat).
  - intros e v' tr Hrun.
    pose proof (grow_sat g v Hg) as Hsat. rewrite Hrun in Hsat.
    by destruct Hsat as (_ & _ & ? & _).
Qed.

Lemma relocation_moves_iff_nothrow_or_not_copyable_witness :
  (moves (trace_of (@grow Z int_element unlimited_heap (by_Reserve 4)
                      (vector_of [1; 2; 3]%Z 0))) = 3 /\
   copies (trace_of (@grow Z int_element unlimited_heap (by_Reserve 4)
                       (vector_of [1; 2; 3]%Z 0))) = 0) /\
  (copies (trace_of (@grow guarded guarded_element unlimited_heap
                       (by_EmplaceBack (Some (Guarded 3)))
                       (vector_of [Guarded 1; Guarded 2] 0))) = 2 /\
   moves (trace_of (@grow guarded guarded_element unlimited_heap
                      (by_EmplaceBack (Some (Guarded 3)))
                      (vector_of [Guarded 1; Guarded 2] 0))) = 0) /\
  moves (trace_of (@grow guarded guarded_element unlimited_heap (by_Reserve 4)
                     (vector_of [Guarded 1; Guarded 13] 0))) = 0.
Proof.
  split; [|split].
  - refine (proj1 (@relocation_moves_iff_nothrow_or_not_copyable
                     Z int_element unlimited_heap (by_Reserve 4)
                     (vector_of [1; 2; 3]%Z 0) _)
              tt (vector_of [1; 2; 3]%Z 1) _ _).
    + vm_compute. lia.
    + reflexivity.
  - refine (proj1 (@relocation_moves_iff_nothrow_or_not_copyable
                     guarded guarded_element unlimited_heap
                     (by_EmplaceBack (Some (Guarded 3)))
                     (vector_of [Guarded 1; Guarded 2] 0) _)
              tt (vector_of [Guarded 1; Guarded 2; Guarded 3] 1) _ _).
    + reflexivity.
    + reflexivity.
  - refine (proj2 (@relocation_moves_iff_nothrow_or_not_copyable
                     guarded guarded_element unlimited_heap (by_Reserve 4)
                     (vector_of [Guarded 1; Guarded 13] 0) _)
              element_exn (vector_of [Guarded 1; Guarded 13] 0) _ _).
    + vm_compute. lia.
    + reflexivity.
Defined.




(** C3, as the claim states it, fails for [Reserve]: reserving 5 slots
    for a vector of capacity 4 allocates 5 slots, not 8. *)
Lemma Reserve_allocates_the_requested_capacity :
  exists v' tr,
    @Reserve Z int_element unlimited_heap 5 (vector_of [1; 2; 3; 4]%Z 0)
    = Ok tt v' tr /\
    Capacity v' = 5 /\
    claimed_capacity 5 (Capacity (vector_of [1; 2; 3; 4]%Z 0)) = 8.
Proof. eexists _, _. split; [reflexivity|]. done. Qed.

(** C3, amended: [Reserve] beyond the capacity allocates exactly the
    requested capacity.  [Resize] beyond the capacity, and [EmplaceBack]
    and [Emplace] on a full buffer (which need length + 1 slots),
    allocate the larger of the needed capacity and twice the current
    one, at least 1. *)
Theorem new_capacity_of_growth {T : Type} `{Element T} `{Heap} (v : Vector T) :
  (forall n v' tr,
     Capacity v < n -> Reserve n v = Ok tt v' tr -> Capacity v' = n) /\
  (forall n v' tr,
     Size v <= Capacity v -> Capacity v < n -> Resize n v = Ok tt v' tr ->
     Capacity v' = claimed_capacity n (Capacity v)) /\
  (forall args r v' tr,
     Size v = Capacity v -> EmplaceBack args v = Ok r v' tr ->
     Capacity v' = claimed_capacity (Size v + 1) (Capacity v)) /\
  (forall pos args r v' tr,
     Size v = Capacity v -> Emplace pos args v = Ok r v' tr ->
     Capacity v' = claimed_capacity (Size v + 1) (Capacity v)).
Proof.
  unfold Size, Capacity, RawMemory_Capacity, claimed_capacity.
  split; [|split; [|split]].
  - intros n v' tr Hn Hrun.
    pose proof (Reserve_sat v n) as Hsat. rewrite Hrun in Hsat.
    destruct Hsat as [_ Hgrow]. by destruct (Hgrow Hn) as (_ & ? & _).
  - intros n v' tr Hinv Hn Hrun.
    pose proof (Resize_sat v n) as Hsat. rewrite Hrun in Hsat.
    destruct Hsat as (_ & _ & Hgrow). rewrite Hgrow by lia.
    destruct (capacity_ (data_ v)); simpl; lia.
  - intros args r v' tr Hfull Hrun.
    pose proof (EmplaceBack_sat v args) as Hsat. rewrite Hrun in Hsat.
    destruct Hsat as (_ & Hgrow & _). destruct (Hgrow Hfull) as [-> _].
    rewrite <- Hfull. destruct (size_ v); simpl; lia.
  - intros pos args r v' tr Hfull Hrun.
    pose proof (Emplace_sat v pos args) as Hsat. rewrite Hrun in Hsat.
    destruct Hsat as (_ & _ & Hgrow & _). destruct (Hgrow Hfull) as [-> _].
    rewrite <- Hfull. destruct (size_ v); simpl; lia.
Qed.

Lemma new_capacity_of_growth_witness :
  Capacity (vector_of [1; 2; 3; 4]%Z 1) = 5 /\
  Capacity (vector_of [1; 2; 3; 4; 0; 0; 0; 0; 0]%Z 0)
  = claimed_capacity 9 (Capacity (vector_of [1; 2; 3; 4]%Z 0)) /\
  Capacity (vector_of [1; 2; 3; 4; 5]%Z 3)
  = claimed_capacity (Size (vector_of [1; 2; 3; 4]%Z 0) + 1)
      (Capacity (vector_of [1; 2; 3; 4]%Z 0)) /\
  Capacity (vector_of [9]%Z 0)
  = claimed_capacity (Size (vector_of (T:=Z) [] 0) + 1)
      (Capacity (vector_of (T:=Z) [] 0)).
Proof.
  split; [|split; [|split]].
  - refine (proj1 (@new_capacity_of_growth Z int_element unlimited_heap
                     (vector_of [1; 2; 3; 4]%Z 0))
              5 (vector_of [1; 2; 3; 4]%Z 1) _ _ _).
    + vm_compute. lia.
    + reflexivity.
  - refine (proj1 (proj2 (@new_capacity_of_growth Z int_element unlimited_heap
                            (vector_of [1; 2; 3; 4]%Z 0)))
              9 (vector_of [1; 2; 3; 4; 0; 0; 0; 0; 0]%Z 0) _ _ _ _).
    + vm_compute. lia.
    + vm_compute. lia.
    + reflexivity.
  - refine (proj1 (proj2 (proj2
      (@new_capacity_of_growth Z int_element unlimited_heap
         (vector_of [1; 2; 3; 4]%Z 0))))
      (Some 5%Z) 4 (vector_of [1; 2; 3; 4; 5]%Z 3) _ _ _).
    + reflexivity.
    + reflexivity.
  - refine (proj2 (proj2 (proj2
      (@new_capacity_of_growth Z int_element unlimited_heap
         (vector_of [] 0))))
      0%Z (Some 9%Z) 0%Z (vector_of [9]%Z 0) _ _ _).
    + reflexivity.
    + reflexivity.
Defined.

(** C4 fails on the code when the buffer has room: on a vector of
    [std::unique_ptr<int>] holding pointers to 1, 2 and 3 in a buffer of
    capacity 4, inserting a pointer to 9 at [end()] leaves the last
    element null, while appending it keeps all three; and inserting at
    [begin()] loses the last element too.  With a reallocation (capacity
    3) the insertion at [begin()] gives the sequence of the claim. *)
Theorem Insert_without_reallocation_loses_last_element :
  @Insert_move unique_ptr unique_ptr_element unlimited_heap 3 (Some 9%Z)
    (vector_of [Some 1; Some 2; Some 3]%Z 1)
  = Ok 3%Z (vector_of [Some 1; Some 2; None; Some 9]%Z 0)
      [EvMoveCtor (Some 3%Z); EvDestroy (Some 3%Z); EvEmplace (Some 9%Z)] /\
  @PushBack_move unique_ptr unique_ptr_element unlimited_heap (Some 9%Z)
    (vector_of [Some 1; Some 2; Some 3]%Z 1)
  = Ok tt (vector_of [Some 1; Some 2; Some 3; Some 9]%Z 0)
      [EvEmplace (Some 9%Z)] /\
  @Insert_move unique_ptr unique_ptr_element unlimited_heap 0 (Some 9%Z)
    (vector_of [Some 1; Some 2; Some 3]%Z 1)
  = Ok 0%Z (vector_of [Some 9; Some 1; Some 2; None]%Z 0)
      [EvMoveCtor (Some 3%Z); EvMoveAssign None; EvMoveAssign (Some 2%Z);
       EvMoveAssign (Some 1%Z); EvDestroy None; EvEmplace (Some 9%Z)] /\
  @Insert_move unique_ptr unique_ptr_element unlimited_heap 0 (Some 9%Z)
    (vector_of [Some 1; Some 2; Some 3]%Z 0)
  = Ok 0%Z (vector_of [Some 9; Some 1; Some 2; Some 3]%Z 2)
      [EvAllocate 6; EvEmplace (Some 9%Z); EvMoveCtor (Some 1%Z);
       EvMoveCtor (Some 2%Z); EvMoveCtor (Some 3%Z);
       EvDestroy None; EvDestroy None; EvDestroy None].
Proof. repeat split. Qed.

Section InterfaceClaims.
Context {T : Type} `{Element T} `{Heap}.

Lemma object_exact id (st : objects T) v :
  st !! id = Some v -> object id st = Ok v st [].
Proof. unfold object. by intros ->. Qed.

Lemma call_modify_exact id f (st : objects T) v :
  st !! id = Some v ->
  call id (modify f) st = Ok tt (<[id := f v]> st) [].
Proof.
  intros Hv. unfold call.
  erewrite bind_Ok; last by apply object_exact.
  unfold zoom, modify. simpl. by rewrite Hv.
Qed.

(** [Swap] exchanges the buffers and the lengths of two vectors. *)
Lemma Swap_exact this other (st : objects T) a b :
  st !! this = Some a -> st !! other = Some b ->
  Swap this other st = Ok tt (<[other := a]> (<[this := b]> st)) [].
Proof.
  intros Ha Hb.
  pose proof (Swap_sat this other st) as Hsat.
  assert (exists st', Swap this other st = Ok tt st' []) as [st' Hrun].
  { assert (this < length st) as Hthis by by eapply lookup_lt_Some.
    assert (other < length st) as Hother by by eapply lookup_lt_Some.
    unfold Swap, noexcept.
    erewrite bind_Ok; last by apply object_exact.
    erewrite bind_Ok; last by apply object_exact.
    erewrite bind_Ok; last by apply call_modify_exact.
    rewrite !after_nil.
    repeat match goal with
    | |- context [bind (call ?id _) _ ?s] =>
        let v := fresh "v" in
        let Hv := fresh "Hv" in
        destruct (lookup_lt_is_Some_2 s id) as [v Hv];
          [by rewrite !length_insert|];
        erewrite bind_Ok; last (by apply call_modify_exact);
        rewrite !after_nil
    end.
    match goal with
    | |- context [call ?id _ ?s] =>
        destruct (lookup_lt_is_Some_2 s id) as [v3 Hv3];
          [by rewrite !length_insert|]
    end.
    erewrite call_modify_exact by done. eauto. }
  rewrite Hrun in Hsat. destruct Hsat as (a' & b' & Ha' & Hb' & -> & _).
  rewrite Hrun. congruence.
Qed.
End InterfaceClaims.

(** C5: the invariant [0 <= length <= capacity] holds for every vector
    of the store after any operation of the public interface that
    returns, if it held before; so it holds after any program, which
    starts with no vectors and creates them with the constructors. *)
Theorem length_within_capacity_after_operations {T : Type} `{Element T} `{Heap} :
  (forall (o : op) (st st' : objects T) tr,
     Forall within_capacity st ->
     exec o st = Ok tt st' tr ->
     Forall within_capacity st') /\
  (forall (prog : list op) (st' : objects T) tr,
     run prog [] = Ok tt st' tr ->
     Forall within_capacity st').
Proof.
  split.
  - intros o st st' tr Hst Hrun.
    pose proof (exec_keeps o Hst) as Hsat. by rewrite Hrun in Hsat.
  - intros prog st' tr Hrun.
    pose proof (run_keeps prog (st := []) (Forall_nil_2 _)) as Hsat.
    by rewrite Hrun in Hsat.
Qed.

Lemma length_within_capacity_after_operations_witness :
  Forall (@within_capacity Z) [vector_of [1; 2; 3]%Z 1] /\
  Forall (@within_capacity Z)
    [vector_of [1; 2]%Z 2; vector_of [1; 5]%Z 0].
Proof.
  split.
  - refine (proj1 (@length_within_capacity_after_operations Z int_element
                     unlimited_heap)
              (op_PushBack 0 3%Z) [vector_of [1; 2]%Z 0] _ _ _ _).
    + repeat constructor.
    + reflexivity.
  - refine (proj2 (@length_within_capacity_after_operations Z int_element
                     unlimited_heap)
              [op_Vector_default; op_Reserve 0 4; op_PushBack 0 1%Z;
               op_Vector_copy 0; op_PushBack 1 5%Z; op_PushBack 0 2%Z]
              _ _ _).
    reflexivity.
Defined.

(** C8: move construction gives the new vector the buffer and the
    length of the source, and leaves the source empty, with length 0 and
    capacity 0; move assignment gives the destination the buffer and the
    length of the source.  Neither constructs, copies or destroys an
    element. *)
Theorem move_transfers_buffer_and_length {T : Type} `{Element T} `{Heap}
    (st : objects T) :
  (forall other v,
     st !! other = Some v ->
     exists st',
       Vector_move other st = Ok (length st) st' [] /\
       st' !! length st = Some v /\
       st' !! other = Some Vector_default /\
       Size (@Vector_default T) = 0 /\ Capacity (@Vector_default T) = 0) /\
  (forall this rhs t r,
     st !! this = Some t -> st !! rhs = Some r ->
     exists st',
       assign_move this rhs st = Ok tt st' [] /\
       st' !! this = Some r).
Proof.
  split.
  - intros other v Hv.
    assert (other < length st) as Hother by by eapply lookup_lt_Some.
    eexists. split; [|split; [|split; [|done]]].
    + unfold Vector_move, noexcept.
      erewrite bind_Ok; last reflexivity.
      erewrite bind_Ok; last first.
      { apply Swap_exact with (a := Vector_default) (b := v).
        - by rewrite list_lookup_middle.
        - by rewrite lookup_app_l. }
      reflexivity.
    + rewrite list_lookup_insert_ne by lia.
      rewrite list_lookup_insert_eq; [done|]. rewrite length_app. simpl. lia.
    + rewrite list_lookup_insert_eq; [done|].
      rewrite length_insert, length_app. simpl. lia.
  - intros this rhs t r Ht Hr. unfold assign_move, noexcept.
    destruct (decide (this = rhs)) as [->|Hne].
    + rewrite Nat.eqb_refl. simpl. exists st. split; [done|congruence].
    + apply Nat.eqb_neq in Hne as Hneb. rewrite Hneb. simpl.
      rewrite (Swap_exact _ _ _ Ht Hr). eexists. split; [done|].
      rewrite list_lookup_insert_ne by done.
      rewrite list_lookup_insert_eq; [done|]. by eapply lookup_lt_Some.
Qed.

Lemma move_transfers_buffer_and_length_witness :
  (exists st',
     @Vector_move Z 0 [vector_of [1; 2; 3]%Z 1] = Ok 1 st' [] /\
     st' !! 1 = Some (vector_of [1; 2; 3]%Z 1) /\
     st' !! 0 = Some Vector_default /\
     Size (@Vector_default Z) = 0 /\ Capacity (@Vector_default Z) = 0) /\
  (exists st',
     @assign_move Z 0 1 [vector_of [7]%Z 0; vector_of [1; 2; 3]%Z 1]
     = Ok tt st' [] /\
     st' !! 0 = Some (vector_of [1; 2; 3]%Z 1)).
Proof.
  split.
  - exact (proj1 (@move_transfers_buffer_and_length Z int_element unlimited_heap
                    [vector_of [1; 2; 3]%Z 1])
             0 (vector_of [1; 2; 3]%Z 1) eq_refl).
  - exact (proj2 (@move_transfers_buffer_and_length Z int_element unlimited_heap
                    [vector_of [7]%Z 0; vector_of [1; 2; 3]%Z 1])
             0 1 (vector_of [7]%Z 0) (vector_of [1; 2; 3]%Z 1) eq_refl eq_refl).
Defined.

(** C10: assigning a vector to itself, by copy or by move, leaves the
    store as it is: the length, the capacity and the elements of the
    vector are unchanged, and no element is constructed, assigned or
    destroyed. *)
Theorem self_assignment_is_identity {T : Type} `{Element T} `{Heap}
    (this : nat) (st : objects T) :
  assign_copy this this st = Ok tt st [] /\
  assign_move this this st = Ok tt st [].
Proof.
  unfold assign_copy, assign_move, noexcept. by rewrite Nat.eqb_refl.
Qed.

(** C9, as the claim states it, fails for [Erase]: a position past
    [end()] is ignored, the vector stays as it is and the call returns. *)
Lemma Erase_out_of_bounds_is_silent :
  Erase 4 (vector_of [1; 2; 3]%Z 1) = Ok 4%Z (vector_of [1; 2; 3]%Z 1) [] /\
  (Z.of_nat (Size (vector_of [1; 2; 3]%Z 1)) < 4)%Z.
Proof. split; [reflexivity|]. vm_compute. done. Qed.

(** C9, amended: an index that is not below the length given to
    [operator[]], and a position before [begin()] or past [end()] given
    to [Emplace] (and so to [Insert]), fail an [assert].  [Erase] instead
    ignores a position before [begin()] or past [end()]: it returns and
    leaves the vector as it is. *)
Theorem out_of_range_arguments {T : Type} `{Element T} `{Heap} (v : Vector T) :
  (forall index,
     Size v <= index -> subscript index v = Fatal assertion_failed) /\
  (forall pos args,
     (pos < 0 \/ Z.of_nat (Size v) < pos)%Z ->
     Emplace pos args v = Fatal assertion_failed) /\
  (forall pos value,
     (pos < 0 \/ Z.of_nat (Size v) < pos)%Z ->
     Insert pos value v = Fatal assertion_failed /\
     Insert_move pos value v = Fatal assertion_failed) /\
  (forall pos,
     (pos < 0 \/ Z.of_nat (Size v) < pos)%Z ->
     Erase pos v = Ok pos v []).
Proof.
  assert (forall pos args,
            (pos < 0 \/ Z.of_nat (Size v) < pos)%Z ->
            Emplace pos args v = Fatal assertion_failed) as HEmplace.
  { intros pos args Hpos. unfold Emplace, Size in *. rewrite bind_get.
    replace ((0 <=? pos)%Z && (pos <=? Z.of_nat (size_ v))%Z) with false; [done|].
    symmetry. apply andb_false_iff.
    destruct Hpos; [left; apply Z.leb_gt|right; apply Z.leb_gt]; lia. }
  split; [|split; [done|split]].
  - intros index Hindex. unfold subscript, Size in *. rewrite bind_get.
    replace (index <? size_ v) with false; [done|].
    symmetry. apply Nat.ltb_ge. lia.
  - intros pos value Hpos. unfold Insert, Insert_move. by rewrite !HEmplace.
  - intros pos Hpos. unfold Erase, noexcept, Size in *. rewrite bind_get.
    replace ((0 <=? pos)%Z && (pos <=? Z.of_nat (size_ v))%Z) with false; [done|].
    symmetry. apply andb_false_iff.
    destruct Hpos; [left; apply Z.leb_gt|right; apply Z.leb_gt]; lia.
Qed.

Lemma out_of_range_arguments_witness :
  subscript 3 (vector_of [1; 2; 3]%Z 1) = Fatal assertion_failed /\
  @Emplace Z int_element unlimited_heap 4 (Some 9%Z) (vector_of [1; 2; 3]%Z 1)
  = Fatal assertion_failed /\
  (@Insert Z int_element unlimited_heap (-1) 9%Z (vector_of [1; 2; 3]%Z 1)
   = Fatal assertion_failed /\
   @Insert_move Z int_element unlimited_heap (-1) 9%Z (vector_of [1; 2; 3]%Z 1)
   = Fatal assertion_failed) /\
  Erase (-1) (vector_of [1; 2; 3]%Z 1) = Ok (-1)%Z (vector_of [1; 2; 3]%Z 1) [].
Proof.
  split; [|split; [|split]].
  - refine (proj1 (@out_of_range_arguments Z int_element unlimited_heap
                     (vector_of [1; 2; 3]%Z 1)) 3 _).
    vm_compute. lia.
  - refine (proj1 (proj2 (@out_of_range_arguments Z int_element unlimited_heap
                            (vector_of [1; 2; 3]%Z 1))) 4%Z (Some 9%Z) _).
    right. vm_compute. reflexivity.
  - refine (proj1 (proj2 (proj2 (@out_of_range_arguments Z int_element
                                   unlimited_heap (vector_of [1; 2; 3]%Z 1))))
              (-1)%Z 9%Z _).
    left. reflexivity.
  - refine (proj2 (proj2 (proj2 (@out_of_range_arguments Z int_element
                                   unlimited_heap (vector_of [1; 2; 3]%Z 1))))
              (-1)%Z _).
    left. reflexivity.
Defined.

(** Erasing the last element, whatever the element type: nothing is
    moved. *)
Lemma Erase_last_exact {T : Type} `{Element T} (xs : list T) x spare :
  Erase (Z.of_nat (length xs)) (vector_of (xs ++ [x]) spare)
  = Ok (Z.of_nat (length xs)) (vector_of xs (S spare)) [EvDestroy x].
Proof.
  unfold Erase, noexcept. rewrite bind_get. simpl.
  rewrite Nat2Z.id.
  replace ((0 <=? Z.of_nat (length xs))%Z
           && (Z.of_nat (length xs) <=? Z.of_nat (length (xs ++ [x])))%Z)
    with true; last first.
  { symmetry. apply andb_true_iff. split; apply Z.leb_le; [lia|].
    rewrite length_app. simpl. lia. }
  erewrite bind_Ok; last first.
  { erewrite bind_Ok; last first.
    { apply zoom_this_buffer. simpl. unfold std_move.
      replace (length (xs ++ [x]) <? length xs + 1) with false; last first.
      { symmetry. apply Nat.ltb_ge. rewrite length_app. simpl. lia. }
      replace (length (xs ++ [x]) - (length xs + 1)) with 0; last first.
      { rewrite length_app. simpl. lia. }
      reflexivity. }
    simpl.
    replace {| data_ := _; size_ := _ |} with (vector_of (xs ++ [x]) spare) by done.
    rewrite PopBack_exact. reflexivity. }
  done.
Qed.

(** C6: erasing at a valid position [i] of a vector of length [n > 0]
    gives the vector of length [n - 1] that holds the other elements in
    their order (for an element type whose move assignment transfers the
    value); erasing at the last position [n - 1] does what [PopBack]
    does; [PopBack] on a vector that is not empty destroys the last
    element and decrements the length; on an empty vector it does
    nothing. *)
Theorem Erase_and_PopBack {T : Type} `{Element T} (xs : list T) (spare : nat) :
  (forall i,
     move_assign_transfers T -> i < length xs ->
     exists tr,
       Erase (Z.of_nat i) (vector_of xs spare)
       = Ok (Z.of_nat i) (vector_of (delete i xs) (S spare)) tr /\
       Size (vector_of (delete i xs) (S spare)) = length xs - 1 /\
       count is_destroy tr = 1) /\
  (forall x,
     Erase (Z.of_nat (length xs)) (vector_of (xs ++ [x]) spare)
     = Ok (Z.of_nat (length xs)) (vector_of xs (S spare)) [EvDestroy x] /\
     PopBack (vector_of (xs ++ [x]) spare)
     = Ok tt (vector_of xs (S spare)) [EvDestroy x]) /\
  PopBack (vector_of (T:=T) [] spare) = Ok tt (vector_of [] spare) [].
Proof.
  split; [|split; [|done]].
  - intros i Htr Hi.
    destruct (lookup_lt_is_Some_2 xs i Hi) as [x Hx].
    destruct (Erase_middle_exact (take i xs) x (drop (S i) xs) spare Htr) as [r Hr].
    rewrite take_drop_middle in Hr by done.
    rewrite length_take_le in Hr by lia.
    rewrite <- delete_take_drop in Hr.
    eexists. split; [exact Hr|]. split.
    + unfold Size, vector_of. simpl. rewrite length_delete by eauto. done.
    + trace_solve.
  - intros x. split; [apply Erase_last_exact|apply PopBack_exact].
Qed.

Lemma Erase_and_PopBack_witness :
  exists tr,
    Erase 1 (vector_of [1; 2; 3]%Z 0) = Ok 1%Z (vector_of [1; 3]%Z 1) tr /\
    Size (vector_of [1; 3]%Z 1) = 2 /\
    count is_destroy tr = 1.
Proof.
  refine (proj1 (@Erase_and_PopBack Z int_element [1; 2; 3]%Z 0) 1 _ _).
  - intros d s. exists s. reflexivity.
  - vm_compute. lia.
Defined.

(** C7: on a vector of length [n], [Resize(k)] with [k < n] destroys
    exactly the [n - k] trailing elements and keeps the first [k];
    [Resize(n)] does nothing; [Resize(k)] with [k > n] value-initialises
    exactly [k - n] new trailing elements and keeps the first [n], in
    place when the capacity suffices and after growing the buffer
    otherwise (given that the elements of the new buffer fit, that the
    allocation succeeds, that [T()] does not throw and that relocation
    transfers the values). *)
Theorem Resize_destroys_or_value_constructs {T : Type} `{Element T} `{Heap}
    `{Sized T} (xs : list T) (spare k : nat) :
  (k < length xs ->
   Resize k (vector_of xs spare)
   = Ok tt (vector_of (take k xs) (spare + (length xs - k)))
        (EvDestroy <$> drop k xs) /\
   length (drop k xs) = length xs - k) /\
  Resize (length xs) (vector_of xs spare) = Ok tt (vector_of xs spare) [] /\
  (forall d,
     value_construct = Some d ->
     length xs < k -> k <= length xs + spare ->
     Resize k (vector_of xs spare)
     = Ok tt (vector_of (xs ++ replicate (k - length xs) d)
                (length xs + spare - k))
          (replicate (k - length xs) (EvValueInit d))) /\
  (forall d,
     value_construct = Some d ->
     relocation_transfers T ->
     length xs + spare < k ->
     fits T (Nat.max k ((length xs + spare) * 2)) = true ->
     operator_new (Nat.max k ((length xs + spare) * 2)) = true ->
     exists tr,
       Resize k (vector_of xs spare)
       = Ok tt (vector_of (xs ++ replicate (k - length xs) d)
                  (Nat.max k ((length xs + spare) * 2) - k))
            (tr ++ replicate (k - length xs) (EvValueInit d)) /\
       count is_value_init tr = 0).
Proof.
  split; [|split; [|split]].
  - intros Hk. split; [by apply Resize_shrink_exact|]. apply length_drop.
  - apply Resize_same_exact.
  - intros d Hd Hlt Hle. apply Resize_grow_exact; [done|lia].
  - intros d Hd Htr Hk _ Hnew. by apply Resize_realloc_exact.
Qed.

Lemma Resize_destroys_or_value_constructs_witness :
  (@Resize Z int_element unlimited_heap 1 (vector_of [1; 2; 3]%Z 0)
   = Ok tt (vector_of [1]%Z 2) [EvDestroy 2%Z; EvDestroy 3%Z] /\
   length (drop 1 [1; 2; 3]%Z) = 2) /\
  @Resize Z int_element unlimited_heap 4 (vector_of [1; 2]%Z 3)
  = Ok tt (vector_of [1; 2; 0; 0]%Z 1) [EvValueInit 0%Z; EvValueInit 0%Z] /\
  (exists tr,
     @Resize Z int_element unlimited_heap 3 (vector_of [1; 2]%Z 0)
     = Ok tt (vector_of [1; 2; 0]%Z 1) (tr ++ [EvValueInit 0%Z]) /\
     count is_value_init tr = 0).
Proof.
  split; [|split].
  - refine (proj1 (@Resize_destroys_or_value_constructs Z int_element
                     unlimited_heap int_sized [1; 2; 3]%Z 0 1) _).
    vm_compute. lia.
  - refine (proj1 (proj2 (proj2 (@Resize_destroys_or_value_constructs Z
                                   int_element unlimited_heap int_sized
                                   [1; 2]%Z 3 4)))
              0%Z eq_refl _ _).
    + vm_compute. lia.
    + vm_compute. lia.
  - refine (proj2 (proj2 (proj2 (@Resize_destroys_or_value_constructs Z
                                   int_element unlimited_heap int_sized
                                   [1; 2]%Z 0 3)))
              0%Z eq_refl _ _ eq_refl eq_refl).
    + intros x. exists x. reflexivity.
    + vm_compute. lia.
Defined.

(** * Further properties *)

Section Throws.
Context {T : Type}.

Lemma bind_Throw {St A B} (m : M T St A) (k : A -> M T St B) s e s' tr :
  m s = Throw e s' tr -> bind m k s = Throw e s' tr.
Proof. unfold bind. by intros ->. Qed.

Lemma zoom_Throw {St B A} (l : lens St B) (m : M T B A) s e b tr :
  m (view l s) = Throw e b tr -> zoom l m s = Throw e (update l b s) tr.
Proof. unfold zoom. by intros ->. Qed.

Lemma with_local_Throw {St L A} (init : L) (body : M T (St * L) A) s e s' l' tr :
  body (s, init) = Throw e (s', l') tr ->
  with_local init body s = Throw e s' tr.
Proof. unfold with_local. by intros ->. Qed.

End Throws.

Section Append.
Context {T : Type} `{Element T} `{Heap}.

Lemma EmplaceBack_in_place_exact (xs : list T) x spare :
  EmplaceBack (Some x) (vector_of xs (S spare))
  = Ok (length xs) (vector_of (xs ++ [x]) spare) [EvEmplace x].
Proof.
  unfold EmplaceBack. rewrite bind_get. unfold Capacity, RawMemory_Capacity.
  simpl.
  replace (length xs =? length xs + S spare) with false
    by (symmetry; apply Nat.eqb_neq; lia).
  unfold RawMemory_plus, assert. simpl.
  replace (length xs <=? length xs + S spare) with true
    by (symmetry; apply Nat.leb_le; lia).
  erewrite bind_Ok; last first.
  { erewrite bind_Ok; last reflexivity.
    erewrite bind_Ok; last first.
    { apply zoom_this_buffer. simpl. apply construct_at_middle.
      by rewrite length_fmap. }
    reflexivity. }
  simpl. unfold incr_size, set_size, vector_of. simpl.
  f_equal. apply vector_ext.
  - rewrite fmap_app, <- app_assoc. done.
  - rewrite length_app. simpl. lia.
  - rewrite length_app. simpl. lia.
Qed.

Lemma EmplaceBack_growth_exact (xs : list T) x :
  relocation_transfers T ->
  operator_new (if length xs =? 0 then 1 else length xs * 2) = true ->
  exists tr,
    EmplaceBack (Some x) (vector_of xs 0)
    = Ok (length xs)
        (vector_of (xs ++ [x])
           ((if length xs =? 0 then 1 else length xs * 2) - length xs - 1)) tr /\
    relocated (length xs) tr.
Proof.
  intros Htr Hnew.
  set (N := if length xs =? 0 then 1 else length xs * 2) in *.
  assert (length xs < N) as HN by (subst N; destruct (length xs); simpl; lia).
  edestruct (@relocation_exact T _ (vector_of xs 0) (vector_of xs 0) N
               (vector_of xs 0,
                {| buffer_ := replicate (length xs) Raw
                              ++ Live x :: replicate (N - length xs - 1) Raw;
                   capacity_ := N |})
               xs [] (replicate (length xs) Raw)
               (Live x :: replicate (N - length xs - 1) Raw) Htr)
    as (s' & rs & tr & Hreloc & Hrel & Hdes & Hshape & Hrs & Hold & Hnewb);
    [done|by simpl; rewrite app_nil_r|by simpl; rewrite app_nil_r|done
    |by rewrite length_replicate|].
  destruct s' as [v1 [b1 c1]]. destruct Hshape as (Hsz & _ & Hc).
  simpl in Hsz, Hc, Hold, Hnewb. subst b1 c1.
  eexists. split.
  - unfold EmplaceBack. rewrite bind_get. unfold Capacity, RawMemory_Capacity.
    simpl. rewrite Nat.add_0_r, Nat.eqb_refl. fold N.
    erewrite bind_Ok; last first.
    { erewrite bind_Ok; last by (apply RawMemory_ctor_exact; [lia|done]).
      erewrite with_local_Ok; [reflexivity|].
      unfold RawMemory_plus, assert. simpl.
      replace (length xs <=? N) with true by (symmetry; apply Nat.leb_le; lia).
      erewrite bind_Ok; last reflexivity.
      erewrite bind_Ok; last first.
      { apply zoom_Ok. simpl.
        replace N with (length xs + S (N - length xs - 1)) at 1 by lia.
        rewrite replicate_add. simpl.
        apply construct_at_middle. by rewrite length_replicate. }
      erewrite bind_Ok; last exact Hreloc.
      erewrite bind_Ok; last first.
      { apply zoom_Ok. simpl. rewrite Hold, <- Hrs.
        apply (destroy_n_exact [] rs). done. }
      reflexivity. }
    simpl. unfold incr_size, set_size, vector_of. simpl. rewrite Hsz.
    f_equal. apply vector_ext.
    + rewrite fmap_app, <- app_assoc. done.
    + rewrite length_app. simpl. lia.
    + rewrite length_app. simpl. lia.
  - reloc_solve.
Qed.
End Append.

Section Insertion.
Context {T : Type} `{Element T} `{Heap}.

(** The relocation step of [EmplaceWithReallocate]: the elements before
    the insertion point go to the same offsets of the new buffer, the
    others one slot further. *)
Lemma relocation_around_exact (this v : Vector T) c (s : Vector T * RawMemory T)
    xs1 xs2 (sl : slot T) mid1 mid2 post shift :
  relocation_transfers T ->
  frame_shape v c s ->
  shift = length xs1 ->
  size_ this = length xs1 + length xs2 ->
  buffer_ (data_ this) = (Live <$> xs1) ++ (Live <$> xs2) ->
  view old_buffer s = (Live <$> xs1) ++ (Live <$> xs2) ->
  view new_buffer s = mid1 ++ sl :: mid2 ++ post ->
  length mid1 = length xs1 -> length mid2 = length xs2 ->
  exists s' rs tr,
    (if is_nothrow_move_constructible || negb is_copy_constructible
     then
       uninitialized_move_n old_buffer new_buffer 0 shift 0 ;;
       uninitialized_move_n old_buffer new_buffer
         shift (size_ this - shift) (shift + 1)
     else
       catch_rethrow
         (zoom new_buffer
            (uninitialized_copy_n (buffer_ (data_ this)) 0 shift 0) ;;
          zoom new_buffer
            (uninitialized_copy_n (buffer_ (data_ this))
               shift (size_ this - shift) (shift + 1)))
         (zoom new_buffer (destroy_n shift 1))) s
    = Ok tt s' tr /\
    relocated (length xs1 + length xs2) tr /\ count is_destroy tr = 0 /\
    frame_shape v c s' /\ length rs = length xs1 + length xs2 /\
    view old_buffer s' = Live <$> rs /\
    view new_buffer s' = (Live <$> xs1) ++ sl :: (Live <$> xs2) ++ post.
Proof.
  unfold relocation_transfers, relocated.
  intros Htr Hs -> Hsize Hthis Hold Hnew Hlen1 Hlen2.
  replace (size_ this - length xs1) with (length xs2) by lia.
  destruct (is_nothrow_move_constructible || negb is_copy_constructible).
  - unfold uninitialized_move_n.
    edestruct (@uninitialized_move_loop_exact T _ _ old_buffer new_buffer
                 (frame_shape v c)) with (spre := @nil (slot T)) (pre := @nil (slot T))
      (ys := xs1) (s := s)
      as (s1 & rs1 & Hloop1 & HR1 & Hrs1 & Hsrc1 & Hdst1);
      [..|exact Htr|exact Hs|reflexivity|reflexivity|exact Hlen1|exact Hold|exact Hnew|].
    { by intros [??] ?. } { by intros [??] ?. } { by intros [??] ?. }
    { by intros [??] ?. }
    { intros. by apply frame_shape_old. } { intros. by apply frame_shape_new. }
    edestruct (@uninitialized_move_loop_exact T _ _ old_buffer new_buffer
                 (frame_shape v c)) with (spre := Live <$> rs1)
      (pre := (Live <$> xs1) ++ [sl]) (ys := xs2) (s := s1)
      (spost := @nil (slot T)) (mid := mid2) (post := post)
      as (s2 & rs2 & Hloop2 & HR2 & Hrs2 & Hsrc2 & Hdst2);
      [..|exact Htr|exact HR1| | |exact Hlen2| | |].
    { by intros [??] ?. } { by intros [??] ?. } { by intros [??] ?. }
    { by intros [??] ?. }
    { intros. by apply frame_shape_old. } { intros. by apply frame_shape_new. }
    { rewrite length_fmap. exact (eq_sym Hrs1). }
    { rewrite length_app, length_fmap. simpl. reflexivity. }
    { rewrite Hsrc1. simpl. by rewrite app_nil_r. }
    { rewrite Hdst1. simpl. by rewrite <- app_assoc. }
    exists s2, (rs1 ++ rs2), ((EvMoveCtor <$> xs1) ++ (EvMoveCtor <$> xs2)).
    split; [|split; [|split; [|split; [done|split; [|split]]]]].
    + erewrite bind_Ok; last exact Hloop1.
      rewrite Hloop2. reflexivity.
    + trace_solve.
    + trace_solve.
    + rewrite length_app. lia.
    + rewrite Hsrc2, fmap_app. simpl. by rewrite app_nil_r.
    + rewrite Hdst2, <- app_assoc. done.
  - exists (update new_buffer ((Live <$> xs1) ++ sl :: (Live <$> xs2) ++ post)
              (update new_buffer ((Live <$> xs1) ++ sl :: mid2 ++ post) s)),
      (xs1 ++ xs2), ((EvCopyCtor <$> xs1) ++ (EvCopyCtor <$> xs2)).
    split; [|split; [|split; [|split; [|split; [|split]]]]].
    + unfold catch_rethrow.
      erewrite bind_Ok; last first.
      { apply zoom_Ok. unfold uninitialized_copy_n. rewrite Hthis, Hnew.
        apply (uninitialized_copy_loop_exact [] (Live <$> xs2) [] mid1
                 (sl :: mid2 ++ post) xs1); done. }
      erewrite zoom_Ok; [reflexivity|].
      unfold uninitialized_copy_n. rewrite Hthis.
      destruct s as [v0 [b0 c0]]. simpl.
      replace ((Live <$> xs1) ++ (Live <$> xs2))
        with ((Live <$> xs1) ++ (Live <$> xs2) ++ []) by (by rewrite app_nil_r).
      replace ((Live <$> xs1) ++ sl :: mid2 ++ post)
        with (((Live <$> xs1) ++ [sl]) ++ mid2 ++ post)
        by (by rewrite <- app_assoc).
      replace ((Live <$> xs1) ++ sl :: (Live <$> xs2) ++ post)
        with (((Live <$> xs1) ++ [sl]) ++ (Live <$> xs2) ++ post)
        by (by rewrite <- app_assoc).
      apply uninitialized_copy_loop_exact; [done|by rewrite length_fmap| |done].
      rewrite length_app, length_fmap. simpl. lia.
    + trace_solve.
    + trace_solve.
    + by do 2 apply frame_shape_new.
    + by rewrite length_app.
    + destruct s as [v0 m0]. simpl in *. by rewrite Hold, fmap_app.
    + destruct s as [v0 m0]. done.
Qed.

(** Inserting between [xs1] and [xs2] in a full buffer. *)
Lemma Emplace_growth_exact (xs1 xs2 : list T) x :
  relocation_transfers T ->
  operator_new (if length (xs1 ++ xs2) =? 0 then 1 else length (xs1 ++ xs2) * 2)
  = true ->
  exists tr,
    Emplace (Z.of_nat (length xs1)) (Some x) (vector_of (xs1 ++ xs2) 0)
    = Ok (Z.of_nat (length xs1))
        (vector_of (xs1 ++ x :: xs2)
           ((if length (xs1 ++ xs2) =? 0 then 1 else length (xs1 ++ xs2) * 2)
            - length (xs1 ++ xs2) - 1)) tr /\
    relocated (length (xs1 ++ xs2)) tr.
Proof.
  intros Htr Hnew.
  set (n := length (xs1 ++ xs2)) in *.
  set (N := if n =? 0 then 1 else n * 2) in *.
  assert (n = length xs1 + length xs2) as Hn by (subst n; apply length_app).
  assert (n < N) as HN by (subst N; destruct n; simpl; lia).
  edestruct (@relocation_around_exact (vector_of (xs1 ++ xs2) 0)
               (vector_of (xs1 ++ xs2) 0) N
               (vector_of (xs1 ++ xs2) 0,
                {| buffer_ := replicate (length xs1) Raw
                              ++ Live x :: replicate (length xs2) Raw
                              ++ replicate (N - n - 1) Raw;
                   capacity_ := N |})
               xs1 xs2 (Live x) (replicate (length xs1) Raw)
               (replicate (length xs2) Raw) (replicate (N - n - 1) Raw)
               (length xs1) Htr)
    as (s' & rs & tr & Hreloc & Hrel & Hdes & Hshape & Hrs & Hold & Hnewb);
    [done|done|by simpl; rewrite length_app
    |by simpl; rewrite app_nil_r, fmap_app
    |by simpl; rewrite app_nil_r, fmap_app
    |done|by rewrite length_replicate|by rewrite length_replicate|].
  destruct s' as [v1 [b1 c1]]. destruct Hshape as (Hsz & _ & Hc).
  simpl in Hsz, Hc, Hold, Hnewb, Hreloc. subst b1 c1.
  eexists. split.
  - unfold Emplace. rewrite bind_get. unfold Capacity, RawMemory_Capacity.
    simpl. fold n. rewrite Nat.add_0_r, Nat.eqb_refl, Nat2Z.id.
    replace ((0 <=? Z.of_nat (length xs1))%Z
             && (Z.of_nat (length xs1) <=? Z.of_nat n)%Z) with true; last first.
    { symmetry. apply andb_true_iff. split; apply Z.leb_le; lia. }
    simpl.
    erewrite bind_Ok; last reflexivity.
    erewrite bind_Ok; last first.
    { unfold EmplaceWithReallocate. rewrite bind_get. simpl. fold n. fold N.
      erewrite bind_Ok; last by (apply RawMemory_ctor_exact; [lia|done]).
      erewrite with_local_Ok; [reflexivity|].
      unfold RawMemory_plus, assert. simpl.
      replace (length xs1 <=? N) with true by (symmetry; apply Nat.leb_le; lia).
      erewrite bind_Ok; last reflexivity.
      erewrite bind_Ok; last first.
      { apply zoom_Ok. simpl.
        replace N with (length xs1 + S (length xs2 + (N - n - 1))) at 1 by lia.
        rewrite replicate_add. simpl. rewrite replicate_add.
        apply construct_at_middle. by rewrite length_replicate. }
      erewrite bind_Ok; last exact Hreloc.
      erewrite bind_Ok; last first.
      { apply zoom_Ok. simpl. rewrite Hold.
        replace n with (length rs) by lia.
        rewrite <- (app_nil_r (Live <$> rs)).
        apply (destroy_n_exact [] rs []). done. }
      reflexivity. }
    simpl. unfold incr_size, set_size, vector_of. simpl. rewrite Hsz.
    f_equal. apply vector_ext.
    + rewrite fmap_app, fmap_cons, <- !app_assoc. simpl.
      reflexivity.
    + rewrite length_app. simpl. lia.
    + rewrite !length_app. simpl. lia.
  - rewrite Hn. reloc_solve.
Qed.
End Insertion.

Section InPlace.
Context {T : Type} `{Element T} `{Heap}.

(** Move construction of the object at [first] into the next slot of the
    same buffer. *)
Lemma move_construct_at_same_exact (pre post : block T) y y' r sl c n first cur :
  first = length pre -> cur = S (length pre) ->
  move_construct y = Some (y', r) ->
  move_construct_at this_buffer this_buffer first cur
    {| data_ := {| buffer_ := pre ++ Live y :: sl :: post; capacity_ := c |};
       size_ := n |}
  = Ok tt
      {| data_ := {| buffer_ := pre ++ Live r :: Live y' :: post; capacity_ := c |};
         size_ := n |}
      [EvMoveCtor y].
Proof.
  intros -> -> Hmv. unfold move_construct_at.
  erewrite bind_Ok; last first.
  { apply zoom_this_buffer. simpl. by apply deref_middle. }
  rewrite after_nil.
  erewrite bind_Ok; last first.
  { apply zoom_this_buffer. simpl. rewrite (cons_middle (Live y)), app_assoc.
    apply slot_at_middle. rewrite length_app. simpl. lia. }
  rewrite after_nil. unfold call_move_construct. rewrite Hmv.
  erewrite bind_Ok; last reflexivity.
  rewrite after_nil.
  erewrite bind_Ok; last first.
  { apply zoom_this_buffer. simpl. rewrite <- app_assoc. simpl.
    by apply set_slot_middle. }
  rewrite after_nil.
  erewrite bind_Ok; last first.
  { apply zoom_this_buffer. simpl. rewrite (cons_middle (Live r)), app_assoc.
    apply set_slot_middle. rewrite length_app. simpl. lia. }
  rewrite after_nil. simpl. rewrite <- app_assoc. done.
Qed.

(** Move assignment of the object at [s] to the one in the next slot. *)
Lemma move_assign_at_next_exact (pre : block T) x y y' r rest s d :
  s = length pre -> d = S (length pre) ->
  move_assign x y = Some (y', r) ->
  move_assign_at s d (pre ++ Live y :: Live x :: rest)
  = Ok tt (pre ++ Live r :: Live y' :: rest) [EvMoveAssign y].
Proof.
  intros -> -> Hmv. unfold move_assign_at.
  erewrite bind_Ok; last by apply deref_middle.
  rewrite after_nil.
  erewrite bind_Ok; last first.
  { rewrite (cons_middle (Live y)), app_assoc.
    apply deref_middle. rewrite length_app. simpl. lia. }
  rewrite after_nil. rewrite Hmv.
  erewrite bind_Ok; last first.
  { rewrite <- app_assoc. simpl. by apply set_slot_middle. }
  rewrite after_nil.
  erewrite bind_Ok; last first.
  { rewrite (cons_middle (Live (snd (y', r)))), app_assoc.
    apply set_slot_middle. rewrite length_app. simpl. lia. }
  rewrite <- app_assoc. done.
Qed.

Lemma move_backward_loop_0 last d_last (b : block T) :
  move_backward_loop last d_last 0 b = Ok tt b [].
Proof. by destruct last. Qed.

(** [std::move_backward] of the elements [y :: ys] one slot to the right,
    over the object [z] that follows them, for an element type whose move
    assignment leaves its source as it was: the slot of [y] keeps [y]. *)
Lemma move_backward_loop_exact (pre : block T) y ys z post last :
  (forall d s : T, move_assign d s = Some (s, s)) ->
  last = length pre + S (length ys) ->
  move_backward_loop last (S last) (S (length ys))
    (pre ++ Live y :: (Live <$> ys) ++ Live z :: post)
  = Ok tt (pre ++ Live y :: Live y :: (Live <$> ys) ++ post)
      (EvMoveAssign <$> rev (y :: ys)).
Proof.
  intros Hmv. revert z post last.
  induction ys as [|w ys IH] using rev_ind; intros z post last ->.
  - replace (length pre + S (length (@nil T))) with (S (length pre))
      by (simpl; lia).
    cbn [move_backward_loop length fmap list_fmap app].
    erewrite bind_Ok; last by (apply move_assign_at_next_exact; [done..|apply Hmv]).
    by rewrite move_backward_loop_0.
  - rewrite length_app. simpl.
    replace (length pre + S (length ys + 1))
      with (S (length pre + S (length ys))) by lia.
    replace (length ys + 1) with (S (length ys)) by lia.
    cbn [move_backward_loop].
    rewrite fmap_app. simpl. rewrite <- app_assoc. simpl.
    erewrite bind_Ok; last first.
    { replace (pre ++ Live y :: (Live <$> ys) ++ Live w :: Live z :: post)
        with ((pre ++ Live y :: (Live <$> ys)) ++ Live w :: Live z :: post)
        by (by rewrite <- app_assoc).
      apply move_assign_at_next_exact; [..|apply Hmv].
      - rewrite length_app. simpl. rewrite length_fmap. lia.
      - rewrite length_app. simpl. rewrite length_fmap. lia. }
    rewrite <- app_assoc. cbn [app].
    rewrite (IH w (Live w :: post) _ eq_refl). simpl.
    rewrite rev_app_distr. simpl. rewrite <- app_assoc. done.
Qed.

(** [Emplace] at [shift], past the common prefix of its two paths: the
    position is in range and the buffer has room. *)
Lemma Emplace_with_room (v : Vector T) shift args :
  shift <= size_ v -> size_ v < capacity_ (data_ v) ->
  Emplace (Z.of_nat shift) args v
  = (result <- EmplaceWithoutReallocate shift args ;;
     modify incr_size ;;
     ret (Z.of_nat result)) v.
Proof.
  intros Hshift Hroom. unfold Emplace. rewrite bind_get.
  unfold assert, Capacity, RawMemory_Capacity.
  replace ((0 <=? Z.of_nat shift)%Z && (Z.of_nat shift <=? Z.of_nat (size_ v))%Z)
    with true; last first.
  { symmetry. apply andb_true_iff. split; apply Z.leb_le; lia. }
  erewrite bind_Ok; last reflexivity.
  rewrite after_nil, Nat2Z.id.
  replace (size_ v =? capacity_ (data_ v)) with false
    by (symmetry; apply Nat.eqb_neq; lia).
  reflexivity.
Qed.

(** Insertion into an empty vector that has a buffer. *)
Lemma Emplace_in_place_empty_exact x spare :
  Emplace 0 (Some x) (vector_of [] (S spare))
  = Ok 0%Z (vector_of [x] spare) [EvEmplace x].
Proof.
  rewrite (Emplace_with_room (vector_of [] (S spare)) (shift := 0));
    [|simpl; lia..].
  reflexivity.
Qed.

(** Insertion at [end()] when the buffer has room: the last element [l]
    is move-constructed into the free slot and that object is destroyed
    again, so what stays at the old place of [l] is its moved-from
    state [r]. *)
Lemma Emplace_in_place_at_end_exact (ys : list T) l l' r x spare :
  move_construct l = Some (l', r) ->
  Emplace (Z.of_nat (length (ys ++ [l]))) (Some x) (vector_of (ys ++ [l]) (S spare))
  = Ok (Z.of_nat (length (ys ++ [l]))) (vector_of (ys ++ [r; x]) spare)
      [EvMoveCtor l; EvDestroy l'; EvEmplace x].
Proof.
  intros Hmv.
  rewrite Emplace_with_room; [|simpl; lia..].
  assert (length (ys ++ [l]) = S (length ys)) as Hlen
    by (rewrite length_app; simpl; lia).
  unfold EmplaceWithoutReallocate. rewrite bind_assoc, bind_get.
  cbn [vector_of size_ data_ capacity_ buffer_]. rewrite Hlen.
  cbn [Nat.eqb negb].
  unfold RawMemory_plus, assert. cbn [capacity_].
  replace (S (length ys) <=? S (length ys) + S spare) with true
    by (symmetry; apply Nat.leb_le; lia).
  erewrite bind_Ok; last first.
  { erewrite bind_Ok; last first.
    { erewrite bind_Ok; last reflexivity.
      cbn [app]. rewrite after_nil.
      erewrite bind_Ok; last first.
      { replace (S (length ys) - 1) with (length ys) by lia.
        unfold vector_of.
        rewrite fmap_app, <- app_assoc. cbn [fmap list_fmap app replicate].
        apply (move_construct_at_same_exact (Live <$> ys) (replicate spare Raw)).
        - by rewrite length_fmap.
        - by rewrite length_fmap.
        - exact Hmv. }
      erewrite bind_Ok; last first.
      { unfold catch_rethrow. erewrite zoom_this_buffer; [reflexivity|].
        unfold std_move_backward. rewrite Nat.ltb_irrefl, Nat.sub_diag.
        apply move_backward_loop_0. }
      cbn [buffer_ data_ capacity_ size_].
      erewrite zoom_this_buffer; [reflexivity|].
      cbn [buffer_ data_].
      rewrite (cons_middle (Live r)), app_assoc.
      apply destroy_at_middle. rewrite length_app, length_fmap. simpl. lia. }
    cbn [buffer_ data_ capacity_ size_ after app].
    erewrite bind_Ok; last reflexivity.
    erewrite bind_Ok; last first.
    { apply zoom_this_buffer. cbn [buffer_ data_].
      apply construct_at_middle. rewrite length_app, length_fmap. simpl. lia. }
    reflexivity. }
  cbn [after app bind modify ret incr_size set_size size_ data_].
  unfold bind, modify, ret, incr_size, set_size, vector_of. simpl.
  f_equal. apply vector_ext.
  - rewrite !fmap_app, <- !app_assoc. reflexivity.
  - rewrite !length_app. simpl. lia.
  - rewrite !length_app. simpl. lia.
Qed.

(** Insertion before the element [y] when the buffer has room, for an
    element type whose moves leave the source as it was, up to the
    construction of the new element. *)
Lemma Emplace_in_place_shift_exact (xs1 : list T) y ys args spare :
  move_keeps_source T ->
  exists l,
    Emplace (Z.of_nat (length xs1)) args (vector_of (xs1 ++ y :: ys) (S spare))
    = after (EvMoveCtor l :: (EvMoveAssign <$> rev (y :: ys)) ++ [EvDestroy y])
        ((zoom this_buffer (construct_at (length xs1) args (@EvEmplace T)) ;;
          modify incr_size ;;
          ret (Z.of_nat (length xs1)))
           (with_hole xs1 y ys spare)).
Proof.
  intros [Hctor Hassign].
  destruct (exists_last (l := xs1 ++ y :: ys)) as (init & l & Hlast);
    [by destruct xs1|].
  exists l.
  assert (length (xs1 ++ y :: ys) = S (length xs1 + length ys)) as Hlen
    by (rewrite length_app; simpl; lia).
  assert (length init = length xs1 + length ys) as Hinit.
  { apply (f_equal length) in Hlast. rewrite Hlen, length_app in Hlast.
    simpl in Hlast. lia. }
  rewrite Emplace_with_room; [|simpl; lia..].
  unfold EmplaceWithoutReallocate, with_hole. rewrite bind_assoc, bind_get.
  cbn [vector_of size_ data_ capacity_ buffer_]. rewrite Hlen.
  cbn [Nat.eqb negb].
  unfold RawMemory_plus, assert. cbn [capacity_].
  replace (S (length xs1 + length ys) <=? S (length xs1 + length ys) + S spare)
    with true by (symmetry; apply Nat.leb_le; lia).
  replace (length xs1 <=? S (length xs1 + length ys) + S spare)
    with true by (symmetry; apply Nat.leb_le; lia).
  rewrite bind_assoc.
  erewrite bind_Ok; last first.
  { erewrite bind_Ok; last reflexivity.
    cbn [app]. rewrite after_nil.
    erewrite bind_Ok; last first.
    { replace (S (length xs1 + length ys) - 1) with (length init) by lia.
      unfold vector_of. rewrite Hlast.
      rewrite fmap_app, <- app_assoc. cbn [fmap list_fmap app replicate].
      apply (move_construct_at_same_exact (Live <$> init) (replicate spare Raw)).
      - by rewrite length_fmap.
      - rewrite length_fmap. lia.
      - apply Hctor. }
    erewrite bind_Ok; last first.
    { unfold catch_rethrow. erewrite zoom_this_buffer; [reflexivity|].
      cbn [buffer_ data_].
      replace ((Live <$> init) ++ Live l :: Live l :: replicate spare Raw)
        with ((Live <$> xs1) ++ Live y :: (Live <$> ys)
                ++ Live l :: replicate spare Raw); last first.
      { change (Live l :: Live l :: replicate spare Raw)
          with ((Live <$> [l]) ++ Live l :: replicate spare Raw).
        rewrite app_assoc, <- fmap_app, <- Hlast.
        rewrite fmap_app, <- app_assoc. reflexivity. }
      unfold std_move_backward.
      replace (S (length xs1 + length ys) <? length xs1) with false
        by (symmetry; apply Nat.ltb_ge; lia).
      replace (S (length xs1 + length ys) - length xs1) with (S (length ys))
        by lia.
      replace (S (length xs1 + length ys) + 1)
        with (S (S (length xs1 + length ys))) by lia.
      apply move_backward_loop_exact; [exact Hassign|].
      rewrite length_fmap. lia. }
    cbn [buffer_ data_ capacity_ size_].
    erewrite zoom_this_buffer; [reflexivity|].
    cbn [buffer_ data_].
    apply destroy_at_middle. by rewrite length_fmap. }
  cbn [buffer_ data_ capacity_ size_ after app].
  rewrite <- Hlast, Hlen. f_equal.
  unfold bind, ret. cbn [after app].
  destruct (zoom _ _ _) as [[] ? ?| |]; simpl; by rewrite ?app_nil_r.
Qed.

Lemma Emplace_in_place_middle_exact (xs1 : list T) y ys x spare :
  move_keeps_source T ->
  exists l,
    Emplace (Z.of_nat (length xs1)) (Some x) (vector_of (xs1 ++ y :: ys) (S spare))
    = Ok (Z.of_nat (length xs1)) (vector_of (xs1 ++ x :: y :: ys) spare)
        (EvMoveCtor l :: (EvMoveAssign <$> rev (y :: ys))
           ++ [EvDestroy y; EvEmplace x]).
Proof.
  intros Hkeep.
  destruct (Emplace_in_place_shift_exact xs1 y ys (Some x) spare Hkeep)
    as [l Hrun].
  exists l. rewrite Hrun. unfold with_hole.
  erewrite bind_Ok; last first.
  { apply zoom_this_buffer. cbn [buffer_ data_].
    apply construct_at_middle. by rewrite length_fmap. }
  unfold bind, modify, ret, incr_size, set_size, vector_of. simpl.
  f_equal.
  - apply vector_ext.
    + rewrite !fmap_app, !fmap_cons, <- app_assoc. reflexivity.
    + rewrite !length_app. simpl. lia.
    + rewrite !length_app. simpl. lia.
  - rewrite <- !app_assoc. reflexivity.
Qed.

(** The same insertion when the constructor of the new element throws:
    the exception leaves [Emplace] after the elements have been shifted. *)
Lemma Emplace_in_place_middle_throw_exact (xs1 : list T) y ys spare :
  move_keeps_source T ->
  exists l,
    Emplace (Z.of_nat (length xs1)) None (vector_of (xs1 ++ y :: ys) (S spare))
    = Throw element_exn (with_hole xs1 y ys spare)
        (EvMoveCtor l :: (EvMoveAssign <$> rev (y :: ys)) ++ [EvDestroy y]).
Proof.
  intros Hkeep.
  destruct (Emplace_in_place_shift_exact xs1 y ys None spare Hkeep)
    as [l Hrun].
  exists l. rewrite Hrun.
  erewrite bind_Throw; last first.
  { apply zoom_Throw. unfold with_hole, construct_at, bind, slot_at.
    cbn [view this_buffer compose_lens data_lens buffer_lens buffer_ data_].
    rewrite list_lookup_middle by (by rewrite length_fmap). reflexivity. }
  simpl. rewrite app_nil_r. reflexivity.
Qed.

(** Destroying the vector after that exception reaches the slot that
    holds no object. *)
Lemma Vector_dtor_with_hole (xs1 : list T) y ys spare :
  Vector_dtor (with_hole xs1 y ys spare) = Fatal undefined_behaviour.
Proof.
  unfold Vector_dtor. rewrite bind_get. unfold zoom, with_hole.
  cbn [view this_buffer compose_lens data_lens buffer_lens buffer_ data_ size_].
  rewrite length_app. cbn [length].
  assert (forall (pre : block T) n rest first,
            first = length pre ->
            destroy_n first (S n) (pre ++ Raw :: rest)
            = Fatal undefined_behaviour) as Hraw.
  { intros pre n rest first ->. cbn [destroy_n].
    unfold destroy_at, deref, slot_at, bind.
    by rewrite list_lookup_middle. }
  assert (forall (zs : list T) (pre : block T) n rest first,
            first = length pre ->
            destroy_n first (length zs + S n) (pre ++ (Live <$> zs) ++ Raw :: rest)
            = Fatal undefined_behaviour) as Hrun.
  { induction zs as [|z zs IH]; intros pre n rest first ->.
    - by apply Hraw.
    - cbn [length Nat.add destroy_n fmap list_fmap app].
      unfold bind at 1. cbn [app].
      rewrite (destroy_at_middle _ _ _ eq_refl).
      rewrite (cons_middle Raw), app_assoc.
      rewrite IH; [done|]. rewrite length_app. simpl. lia. }
  pose proof (Hrun xs1 [] (length ys)
                (Live y :: (Live <$> ys) ++ replicate spare Raw) 0 eq_refl)
    as Hdtor.
  cbn [app] in Hdtor. by rewrite Hdtor.
Qed.
End InPlace.


Section Construction.
Context {T : Type} `{Element T} `{Heap}.

(** The storage [RawMemory(n)] gives when [operator new] succeeds; none
    is asked for when [n] is 0. *)
Lemma RawMemory_ctor_any {St} n (s : St) :
  (n <> 0 -> operator_new n = true) ->
  RawMemory_ctor (T:=T) n s
  = Ok {| buffer_ := replicate n Raw; capacity_ := n |} s
      (if n =? 0 then [] else [EvAllocate n]).
Proof.
  intros Hnew. destruct n as [|n]; [done|].
  by rewrite RawMemory_ctor_exact; [|lia|apply Hnew].
Qed.

Lemma RawMemory_ctor_bad_alloc {St} n (s : St) :
  n <> 0 -> operator_new n = false ->
  RawMemory_ctor (T:=T) n s = Throw bad_alloc s [].
Proof.
  intros Hn Hnew. unfold RawMemory_ctor, Allocate, bind.
  apply Nat.eqb_neq in Hn. rewrite Hn. simpl. by rewrite Hnew.
Qed.

(** [Vector(const Vector&)]: the copy holds copies of the elements in a
    buffer of exactly that many slots. *)
Lemma Vector_copy_exact {St} (xs : list T) spare (s : St) :
  (forall x, copy_construct x = Some x) ->
  (length xs <> 0 -> operator_new (length xs) = true) ->
  Vector_copy (vector_of xs spare) s
  = Ok (vector_of xs 0) s
      ((if length xs =? 0 then [] else [EvAllocate (length xs)])
         ++ (EvCopyCtor <$> xs)).
Proof.
  intros Hcopy Hnew. unfold Vector_copy.
  cbn [vector_of size_ data_ buffer_].
  erewrite bind_Ok; last by apply RawMemory_ctor_any.
  erewrite with_local_Ok; [reflexivity|].
  erewrite bind_Ok; last first.
  { apply zoom_Ok. cbn [view compose_lens snd_lens buffer_lens snd buffer_].
    unfold uninitialized_copy_n.
    pose proof (@uninitialized_copy_loop_exact T _ [] (replicate spare Raw) []
                  (replicate (length xs) Raw) [] xs 0 0 0 Hcopy eq_refl eq_refl
                  (length_replicate _ _)) as Hloop.
    cbn [app] in Hloop. rewrite !app_nil_r in Hloop. exact Hloop. }
  rewrite bind_get. unfold ret. simpl. rewrite app_nil_r. unfold vector_of.
  f_equal. apply vector_ext; [by rewrite app_nil_r|lia|done].
Qed.

(** [Vector(const Vector&)] when [operator new] fails. *)
Lemma Vector_copy_bad_alloc {St} (xs : list T) spare (s : St) :
  length xs <> 0 -> operator_new (length xs) = false ->
  Vector_copy (vector_of xs spare) s = Throw bad_alloc s [].
Proof.
  intros Hxs Hnew. unfold Vector_copy. cbn [vector_of size_].
  by erewrite bind_Throw; last by apply RawMemory_ctor_bad_alloc.
Qed.

(** [std::uninitialized_copy_n] when the copy constructor throws at the
    object [z]: the copies made so far, [done] by earlier steps and
    [xs1] by these, are destroyed and the exception goes on. *)
Lemma uninitialized_copy_loop_throw_exact (spre spost pre post : block T)
    done xs1 z xs2 m result first cur :
  Forall (fun x => copy_construct x = Some x) xs1 ->
  copy_construct z = None ->
  first = length spre -> result = length pre ->
  cur = length pre + length done ->
  uninitialized_copy_loop (spre ++ (Live <$> xs1 ++ z :: xs2) ++ spost)
    result first cur (length (xs1 ++ z :: xs2))
    (pre ++ (Live <$> done) ++ replicate (length xs1 + S m) Raw ++ post)
  = Throw element_exn
      (pre ++ replicate (length done + (length xs1 + S m)) Raw ++ post)
      ((EvCopyCtor <$> xs1) ++ (EvDestroy <$> done ++ xs1)).
Proof.
  intros Hxs1 Hz. revert spre done first cur.
  induction Hxs1 as [|x xs1 Hx Hxs1 IH]; intros spre done first cur -> -> ->.
  - cbn [app length uninitialized_copy_loop fmap list_fmap Nat.add].
    rewrite list_lookup_middle by done.
    rewrite app_nil_r.
    erewrite bind_Throw; [reflexivity|].
    unfold catch_rethrow.
    replace (construct_at (length pre + length done) (copy_construct z)
               (fun _ => EvCopyCtor z)
               (pre ++ (Live <$> done) ++ replicate (S m) Raw ++ post))
      with (Throw (T:=T) (A:=unit) element_exn
              (pre ++ (Live <$> done) ++ replicate (S m) Raw ++ post) []); last first.
    { unfold construct_at, bind, slot_at. rewrite Hz.
      rewrite app_assoc. cbn [replicate app].
      rewrite list_lookup_middle; [done|].
      by rewrite length_app, length_fmap. }
    unfold destroy.
    replace (length pre + length done - length pre) with (length done) by lia.
    rewrite (destroy_n_exact pre done _ eq_refl).
    cbn [app]. rewrite replicate_add, <- app_assoc. reflexivity.
  - rewrite <- app_comm_cons.
    cbn [length uninitialized_copy_loop fmap list_fmap Nat.add].
    rewrite <- app_comm_cons.
    rewrite list_lookup_middle by done.
    erewrite bind_Ok; last first.
    { unfold catch_rethrow. rewrite Hx.
      cbn [replicate]. rewrite app_assoc. rewrite <- app_comm_cons.
      rewrite construct_at_middle; [reflexivity|].
      by rewrite length_app, length_fmap. }
    specialize (IH (spre ++ [Live x]) (done ++ [x])
                  (S (length spre)) (S (length pre + length done))).
    rewrite <- app_assoc. cbn [app].
    replace (spre ++ Live x :: (Live <$> xs1 ++ z :: xs2) ++ spost)
      with ((spre ++ [Live x]) ++ (Live <$> xs1 ++ z :: xs2) ++ spost)
      by (by rewrite <- app_assoc).
    replace (pre ++ (Live <$> done) ++ Live x
               :: replicate (length xs1 + S m) Raw ++ post)
      with (pre ++ (Live <$> done ++ [x])
              ++ replicate (length xs1 + S m) Raw ++ post)
      by (by rewrite fmap_app, <- app_assoc).
    rewrite IH; [| rewrite length_app; simpl; lia | done
                 | rewrite length_app; simpl; lia].
    cbn [after]. rewrite !length_app. cbn [length].
    f_equal.
    + replace (length done + 1 + (length xs1 + S m))
        with (length done + S (length xs1 + S m)) by lia.
      reflexivity.
    + by rewrite <- app_assoc.
Qed.

(** [Vector(const Vector&)] when the copy constructor of the element [z]
    throws: the copies made are destroyed, no vector is made. *)
Lemma Vector_copy_throw_exact {St} (xs1 : list T) z xs2 spare (s : St) :
  Forall (fun x => copy_construct x = Some x) xs1 ->
  copy_construct z = None ->
  operator_new (length (xs1 ++ z :: xs2)) = true ->
  Vector_copy (vector_of (xs1 ++ z :: xs2) spare) s
  = Throw element_exn s
      (EvAllocate (length (xs1 ++ z :: xs2))
         :: (EvCopyCtor <$> xs1) ++ (EvDestroy <$> xs1)).
Proof.
  intros Hxs1 Hz Hnew. unfold Vector_copy.
  cbn [vector_of size_ data_ buffer_].
  assert (length (xs1 ++ z :: xs2) = length xs1 + S (length xs2)) as Hlen
    by (rewrite length_app; simpl; lia).
  erewrite bind_Ok; last first.
  { apply RawMemory_ctor_exact; [lia|done]. }
  erewrite with_local_Throw; [reflexivity|].
  erewrite bind_Throw; last first.
  { apply zoom_Throw. cbn [view compose_lens snd_lens buffer_lens snd buffer_].
    unfold uninitialized_copy_n.
    pose proof (@uninitialized_copy_loop_throw_exact [] (replicate spare Raw) [] []
                  [] xs1 z xs2 (length xs2) 0 0 0 Hxs1 Hz eq_refl eq_refl eq_refl)
      as Hloop.
    cbn [app fmap list_fmap length Nat.add] in Hloop.
    rewrite !app_nil_r in Hloop. rewrite Hlen at 2. exact Hloop. }
  reflexivity.
Qed.

(** [Vector(size_t)]: [size] value-initialised elements in a buffer of
    that many slots. *)
Lemma Vector_sized_exact {St} size d (s : St) :
  value_construct = Some d ->
  (size <> 0 -> operator_new size = true) ->
  Vector_sized size s
  = Ok (vector_of (replicate size d) 0) s
      ((if size =? 0 then [] else [EvAllocate size])
         ++ replicate size (EvValueInit d)).
Proof.
  intros Hd Hnew. unfold Vector_sized.
  erewrite bind_Ok; last by apply RawMemory_ctor_any.
  erewrite with_local_Ok; [reflexivity|].
  erewrite bind_Ok; last first.
  { apply zoom_Ok. cbn [view compose_lens snd_lens buffer_lens snd buffer_].
    unfold uninitialized_value_construct_n.
    pose proof (@uninitialized_value_construct_loop_exact T _ d []
                  (replicate size Raw) [] 0 0 Hd eq_refl) as Hloop.
    cbn [app] in Hloop. rewrite !app_nil_r, length_replicate in Hloop.
    exact Hloop. }
  rewrite bind_get. unfold ret. simpl. rewrite app_nil_r. unfold vector_of.
  f_equal. apply vector_ext.
  - by rewrite fmap_replicate, app_nil_r.
  - rewrite length_replicate. lia.
  - by rewrite length_replicate.
Qed.

(** [~Vector()] destroys every element once, from the first to the
    last, and nothing else. *)
Lemma Vector_dtor_exact (xs : list T) spare :
  Vector_dtor (vector_of xs spare)
  = Ok tt (set_size (length xs) (vector_of [] (length xs + spare)))
      (EvDestroy <$> xs).
Proof.
  unfold Vector_dtor. rewrite bind_get.
  erewrite zoom_this_buffer; last first.
  { cbn [vector_of size_ data_ buffer_].
    apply (destroy_n_exact [] xs (replicate spare Raw) eq_refl). }
  unfold set_size, vector_of. simpl. f_equal.
  apply vector_ext; [|done..].
  by rewrite replicate_add.
Qed.
End Construction.

Section Assignment.
Context {T : Type} `{Element T} `{Heap}.

Lemma call_exact {A} id (m : M T (Vector T) A) (st : objects T) v a v' tr :
  st !! id = Some v -> m v = Ok a v' tr ->
  call id m st = Ok a (<[id := v']> st) tr.
Proof.
  intros Hv Hm. unfold call.
  erewrite bind_Ok; last by apply object_exact.
  rewrite after_nil.
  erewrite zoom_Ok; [reflexivity|]. simpl. by rewrite Hv.
Qed.

(** [std::copy] of the objects [ys] over the objects [ds]. *)
Lemma copy_loop_exact (spre spost pre post : block T) ys ds first d_first :
  (forall d s : T, copy_assign d s = Some s) ->
  first = length spre -> d_first = length pre -> length ds = length ys ->
  copy_loop (spre ++ (Live <$> ys) ++ spost) first d_first (length ys)
    (pre ++ (Live <$> ds) ++ post)
  = Ok tt (pre ++ (Live <$> ys) ++ post) (EvCopyAssign <$> ys).
Proof.
  intros Hassign. revert spre pre ds first d_first.
  induction ys as [|y ys IH]; intros spre pre ds first d_first -> -> Hlen.
  { destruct ds; [done|discriminate]. }
  destruct ds as [|d ds]; [discriminate|]. simpl in Hlen.
  cbn [length copy_loop fmap list_fmap app].
  rewrite list_lookup_middle by done.
  erewrite bind_Ok; last first.
  { unfold copy_assign_at.
    erewrite bind_Ok; last by apply deref_middle.
    rewrite after_nil, Hassign.
    erewrite bind_Ok; last by apply set_slot_middle.
    reflexivity. }
  replace (spre ++ Live y :: (Live <$> ys) ++ spost)
    with ((spre ++ [Live y]) ++ (Live <$> ys) ++ spost)
    by (by rewrite <- app_assoc).
  replace (pre ++ Live y :: (Live <$> ds) ++ post)
    with ((pre ++ [Live y]) ++ (Live <$> ds) ++ post)
    by (by rewrite <- app_assoc).
  rewrite IH; [|rewrite length_app; simpl; lia..|lia].
  simpl. by rewrite <- app_assoc.
Qed.

Lemma new_object_exact (v : Vector T) (st : objects T) :
  new_object v st = Ok (length st) (st ++ [v]) [].
Proof. reflexivity. Qed.

(** Copy assignment when the buffer of [this] is too small for the
    elements of [rhs]: a copy of [rhs] is made, [this] takes its buffer
    and the old elements of [this] are destroyed. *)
Lemma assign_copy_realloc_exact this rhs (st : objects T) ts spare_t rs spare_r :
  (forall x : T, copy_construct x = Some x) ->
  this <> rhs ->
  st !! this = Some (vector_of ts spare_t) ->
  st !! rhs = Some (vector_of rs spare_r) ->
  length ts + spare_t < length rs ->
  operator_new (length rs) = true ->
  assign_copy this rhs st
  = Ok tt (<[this := vector_of rs 0]> st)
      (EvAllocate (length rs) :: (EvCopyCtor <$> rs) ++ (EvDestroy <$> ts)).
Proof.
  intros Hcopy Hne Ht Hr Hcap Hnew.
  assert (this < length st) as Hthis by by eapply lookup_lt_Some.
  unfold assign_copy, noexcept.
  replace (this =? rhs) with false by (symmetry; by apply Nat.eqb_neq).
  cbn [negb].
  erewrite bind_Ok; last by apply object_exact.
  erewrite bind_Ok; last by apply object_exact.
  cbn [vector_of data_ size_ capacity_ RawMemory_Capacity].
  unfold RawMemory_Capacity. cbn [capacity_].
  replace (length ts + spare_t <? length rs) with true
    by (symmetry; by apply Nat.ltb_lt).
  erewrite bind_Ok; last first.
  { apply (Vector_copy_exact rs spare_r st Hcopy). by intros _. }
  erewrite bind_Ok; last by apply new_object_exact.
  erewrite bind_Ok; last first.
  { apply Swap_exact.
    - rewrite lookup_app_l by done. exact Ht.
    - by rewrite list_lookup_middle. }
  unfold delete_object.
  erewrite bind_Ok; last first.
  { eapply call_exact; [|apply Vector_dtor_exact].
    apply list_lookup_insert_eq. rewrite length_insert, length_app. simpl. lia. }
  unfold modify. cbn [after app].
  replace (length rs =? 0) with false
    by (symmetry; apply Nat.eqb_neq; lia).
  rewrite !app_nil_r. cbn [app]. f_equal.
  rewrite !take_insert_ge by lia.
  rewrite insert_app_l by done.
  rewrite take_app_length'; [done|]. by rewrite length_insert.
Qed.

(** Copy assignment declared [noexcept] when [operator new] fails. *)
Lemma assign_copy_bad_alloc this rhs (st : objects T) t r :
  this <> rhs ->
  st !! this = Some t -> st !! rhs = Some r ->
  capacity_ (data_ t) < size_ r ->
  operator_new (size_ r) = false ->
  assign_copy this rhs st = Fatal terminated.
Proof.
  intros Hne Ht Hr Hcap Hnew.
  unfold assign_copy, noexcept.
  replace (this =? rhs) with false by (symmetry; by apply Nat.eqb_neq).
  cbn [negb].
  erewrite bind_Ok; last by apply object_exact.
  erewrite bind_Ok; last by apply object_exact.
  unfold RawMemory_Capacity.
  replace (capacity_ (data_ t) <? size_ r) with true
    by (symmetry; by apply Nat.ltb_lt).
  erewrite bind_Throw; [reflexivity|].
  unfold Vector_copy.
  erewrite bind_Throw; [reflexivity|].
  apply RawMemory_ctor_bad_alloc; [lia|done].
Qed.

(** Copy assignment of fewer elements than [this] holds: they are
    copy-assigned to the first elements and the others are destroyed. *)
Lemma assign_copy_shrink_exact this rhs (st : objects T) ts1 ts2 spare_t rs spare_r :
  (forall d s : T, copy_assign d s = Some s) ->
  this <> rhs ->
  st !! this = Some (vector_of (ts1 ++ ts2) spare_t) ->
  st !! rhs = Some (vector_of rs spare_r) ->
  length ts1 = length rs -> ts2 <> [] ->
  assign_copy this rhs st
  = Ok tt (<[this := vector_of rs (length ts2 + spare_t)]> st)
      ((EvCopyAssign <$> rs) ++ (EvDestroy <$> ts2)).
Proof.
  intros Hassign Hne Ht Hr Hlen Hts2.
  assert (0 < length ts2) as Hpos by (destruct ts2; [done|simpl; lia]).
  unfold assign_copy, noexcept.
  replace (this =? rhs) with false by (symmetry; by apply Nat.eqb_neq).
  cbn [negb].
  erewrite bind_Ok; last by apply object_exact.
  erewrite bind_Ok; last by apply object_exact.
  unfold RawMemory_Capacity.
  cbn [vector_of data_ size_ capacity_ buffer_].
  rewrite length_app.
  replace (length ts1 + length ts2 + spare_t <? length rs) with false
    by (symmetry; apply Nat.ltb_ge; lia).
  replace (length rs <? length ts1 + length ts2) with true
    by (symmetry; apply Nat.ltb_lt; lia).
  replace (Nat.min (length rs) (length ts1 + length ts2)) with (length rs) by lia.
  replace (length ts1 + length ts2 - length rs) with (length ts2) by lia.
  erewrite call_exact; [|exact Ht|].
  2:{ erewrite bind_Ok; last first.
      { apply zoom_this_buffer. cbn [vector_of data_ buffer_].
        unfold std_copy. cbn [Nat.ltb Nat.leb]. rewrite Nat.sub_0_r.
        rewrite fmap_app, <- app_assoc.
        apply (copy_loop_exact [] (replicate spare_r Raw) []
                 ((Live <$> ts2) ++ replicate spare_t Raw) rs ts1 Hassign
                 eq_refl eq_refl Hlen). }
      erewrite bind_Ok; last first.
      { apply zoom_this_buffer. cbn [data_ buffer_ app].
        apply (destroy_n_exact (Live <$> rs) ts2 (replicate spare_t Raw)).
        by rewrite length_fmap. }
      reflexivity. }
  cbn [after app]. rewrite !app_nil_r. f_equal. f_equal.
  unfold set_size, vector_of. cbn [data_ size_ capacity_ buffer_ app].
  apply vector_ext; [|rewrite length_app; lia|done].
  by rewrite replicate_add.
Qed.

(** Copy assignment of at least as many elements as [this] holds, into
    a buffer that has room for them: the first ones are copy-assigned
    to the elements of [this], the others copy-constructed after them. *)
Lemma assign_copy_grow_exact this rhs (st : objects T) ts spare_t rs1 rs2 spare_r :
  copy_transfers T ->
  this <> rhs ->
  st !! this = Some (vector_of ts spare_t) ->
  st !! rhs = Some (vector_of (rs1 ++ rs2) spare_r) ->
  length rs1 = length ts -> length rs2 <= spare_t ->
  assign_copy this rhs st
  = Ok tt (<[this := vector_of (rs1 ++ rs2) (spare_t - length rs2)]> st)
      ((EvCopyAssign <$> rs1) ++ (EvCopyCtor <$> rs2)).
Proof.
  intros [Hcopy Hassign] Hne Ht Hr Hlen Hroom.
  unfold assign_copy, noexcept.
  replace (this =? rhs) with false by (symmetry; by apply Nat.eqb_neq).
  cbn [negb].
  erewrite bind_Ok; last by apply object_exact.
  erewrite bind_Ok; last by apply object_exact.
  unfold RawMemory_Capacity.
  cbn [vector_of data_ size_ capacity_ buffer_].
  rewrite length_app.
  replace (length ts + spare_t <? length rs1 + length rs2) with false
    by (symmetry; apply Nat.ltb_ge; lia).
  replace (length rs1 + length rs2 <? length ts) with false
    by (symmetry; apply Nat.ltb_ge; lia).
  replace (Nat.min (length rs1 + length rs2) (length ts)) with (length rs1) by lia.
  replace (length rs1 + length rs2 - length ts) with (length rs2) by lia.
  erewrite call_exact; [|exact Ht|].
  2:{ erewrite bind_Ok; last first.
      { apply zoom_this_buffer. cbn [vector_of data_ buffer_].
        unfold std_copy. cbn [Nat.ltb Nat.leb]. rewrite Nat.sub_0_r.
        rewrite fmap_app, <- app_assoc.
        apply (copy_loop_exact [] ((Live <$> rs2) ++ replicate spare_r Raw) []
                 (replicate spare_t Raw) rs1 ts Hassign eq_refl eq_refl).
        by rewrite Hlen. }
      erewrite bind_Ok; last first.
      { apply zoom_this_buffer. cbn [data_ buffer_ app].
        unfold uninitialized_copy_n.
        replace (replicate spare_t (@Raw T))
          with (replicate (length rs2) (@Raw T)
                  ++ replicate (spare_t - length rs2) Raw); last first.
        { rewrite <- replicate_add. f_equal. lia. }
        rewrite fmap_app, <- app_assoc.
        apply (@uninitialized_copy_loop_exact T _ (Live <$> rs1)
                 (replicate spare_r Raw) (Live <$> rs1)
                 (replicate (length rs2) Raw)
                 (replicate (spare_t - length rs2) Raw) rs2
                 (length ts) (length ts) (length ts) Hcopy).
        - by rewrite length_fmap.
        - by rewrite length_fmap.
        - by rewrite length_replicate. }
      reflexivity. }
  cbn [after app]. rewrite !app_nil_r. f_equal. f_equal.
  unfold set_size, vector_of. cbn [data_ size_ capacity_ buffer_ app].
  apply vector_ext; [|rewrite length_app; lia|by rewrite length_app].
  by rewrite fmap_app, <- app_assoc.
Qed.
End Assignment.

Section Edges.
Context {T : Type} `{Element T} `{Heap}.

(** [EmplaceBack] into a free slot when the constructor of the new
    element throws. *)
Lemma EmplaceBack_in_place_throw_exact (xs : list T) spare :
  EmplaceBack None (vector_of xs (S spare))
  = Throw element_exn (vector_of xs (S spare)) [].
Proof.
  unfold EmplaceBack. rewrite bind_get. unfold Capacity, RawMemory_Capacity.
  cbn [vector_of size_ data_ capacity_].
  replace (length xs =? length xs + S spare) with false
    by (symmetry; apply Nat.eqb_neq; lia).
  unfold RawMemory_plus, assert. cbn [capacity_].
  replace (length xs <=? length xs + S spare) with true
    by (symmetry; apply Nat.leb_le; lia).
  erewrite bind_Throw; [reflexivity|].
  erewrite bind_Ok; last reflexivity.
  cbn [app]. rewrite after_nil.
  erewrite bind_Throw; [reflexivity|].
  unfold zoom, construct_at, bind, slot_at.
  cbn [view this_buffer compose_lens data_lens buffer_lens buffer_ data_
       replicate vector_of].
  rewrite list_lookup_middle by (by rewrite length_fmap).
  reflexivity.
Qed.

(** [Reserve] of no more than the capacity does nothing. *)
Lemma Reserve_within_capacity (v : Vector T) n :
  n <= capacity_ (data_ v) -> Reserve n v = Ok tt v [].
Proof.
  intros Hn. unfold Reserve, RawMemory_Capacity. rewrite bind_get.
  by replace (n <=? capacity_ (data_ v)) with true
    by (symmetry; by apply Nat.leb_le).
Qed.

(** [operator[]] with an index below the length. *)
Lemma subscript_middle (pre : list T) x post spare :
  subscript (length pre) (vector_of (pre ++ x :: post) spare)
  = Ok x (vector_of (pre ++ x :: post) spare) [].
Proof.
  unfold subscript. rewrite bind_get.
  unfold assert, RawMemory_index. cbn [vector_of size_ data_ capacity_].
  rewrite length_app. cbn [length].
  replace (length pre <? length pre + S (length post)) with true
    by (symmetry; apply Nat.ltb_lt; lia).
  replace (length pre <? length pre + S (length post) + spare) with true
    by (symmetry; apply Nat.ltb_lt; lia).
  erewrite bind_Ok; last reflexivity.
  erewrite bind_Ok; last reflexivity.
  cbn [after app].
  erewrite zoom_this_buffer; last first.
  { cbn [vector_of data_ buffer_].
    rewrite fmap_app, fmap_cons, <- app_assoc. cbn [app].
    apply deref_middle. by rewrite length_fmap. }
  rewrite !after_nil. unfold vector_of.
  cbn [data_ buffer_ capacity_ size_]. f_equal.
  apply vector_ext; [|done..].
  rewrite fmap_app, fmap_cons, <- app_assoc. reflexivity.
Qed.

Lemma subscript_exact (xs : list T) spare i x :
  xs !! i = Some x ->
  subscript i (vector_of xs spare) = Ok x (vector_of xs spare) [].
Proof.
  intros Hx. assert (i < length xs) as Hi by by eapply lookup_lt_Some.
  rewrite <- (take_drop_middle xs i x Hx).
  replace i with (length (take i xs)) at 1 by (rewrite length_take; lia).
  apply subscript_middle.
Qed.

(** [Erase(end())]: the test of [Erase] lets the position through, and
    [std::move] is given [begin() + size_ + 1] as the first and [end()]
    as the last iterator, which is not a range. *)
Lemma Erase_at_end_exact (v : Vector T) :
  Erase (Z.of_nat (size_ v)) v = Fatal undefined_behaviour.
Proof.
  unfold Erase, noexcept. rewrite bind_get.
  replace ((0 <=? Z.of_nat (size_ v))%Z
           && (Z.of_nat (size_ v) <=? Z.of_nat (size_ v))%Z) with true; last first.
  { symmetry. apply andb_true_iff. split; apply Z.leb_le; lia. }
  rewrite Nat2Z.id. unfold bind at 1. unfold bind at 1.
  unfold zoom, std_move.
  by replace (size_ v <? size_ v + 1) with true
    by (symmetry; apply Nat.ltb_lt; lia).
Qed.

(** Swapping twice gives the store back. *)
Lemma Swap_Swap_exact this other (st : objects T) a b :
  st !! this = Some a -> st !! other = Some b ->
  (Swap this other ;; Swap this other) st = Ok tt st [].
Proof.
  intros Ha Hb.
  assert (this < length st) as Hthis by by eapply lookup_lt_Some.
  assert (other < length st) as Hother by by eapply lookup_lt_Some.
  erewrite bind_Ok; last by apply Swap_exact.
  destruct (decide (this = other)) as [->|Hne].
  - rewrite Ha in Hb. injection Hb as <-.
    rewrite list_insert_insert_eq.
    erewrite Swap_exact; [|by apply list_lookup_insert_eq..].
    rewrite !list_insert_insert_eq. by rewrite list_insert_id.
  - erewrite Swap_exact; last first.
    { apply list_lookup_insert_eq. by rewrite length_insert. }
    { rewrite list_lookup_insert_ne by done.
      by apply list_lookup_insert_eq. }
    cbn [after app]. f_equal.
    rewrite (list_insert_insert_ne _ this other) by done.
    rewrite !list_insert_insert_eq.
    rewrite (list_insert_id _ this a) by done.
    by rewrite list_insert_id.
Qed.
End Edges.

Section Appends.
Context {T : Type} `{Element T} `{Heap}.

Lemma relocated_count n (tr : list (event T)) :
  relocated n tr -> moves tr + copies tr = n.
Proof.
  unfold relocated.
  destruct (is_nothrow_move_constructible || negb is_copy_constructible);
    intros [[-> ->] _]; lia.
Qed.

(** One [EmplaceBack] on the only vector of a store. *)
Lemma exec_EmplaceBack_exact y (v v' : Vector T) n tr :
  EmplaceBack (Some y) v = Ok n v' tr ->
  exec (op_EmplaceBack 0 (Some y)) [v] = Ok tt [v'] tr.
Proof.
  intros Hrun. unfold exec.
  erewrite bind_Ok; last by (eapply call_exact; [reflexivity|exact Hrun]).
  simpl. by rewrite app_nil_r.
Qed.

(** Appending within the capacity constructs the new elements in the
    free slots and does nothing else. *)
Lemma run_EmplaceBack_in_place_exact (ys xs : list T) spare :
  length ys <= spare ->
  run ((fun y => op_EmplaceBack 0 (Some y)) <$> ys) [vector_of xs spare]
  = Ok tt [vector_of (xs ++ ys) (spare - length ys)] (EvEmplace <$> ys).
Proof.
  revert xs spare. induction ys as [|y ys IH]; intros xs spare Hlen.
  - simpl. by rewrite app_nil_r, Nat.sub_0_r.
  - simpl in Hlen. destruct spare as [|spare]; [lia|].
    rewrite fmap_cons. cbn [run].
    erewrite bind_Ok; last first.
    { eapply exec_EmplaceBack_exact. apply EmplaceBack_in_place_exact. }
    rewrite IH by lia. simpl. by rewrite <- app_assoc.
Qed.

(** Appending [ys] to a vector whose free capacity does not exceed its
    length: the relocations are paid for by the elements appended. *)
Lemma run_EmplaceBack_exact (ys xs : list T) spare :
  relocation_transfers T -> (forall n, operator_new n = true) ->
  spare <= length xs ->
  exists spare' tr,
    run ((fun y => op_EmplaceBack 0 (Some y)) <$> ys) [vector_of xs spare]
    = Ok tt [vector_of (xs ++ ys) spare'] tr /\
    spare' <= length (xs ++ ys) /\
    moves tr + copies tr + spare <= length ys + spare'.
Proof.
  intros Htr Hnew. revert xs spare.
  induction ys as [|y ys IH]; intros xs spare Hspare.
  - exists spare, []. rewrite app_nil_r. simpl. repeat split; lia.
  - rewrite fmap_cons. cbn [run]. destruct spare as [|spare].
    + destruct (EmplaceBack_growth_exact xs y Htr (Hnew _)) as (tr1 & Hrun & Hrel).
      apply relocated_count in Hrel.
      set (N := if length xs =? 0 then 1 else length xs * 2) in *.
      assert (N - length xs - 1 <= length (xs ++ [y])) as Hle.
      { rewrite length_app. subst N. destruct (length xs); simpl; lia. }
      destruct (IH (xs ++ [y]) _ Hle) as (spare' & tr2 & Hrun2 & Hsp & Hcount).
      exists spare', (tr1 ++ tr2).
      erewrite bind_Ok; last by (eapply exec_EmplaceBack_exact; exact Hrun).
      rewrite Hrun2. simpl. rewrite <- !app_assoc. simpl.
      rewrite <- app_assoc in Hsp. simpl in Hsp.
      repeat split; [done|].
      unfold moves, copies in *. rewrite !count_app.
      subst N. destruct (length xs); simpl in *; lia.
    + assert (spare <= length (xs ++ [y])) as Hle
        by (rewrite length_app; simpl; lia).
      destruct (IH (xs ++ [y]) _ Hle) as (spare' & tr2 & Hrun2 & Hsp & Hcount).
      exists spare', (EvEmplace y :: tr2).
      erewrite bind_Ok; last first.
      { eapply exec_EmplaceBack_exact. apply EmplaceBack_in_place_exact. }
      rewrite Hrun2. simpl. rewrite <- !app_assoc. simpl.
      rewrite <- app_assoc in Hsp. simpl in Hsp.
      repeat split; [done|].
      unfold moves, copies in *. rewrite !count_cons. simpl. lia.
Qed.
End Appends.

Section Compositions.
Context {T : Type} `{Element T} `{Heap}.

(** [Reserve] on the empty vector. *)
Lemma Reserve_empty_exact n :
  n <> 0 -> operator_new n = true ->
  Reserve n (@Vector_default T) = Ok tt (vector_of [] n) [EvAllocate n].
Proof.
  intros Hn Hnew. unfold Reserve, RawMemory_Capacity. rewrite bind_get.
  cbn [Vector_default RawMemory_default data_ capacity_ size_ buffer_].
  replace (n <=? 0) with false by (symmetry; apply Nat.leb_gt; lia).
  erewrite bind_Ok; last by apply RawMemory_ctor_exact.
  unfold with_local.
  destruct (is_nothrow_move_constructible || negb is_copy_constructible);
    reflexivity.
Qed.

(** [Reserve] gives the larger of the two capacities. *)
Lemma Reserve_max_exact (xs : list T) spare n :
  relocation_transfers T ->
  (length xs + spare < n -> operator_new n = true) ->
  exists tr,
    Reserve n (vector_of xs spare)
    = Ok tt (vector_of xs (Nat.max n (length xs + spare) - length xs)) tr /\
    (n <= length xs + spare -> tr = []) /\
    (length xs + spare < n -> relocated (length xs) tr).
Proof.
  intros Htr Hnew.
  destruct (le_lt_dec n (length xs + spare)) as [Hle|Hlt].
  - exists []. rewrite Reserve_within_capacity by (simpl; lia).
    replace (Nat.max n (length xs + spare) - length xs) with spare by lia.
    repeat split. lia.
  - destruct (Reserve_exact xs spare Htr Hlt (Hnew Hlt)) as (tr & Hrun & Hrel & _).
    exists tr. rewrite Hrun.
    replace (Nat.max n (length xs + spare) - length xs) with (n - length xs) by lia.
    split; [done|]. split; [lia|done].
Qed.
End Compositions.

(** * Further properties of the code *)

(** X1: [EmplaceBack] on a vector whose buffer has a free slot
    constructs the new element in the first free slot and returns its
    place: nothing is allocated, no element is moved or copied, and the
    capacity stays; if the constructor of the new element throws, the
    exception leaves [EmplaceBack] with the vector as it was. *)
Theorem EmplaceBack_with_room_constructs_in_place {T : Type} `{Element T} `{Heap}
    (xs : list T) (spare : nat) :
  (forall x,
     EmplaceBack (Some x) (vector_of xs (S spare))
     = Ok (length xs) (vector_of (xs ++ [x]) spare) [EvEmplace x]) /\
  EmplaceBack None (vector_of xs (S spare))
  = Throw element_exn (vector_of xs (S spare)) [].
Proof.
  split.
  - intros x. apply EmplaceBack_in_place_exact.
  - apply EmplaceBack_in_place_throw_exact.
Qed.

(** X2: [EmplaceBack] on a vector whose buffer is full (length equal to
    capacity) allocates a buffer of one slot when the vector is empty and
    of twice the length otherwise, relocates every element, and returns
    with the new element after the old ones; given that [operator new]
    succeeds and that relocation transfers the values. *)
Theorem EmplaceBack_on_full_buffer_appends {T : Type} `{Element T} `{Heap}
    (xs : list T) (x : T) :
  relocation_transfers T ->
  operator_new (if length xs =? 0 then 1 else length xs * 2) = true ->
  exists tr,
    EmplaceBack (Some x) (vector_of xs 0)
    = Ok (length xs)
        (vector_of (xs ++ [x])
           ((if length xs =? 0 then 1 else length xs * 2) - length xs - 1)) tr /\
    relocated (length xs) tr.
Proof. apply EmplaceBack_growth_exact. Qed.

Lemma EmplaceBack_on_full_buffer_appends_witness :
  exists tr,
    @EmplaceBack Z int_element unlimited_heap (Some 3%Z) (vector_of [1; 2]%Z 0)
    = Ok 2 (vector_of [1; 2; 3]%Z 1) tr /\
    relocated 2 tr.
Proof.
  apply (@EmplaceBack_on_full_buffer_appends Z int_element unlimited_heap
           [1; 2]%Z 3%Z).
  - intros x. exists x. reflexivity.
  - reflexivity.
Defined.

(** X3: [Emplace] at a position of a vector whose buffer is full
    allocates a buffer of twice the length (of one slot for the empty
    vector), relocates every element, and returns the position of the
    new element, which stands between the elements that were before the
    position and those that were at and after it; given that
    [operator new] succeeds and that relocation transfers the values. *)
Theorem Emplace_on_full_buffer_inserts {T : Type} `{Element T} `{Heap}
    (xs1 xs2 : list T) (x : T) :
  relocation_transfers T ->
  operator_new (if length (xs1 ++ xs2) =? 0 then 1 else length (xs1 ++ xs2) * 2)
  = true ->
  exists tr,
    Emplace (Z.of_nat (length xs1)) (Some x) (vector_of (xs1 ++ xs2) 0)
    = Ok (Z.of_nat (length xs1))
        (vector_of (xs1 ++ x :: xs2)
           ((if length (xs1 ++ xs2) =? 0 then 1 else length (xs1 ++ xs2) * 2)
            - length (xs1 ++ xs2) - 1)) tr /\
    relocated (length (xs1 ++ xs2)) tr.
Proof. apply Emplace_growth_exact. Qed.

Lemma Emplace_on_full_buffer_inserts_witness :
  exists tr,
    @Emplace Z int_element unlimited_heap 1 (Some 9%Z) (vector_of [1; 2; 3]%Z 0)
    = Ok 1%Z (vector_of [1; 9; 2; 3]%Z 2) tr /\
    relocated 3 tr.
Proof.
  apply (@Emplace_on_full_buffer_inserts Z int_element unlimited_heap
           [1]%Z [2; 3]%Z 9%Z).
  - intros x. exists x. reflexivity.
  - reflexivity.
Defined.

(** X4: [Emplace] at [end()] of a vector that is not empty and has a
    free slot move-constructs the last element into the free slot,
    destroys that new object, and constructs the new element in its
    place: the vector ends with the moved-from state of its last element
    followed by the new element. *)
Theorem Emplace_at_end_with_room_leaves_moved_from_last {T : Type} `{Element T}
    `{Heap} (ys : list T) (l l' r x : T) (spare : nat) :
  move_construct l = Some (l', r) ->
  Emplace (Z.of_nat (length (ys ++ [l]))) (Some x) (vector_of (ys ++ [l]) (S spare))
  = Ok (Z.of_nat (length (ys ++ [l]))) (vector_of (ys ++ [r; x]) spare)
      [EvMoveCtor l; EvDestroy l'; EvEmplace x].
Proof. apply Emplace_in_place_at_end_exact. Qed.

Lemma Emplace_at_end_with_room_leaves_moved_from_last_witness :
  @Emplace unique_ptr unique_ptr_element unlimited_heap 2 (Some (Some 9%Z))
    (vector_of [Some 1%Z; Some 2%Z] 1)
  = Ok 2%Z (vector_of [Some 1%Z; None; Some 9%Z] 0)
      [EvMoveCtor (Some 2%Z); EvDestroy (Some 2%Z); EvEmplace (Some 9%Z)].
Proof.
  apply (@Emplace_at_end_with_room_leaves_moved_from_last unique_ptr
           unique_ptr_element unlimited_heap [Some 1%Z] (Some 2%Z) (Some 2%Z)
           None (Some 9%Z) 0).
  reflexivity.
Defined.

(** Insertion at any position of a vector that has a free slot, for an
    element type whose moves leave the source as it was. *)
Lemma Emplace_with_room_insertion {T : Type} `{Element T} `{Heap}
    (xs1 xs2 : list T) (x : T) (spare : nat) :
  move_keeps_source T ->
  exists tr,
    Emplace (Z.of_nat (length xs1)) (Some x) (vector_of (xs1 ++ xs2) (S spare))
    = Ok (Z.of_nat (length xs1)) (vector_of (xs1 ++ x :: xs2) spare) tr.
Proof.
  intros Hkeep. destruct xs2 as [|y ys].
  - destruct xs1 as [|z zs _] using rev_ind.
    + eexists. apply Emplace_in_place_empty_exact.
    + eexists. rewrite app_nil_r.
      rewrite (Emplace_in_place_at_end_exact zs z x spare (proj1 Hkeep z)).
      by rewrite <- app_assoc.
  - destruct (Emplace_in_place_middle_exact xs1 y ys x spare Hkeep) as [l Hrun].
    eexists. exact Hrun.
Qed.

(** X5: for an element type whose move construction and move
    assignment leave the source as it was, [Emplace] at any position of a
    vector that has a free slot returns with the new element at that
    position, the elements before it in place and the others one place
    further; the capacity stays. *)
Theorem Emplace_with_room_inserts_when_moves_keep_source {T : Type} `{Element T}
    `{Heap} (xs1 xs2 : list T) (x : T) (spare : nat) :
  move_keeps_source T ->
  exists tr,
    Emplace (Z.of_nat (length xs1)) (Some x) (vector_of (xs1 ++ xs2) (S spare))
    = Ok (Z.of_nat (length xs1)) (vector_of (xs1 ++ x :: xs2) spare) tr.
Proof. apply Emplace_with_room_insertion. Qed.

Lemma Emplace_with_room_inserts_when_moves_keep_source_witness :
  exists tr,
    @Emplace Z int_element unlimited_heap 1 (Some 9%Z) (vector_of [1; 2; 3]%Z 1)
    = Ok 1%Z (vector_of [1; 9; 2; 3]%Z 0) tr.
Proof.
  apply (@Emplace_with_room_inserts_when_moves_keep_source Z int_element
           unlimited_heap [1]%Z [2; 3]%Z 9%Z 0).
  split; reflexivity.
Defined.

(** X6: when the constructor of the new element throws in an [Emplace]
    before an element of a vector that has a free slot, the exception
    leaves [Emplace] after the elements have been shifted: the length is
    the old one, the slot at the position holds no object, and the
    destructor of the vector then destroys a slot that holds no object
    (for an element type whose moves leave the source as it was). *)
Theorem Emplace_with_room_constructor_failure_leaves_hole {T : Type} `{Element T}
    `{Heap} (xs1 : list T) (y : T) (ys : list T) (spare : nat) :
  move_keeps_source T ->
  exists tr,
    Emplace (Z.of_nat (length xs1)) None (vector_of (xs1 ++ y :: ys) (S spare))
    = Throw element_exn (with_hole xs1 y ys spare) tr /\
    Size (with_hole xs1 y ys spare) = length (xs1 ++ y :: ys) /\
    elements (with_hole xs1 y ys spare) !! length xs1 = Some Raw /\
    Vector_dtor (with_hole xs1 y ys spare) = Fatal undefined_behaviour.
Proof.
  intros Hkeep.
  destruct (Emplace_in_place_middle_throw_exact xs1 y ys spare Hkeep) as [l Hrun].
  eexists. split; [exact Hrun|]. split; [done|]. split.
  - unfold elements, with_hole. cbn [size_ data_ buffer_].
    rewrite lookup_take_lt by (rewrite length_app; simpl; lia).
    apply list_lookup_middle. by rewrite length_fmap.
  - apply Vector_dtor_with_hole.
Qed.

Lemma Emplace_with_room_constructor_failure_leaves_hole_witness :
  exists tr,
    @Emplace Z int_element unlimited_heap 1 None (vector_of [1; 2; 3]%Z 1)
    = Throw element_exn (with_hole [1]%Z 2%Z [3]%Z 0) tr /\
    Size (with_hole [1]%Z 2%Z [3]%Z 0) = 3 /\
    elements (with_hole [1]%Z 2%Z [3]%Z 0) !! 1 = Some Raw /\
    Vector_dtor (with_hole [1]%Z 2%Z [3]%Z 0) = Fatal undefined_behaviour.
Proof.
  apply (@Emplace_with_room_constructor_failure_leaves_hole Z int_element
           unlimited_heap [1]%Z 2%Z [3]%Z 0).
  split; reflexivity.
Defined.

(** X7: a program that makes an empty vector and appends the values
    [ys] to it one at a time with [EmplaceBack] returns with the vector
    of [ys], and all its reallocations together move or copy at most
    twice as many elements as were appended; given that [operator new]
    succeeds and that relocation transfers the values. *)
Theorem appending_relocates_at_most_twice_the_count {T : Type} `{Element T}
    `{Heap} (ys : list T) :
  relocation_transfers T ->
  (forall n, operator_new n = true) ->
  exists spare tr,
    run (op_Vector_default :: ((fun y => op_EmplaceBack 0 (Some y)) <$> ys)) []
    = Ok tt [vector_of ys spare] tr /\
    spare <= length ys /\
    moves tr + copies tr <= 2 * length ys.
Proof.
  intros Htr Hnew.
  destruct (run_EmplaceBack_exact ys [] (spare := 0) Htr Hnew)
    as (spare & tr & Hrun & Hsp & Hcount); [done|].
  exists spare, tr. simpl in Hsp. split; [|split; [done|lia]].
  cbn [run]. erewrite bind_Ok; last reflexivity.
  cbn [app]. rewrite after_nil. exact Hrun.
Qed.

Lemma appending_relocates_at_most_twice_the_count_witness :
  exists spare tr,
    @run Z int_element unlimited_heap
      (op_Vector_default
         :: ((fun y => op_EmplaceBack 0 (Some y)) <$> [1; 2; 3]%Z)) []
    = Ok tt [vector_of [1; 2; 3]%Z spare] tr /\
    spare <= 3 /\
    moves tr + copies tr <= 6.
Proof.
  apply (@appending_relocates_at_most_twice_the_count Z int_element
           unlimited_heap [1; 2; 3]%Z).
  - intros x. exists x. reflexivity.
  - reflexivity.
Defined.

(** X8: a program that appends values with [EmplaceBack] to a vector
    that has at least as many free slots constructs them one after the
    other in the free slots: nothing is allocated and no element is
    moved, copied or destroyed. *)
Theorem appending_within_capacity_never_reallocates {T : Type} `{Element T}
    `{Heap} (xs ys : list T) (spare : nat) :
  length ys <= spare ->
  run ((fun y => op_EmplaceBack 0 (Some y)) <$> ys) [vector_of xs spare]
  = Ok tt [vector_of (xs ++ ys) (spare - length ys)] (EvEmplace <$> ys).
Proof. apply run_EmplaceBack_in_place_exact. Qed.

Lemma appending_within_capacity_never_reallocates_witness :
  @run Z int_element unlimited_heap
    ((fun y => op_EmplaceBack 0 (Some y)) <$> [3; 4]%Z) [vector_of [1; 2]%Z 2]
  = Ok tt [vector_of [1; 2; 3; 4]%Z 0] [EvEmplace 3%Z; EvEmplace 4%Z].
Proof.
  apply (@appending_within_capacity_never_reallocates Z int_element
           unlimited_heap [1; 2]%Z [3; 4]%Z 2).
  simpl. lia.
Defined.

(** X9: a program that makes an empty vector, calls [Reserve(n)] for
    [n] elements that fit and appends at most [n] values allocates once,
    the buffer of [n] slots, and constructs the values in it. *)
Theorem Reserve_then_append_allocates_once {T : Type} `{Element T} `{Heap}
    `{Sized T} (ys : list T) (n : nat) :
  n <> 0 -> length ys <= n -> fits T n = true -> operator_new n = true ->
  run (op_Vector_default :: op_Reserve 0 n
         :: ((fun y => op_EmplaceBack 0 (Some y)) <$> ys)) []
  = Ok tt [vector_of ys (n - length ys)] (EvAllocate n :: (EvEmplace <$> ys)).
Proof.
  intros Hn Hlen _ Hnew. cbn [run].
  erewrite bind_Ok; last reflexivity.
  cbn [app]. rewrite after_nil.
  erewrite bind_Ok; last first.
  { unfold exec. eapply call_exact; [reflexivity|].
    by apply Reserve_empty_exact. }
  cbn [insert list_insert].
  by rewrite run_EmplaceBack_in_place_exact.
Qed.

Lemma Reserve_then_append_allocates_once_witness :
  @run Z int_element unlimited_heap
    (op_Vector_default :: op_Reserve 0 4
       :: ((fun y => op_EmplaceBack 0 (Some y)) <$> [1; 2; 3; 4]%Z)) []
  = Ok tt [vector_of [1; 2; 3; 4]%Z 0]
      [EvAllocate 4; EvEmplace 1%Z; EvEmplace 2%Z; EvEmplace 3%Z; EvEmplace 4%Z].
Proof.
  apply (@Reserve_then_append_allocates_once Z int_element unlimited_heap
           int_sized [1; 2; 3; 4]%Z 4).
  - lia.
  - simpl. lia.
  - reflexivity.
  - reflexivity.
Defined.

(** X10: the copy constructor makes a vector that holds copies of the
    elements of the source, in the same order, in a buffer of exactly as
    many slots as the source has elements, whatever the capacity of the
    source; it asks for no storage when the source is empty.  Given that
    the copy constructor of the elements gives a copy and that
    [operator new] succeeds. *)
Theorem copy_constructor_copies_into_exact_buffer {T : Type} `{Element T} `{Heap}
    {St : Type} (xs : list T) (spare : nat) (s : St) :
  (forall x : T, copy_construct x = Some x) ->
  (length xs <> 0 -> operator_new (length xs) = true) ->
  Vector_copy (vector_of xs spare) s
  = Ok (vector_of xs 0) s
      ((if length xs =? 0 then [] else [EvAllocate (length xs)])
         ++ (EvCopyCtor <$> xs)).
Proof. apply Vector_copy_exact. Qed.

Lemma copy_constructor_copies_into_exact_buffer_witness :
  @Vector_copy Z int_element unlimited_heap unit (vector_of [1; 2]%Z 3) tt
  = Ok (vector_of [1; 2]%Z 0) tt
      [EvAllocate 2; EvCopyCtor 1%Z; EvCopyCtor 2%Z].
Proof.
  apply (@copy_constructor_copies_into_exact_buffer Z int_element
           unlimited_heap unit [1; 2]%Z 3 tt).
  - reflexivity.
  - reflexivity.
Defined.

(** X11: when the copy constructor of the vector fails, no vector is
    made and nothing made on the way is left: if [operator new] fails,
    [std::bad_alloc] leaves the constructor before any element is copied;
    if the copy constructor of an element throws, the copies made before
    it are destroyed, first to last, and the exception goes on. *)
Theorem copy_constructor_failure_destroys_the_copies {T : Type} `{Element T}
    `{Heap} {St : Type} (xs1 : list T) (z : T) (xs2 : list T) (spare : nat)
    (s : St) :
  (operator_new (length (xs1 ++ z :: xs2)) = false ->
   Vector_copy (vector_of (xs1 ++ z :: xs2) spare) s = Throw bad_alloc s []) /\
  (Forall (fun x => copy_construct x = Some x) xs1 ->
   copy_construct z = None ->
   operator_new (length (xs1 ++ z :: xs2)) = true ->
   Vector_copy (vector_of (xs1 ++ z :: xs2) spare) s
   = Throw element_exn s
       (EvAllocate (length (xs1 ++ z :: xs2))
          :: (EvCopyCtor <$> xs1) ++ (EvDestroy <$> xs1))).
Proof.
  split.
  - intros Hnew. apply Vector_copy_bad_alloc; [|done].
    rewrite length_app. simpl. lia.
  - apply Vector_copy_throw_exact.
Qed.

Lemma copy_constructor_failure_destroys_the_copies_witness :
  @Vector_copy guarded guarded_element small_heap unit
    (vector_of (replicate 8 (Guarded 1) ++ Guarded 2 :: []) 0) tt
  = Throw bad_alloc tt [] /\
  @Vector_copy guarded guarded_element small_heap unit
    (vector_of ([Guarded 1; Guarded 2] ++ Guarded 13 :: [Guarded 4]) 0) tt
  = Throw element_exn tt
      [EvAllocate 4; EvCopyCtor (Guarded 1); EvCopyCtor (Guarded 2);
       EvDestroy (Guarded 1); EvDestroy (Guarded 2)].
Proof.
  split.
  - apply (proj1 (@copy_constructor_failure_destroys_the_copies guarded
                    guarded_element small_heap unit (replicate 8 (Guarded 1))
                    (Guarded 2) [] 0 tt)).
    reflexivity.
  - apply (proj2 (@copy_constructor_failure_destroys_the_copies guarded
                    guarded_element small_heap unit [Guarded 1; Guarded 2]
                    (Guarded 13) [Guarded 4] 0 tt)).
    + repeat constructor.
    + reflexivity.
    + reflexivity.
Defined.

(** X12: [Vector(size)], for [size] elements that fit, makes a vector
    of [size] value-initialised elements in a buffer of exactly [size]
    slots, and asks for no storage when [size] is 0; given that
    value-initialisation does not throw and that [operator new]
    succeeds. *)
Theorem sized_constructor_value_initialises {T : Type} `{Element T} `{Heap}
    `{Sized T} {St : Type} (size : nat) (d : T) (s : St) :
  value_construct = Some d ->
  fits T size = true ->
  (size <> 0 -> operator_new size = true) ->
  Vector_sized size s
  = Ok (vector_of (replicate size d) 0) s
      ((if size =? 0 then [] else [EvAllocate size])
         ++ replicate size (EvValueInit d)).
Proof. intros Hd _. by apply Vector_sized_exact. Qed.

Lemma sized_constructor_value_initialises_witness :
  @Vector_sized Z int_element unlimited_heap unit 2 tt
  = Ok (vector_of [0; 0]%Z 0) tt [EvAllocate 2; EvValueInit 0%Z; EvValueInit 0%Z].
Proof.
  apply (@sized_constructor_value_initialises Z int_element unlimited_heap
           int_sized unit 2 0%Z tt).
  - reflexivity.
  - reflexivity.
  - reflexivity.
Defined.

(** X13: the destructor of a vector destroys every element exactly
    once, from the first to the last, and touches no slot past the
    length. *)
Theorem destructor_destroys_each_element_once {T : Type}
    (xs : list T) (spare : nat) :
  Vector_dtor (vector_of xs spare)
  = Ok tt (set_size (length xs) (vector_of [] (length xs + spare)))
      (EvDestroy <$> xs).
Proof. apply Vector_dtor_exact. Qed.

(** X14: copy assignment from another vector makes [this] hold copies
    of the elements of [rhs] and leaves every other vector of the store,
    [rhs] among them, as it was.  When the capacity of [this] suffices
    its buffer is kept; otherwise [this] gets a buffer of exactly as many
    slots as [rhs] has elements.  Given that copying an element gives a
    copy and that [operator new] succeeds when it is called. *)
Theorem copy_assignment_copies_the_elements {T : Type} `{Element T} `{Heap}
    (this rhs : nat) (st : objects T) (ts : list T) (spare_t : nat)
    (rs : list T) (spare_r : nat) :
  copy_transfers T ->
  this <> rhs ->
  st !! this = Some (vector_of ts spare_t) ->
  st !! rhs = Some (vector_of rs spare_r) ->
  (length ts + spare_t < length rs -> operator_new (length rs) = true) ->
  exists tr,
    assign_copy this rhs st
    = Ok tt
        (<[this := vector_of rs
                     (if length ts + spare_t <? length rs then 0
                      else length ts + spare_t - length rs)]> st)
        tr.
Proof.
  intros Hcopy Hne Ht Hr Hnew.
  destruct (Nat.ltb_spec (length ts + spare_t) (length rs)) as [Hlt|Hge].
  - eexists. apply (assign_copy_realloc_exact _ (proj1 Hcopy) Hne Ht Hr Hlt).
    by apply Hnew.
  - destruct (le_lt_dec (length ts) (length rs)) as [Hle|Hgt].
    + assert (exists rs1 rs2, rs = rs1 ++ rs2 /\ length rs1 = length ts /\
                               length rs2 = length rs - length ts)
        as (rs1 & rs2 & -> & Hlen1 & Hlen2).
      { exists (take (length ts) rs), (drop (length ts) rs).
        rewrite take_drop, length_take, length_drop. repeat split. lia. }
      rewrite length_app in Hlen2, Hge.
      eexists. erewrite assign_copy_grow_exact; [|done..|lia].
      do 3 f_equal. rewrite length_app. lia.
    + assert (exists ts1 ts2, ts = ts1 ++ ts2 /\ length ts1 = length rs /\
                               length ts2 = length ts - length rs)
        as (ts1 & ts2 & -> & Hlen1 & Hlen2).
      { exists (take (length rs) ts), (drop (length rs) ts).
        rewrite take_drop, length_take, length_drop. repeat split. lia. }
      rewrite length_app in Hlen2, Hgt.
      eexists. erewrite assign_copy_shrink_exact;
        [|exact (proj2 Hcopy)|done..|by destruct ts2; [simpl in *; lia|]].
      do 3 f_equal. rewrite length_app. lia.
Qed.

Lemma copy_assignment_copies_the_elements_witness :
  exists tr,
    @assign_copy Z int_element unlimited_heap 0 1
      [vector_of [1; 2; 3]%Z 1; vector_of [7; 8]%Z 0]
    = Ok tt [vector_of [7; 8]%Z 2; vector_of [7; 8]%Z 0] tr.
Proof.
  apply (@copy_assignment_copies_the_elements Z int_element unlimited_heap 0 1
           [vector_of [1; 2; 3]%Z 1; vector_of [7; 8]%Z 0] [1; 2; 3]%Z 1
           [7; 8]%Z 0).
  - split; reflexivity.
  - lia.
  - reflexivity.
  - reflexivity.
  - reflexivity.
Defined.

(** X15: copy assignment is declared [noexcept] and allocates: when the
    capacity of [this] is below the length of [rhs] and [operator new]
    fails, the program is terminated. *)
Theorem copy_assignment_terminates_when_allocation_fails {T : Type} `{Element T}
    `{Heap} (this rhs : nat) (st : objects T) (t r : Vector T) :
  this <> rhs ->
  st !! this = Some t -> st !! rhs = Some r ->
  Capacity t < Size r ->
  operator_new (Size r) = false ->
  assign_copy this rhs st = Fatal terminated.
Proof. apply assign_copy_bad_alloc. Qed.

Lemma copy_assignment_terminates_when_allocation_fails_witness :
  @assign_copy Z int_element small_heap 0 1
    [vector_of [] 0; vector_of (replicate 9 5%Z) 0]
  = Fatal terminated.
Proof.
  apply (@copy_assignment_terminates_when_allocation_fails Z int_element
           small_heap 0 1 [vector_of [] 0; vector_of (replicate 9 5%Z) 0]
           (vector_of [] 0) (vector_of (replicate 9 5%Z) 0)).
  - lia.
  - reflexivity.
  - reflexivity.
  - vm_compute. lia.
  - reflexivity.
Defined.

(** X16: [Reserve(n)], for [n] elements that fit, never lowers the
    capacity and keeps the elements: it returns with the same elements
    and the larger of [n] and the old capacity; when [n] is within the
    capacity nothing happens at all, and otherwise every element is
    relocated once.  Given that relocation transfers the values and that
    [operator new] succeeds when it is called. *)
Theorem Reserve_keeps_elements_and_larger_capacity {T : Type} `{Element T}
    `{Heap} `{Sized T} (xs : list T) (spare n : nat) :
  relocation_transfers T ->
  fits T n = true ->
  (length xs + spare < n -> operator_new n = true) ->
  exists tr,
    Reserve n (vector_of xs spare)
    = Ok tt (vector_of xs (Nat.max n (length xs + spare) - length xs)) tr /\
    (n <= length xs + spare -> tr = []) /\
    (length xs + spare < n -> relocated (length xs) tr).
Proof. intros Htr _. by apply Reserve_max_exact. Qed.

Lemma Reserve_keeps_elements_and_larger_capacity_witness :
  exists tr,
    @Reserve Z int_element unlimited_heap 8 (vector_of [1; 2; 3]%Z 1)
    = Ok tt (vector_of [1; 2; 3]%Z 5) tr /\
    (8 <= 4 -> tr = []) /\
    (4 < 8 -> relocated 3 tr).
Proof.
  apply (@Reserve_keeps_elements_and_larger_capacity Z int_element
           unlimited_heap int_sized [1; 2; 3]%Z 1 8).
  - intros x. exists x. reflexivity.
  - reflexivity.
  - reflexivity.
Defined.

(** X17: [Erase] at [end()] is undefined behaviour for every vector:
    the test [pos <= end()] lets the position through, and [std::move] is
    then called with the first iterator one past the last. *)
Theorem Erase_at_end_is_undefined {T : Type} `{Element T} (v : Vector T) :
  Erase (Z.of_nat (Size v)) v = Fatal undefined_behaviour.
Proof. apply Erase_at_end_exact. Qed.

(** X18: [operator[]] with an index below the length gives the element
    at that index and changes nothing. *)
Theorem subscript_reads_the_element {T : Type} (xs : list T)
    (spare i : nat) (x : T) :
  xs !! i = Some x ->
  subscript i (vector_of xs spare) = Ok x (vector_of xs spare) [].
Proof. apply subscript_exact. Qed.

Lemma subscript_reads_the_element_witness :
  subscript 1 (vector_of [4; 5; 6]%Z 2) = Ok 5%Z (vector_of [4; 5; 6]%Z 2) [].
Proof.
  apply (@subscript_reads_the_element Z [4; 5; 6]%Z 2 1 5%Z).
  reflexivity.
Defined.

(** X19: swapping two vectors twice gives back the store it started
    from; no element is constructed, assigned or destroyed. *)
Theorem Swap_twice_is_identity {T : Type}
    (this other : nat) (st : objects T) (a b : Vector T) :
  st !! this = Some a -> st !! other = Some b ->
  (Swap this other ;; Swap this other) st = Ok tt st [].
Proof. apply Swap_Swap_exact. Qed.

Lemma Swap_twice_is_identity_witness :
  (Swap 0 1 ;; Swap 0 1) [vector_of [1]%Z 0; vector_of [2; 3]%Z 1]
  = Ok tt [vector_of [1]%Z 0; vector_of [2; 3]%Z 1] [].
Proof.
  apply (@Swap_twice_is_identity Z 0 1
           [vector_of [1]%Z 0; vector_of [2; 3]%Z 1]
           (vector_of [1]%Z 0) (vector_of [2; 3]%Z 1)).
  - reflexivity.
  - reflexivity.
Defined.

Section RoundTrips.
Context {T : Type} `{Element T} `{Heap}.

(** [Resize] to a larger length within the capacity when
    value-initialisation throws. *)
Lemma Resize_grow_throw_exact (xs : list T) spare k :
  value_construct = None ->
  length xs < k -> k <= length xs + spare ->
  Resize k (vector_of xs spare) = Throw element_exn (vector_of xs spare) [].
Proof.
  intros Hd Hlt Hle. unfold Resize. rewrite bind_get.
  unfold Capacity, RawMemory_Capacity. cbn [vector_of size_ data_ capacity_].
  replace (k <? length xs) with false by (symmetry; apply Nat.ltb_ge; lia).
  replace (length xs + spare <? k) with false
    by (symmetry; apply Nat.ltb_ge; lia).
  erewrite bind_Throw; [reflexivity|].
  erewrite bind_Ok; last reflexivity.
  rewrite after_nil.
  destruct spare as [|spare]; [lia|].
  destruct (k - length xs) as [|m] eqn:Hk; [lia|].
  unfold zoom, uninitialized_value_construct_n.
  cbn [uninitialized_value_construct_loop view this_buffer compose_lens
       data_lens buffer_lens buffer_ data_ replicate].
  unfold bind at 1. unfold catch_rethrow, construct_at.
  unfold bind at 1. unfold slot_at.
  cbn [vector_of buffer_ data_ replicate].
  rewrite list_lookup_middle by (by rewrite length_fmap).
  rewrite Hd. cbn [after throw app]. unfold destroy.
  rewrite Nat.sub_diag. reflexivity.
Qed.

(** [Erase] before an element whose move assignment throws. *)
Lemma Erase_move_assign_throw_exact (pre : list T) x y post spare :
  move_assign x y = None ->
  Erase (Z.of_nat (length pre)) (vector_of (pre ++ x :: y :: post) spare)
  = Fatal terminated.
Proof.
  intros Hmv. unfold Erase, noexcept. rewrite bind_get.
  cbn [vector_of size_ data_ capacity_].
  rewrite Nat2Z.id.
  assert (length (pre ++ x :: y :: post) = length pre + S (S (length post)))
    as Hlen by (rewrite length_app; simpl; lia).
  replace ((0 <=? Z.of_nat (length pre))%Z
           && (Z.of_nat (length pre) <=? Z.of_nat (length (pre ++ x :: y :: post)))%Z)
    with true; last first.
  { symmetry. apply andb_true_iff. split; apply Z.leb_le; lia. }
  erewrite bind_Throw; [reflexivity|].
  erewrite bind_Throw; [reflexivity|].
  apply zoom_Throw.
  cbn [view this_buffer compose_lens data_lens buffer_lens buffer_ data_].
  unfold std_move. rewrite Hlen.
  replace (length pre + S (S (length post)) <? length pre + 1) with false
    by (symmetry; apply Nat.ltb_ge; lia).
  replace (length pre + S (S (length post)) - (length pre + 1))
    with (S (length post)) by lia.
  cbn [move_loop].
  erewrite bind_Throw; [reflexivity|].
  unfold move_assign_at. cbn [vector_of buffer_ data_].
  rewrite fmap_app, <- app_assoc. cbn [app fmap list_fmap].
  erewrite bind_Ok; last first.
  { rewrite (cons_middle (Live x)), app_assoc.
    apply deref_middle. rewrite length_app, length_fmap. simpl. lia. }
  rewrite after_nil.
  erewrite bind_Ok; last first.
  { rewrite <- app_assoc. cbn [app]. apply deref_middle.
    by rewrite length_fmap. }
  rewrite after_nil, Hmv. reflexivity.
Qed.
End RoundTrips.

(** X20: [PopBack] after [EmplaceBack] gives back the elements the
    vector had.  With a free slot the vector is exactly the one before,
    the new element having been constructed and destroyed; on a full
    buffer the elements are the same and the capacity is the grown one
    (given that [operator new] succeeds and that relocation transfers the
    values). *)
Theorem PopBack_undoes_EmplaceBack {T : Type} `{Element T} `{Heap}
    (xs : list T) (x : T) :
  (forall spare,
     (EmplaceBack (Some x) ;; PopBack) (vector_of xs (S spare))
     = Ok tt (vector_of xs (S spare)) [EvEmplace x; EvDestroy x]) /\
  (relocation_transfers T ->
   operator_new (if length xs =? 0 then 1 else length xs * 2) = true ->
   exists tr,
     (EmplaceBack (Some x) ;; PopBack) (vector_of xs 0)
     = Ok tt
         (vector_of xs
            ((if length xs =? 0 then 1 else length xs * 2) - length xs))
         (tr ++ [EvDestroy x]) /\
     relocated (length xs) tr).
Proof.
  split.
  - intros spare.
    erewrite bind_Ok; last by apply EmplaceBack_in_place_exact.
    by rewrite PopBack_exact.
  - intros Htr Hnew.
    destruct (EmplaceBack_growth_exact xs x Htr Hnew) as (tr & Hrun & Hrel).
    exists tr. split; [|done].
    erewrite bind_Ok; last exact Hrun.
    rewrite PopBack_exact. cbn [after]. do 2 f_equal.
    destruct (length xs); simpl; lia.
Qed.

Lemma PopBack_undoes_EmplaceBack_witness :
  exists tr,
    (@EmplaceBack Z int_element unlimited_heap (Some 3%Z) ;; PopBack)
      (vector_of [1; 2]%Z 0)
    = Ok tt (vector_of [1; 2]%Z 2) (tr ++ [EvDestroy 3%Z]) /\
    relocated 2 tr.
Proof.
  apply (proj2 (@PopBack_undoes_EmplaceBack Z int_element unlimited_heap
                  [1; 2]%Z 3%Z)).
  - intros x. exists x. reflexivity.
  - reflexivity.
Defined.

(** X21: [Erase] at the iterator that [Emplace] returned gives back the
    elements the vector had, for an element type whose moves leave the
    source as it was.  With a free slot the vector is exactly the one
    before; on a full buffer the elements are the same and the capacity
    is the grown one (given that [operator new] succeeds and that
    relocation transfers the values). *)
Theorem Erase_undoes_Emplace {T : Type} `{Element T} `{Heap}
    (xs1 xs2 : list T) (x : T) :
  move_keeps_source T ->
  (forall spare,
     exists tr,
       (p <- Emplace (Z.of_nat (length xs1)) (Some x) ;; Erase p)
         (vector_of (xs1 ++ xs2) (S spare))
       = Ok (Z.of_nat (length xs1)) (vector_of (xs1 ++ xs2) (S spare)) tr) /\
  (relocation_transfers T ->
   operator_new (if length (xs1 ++ xs2) =? 0 then 1 else length (xs1 ++ xs2) * 2)
   = true ->
   exists tr,
     (p <- Emplace (Z.of_nat (length xs1)) (Some x) ;; Erase p)
       (vector_of (xs1 ++ xs2) 0)
     = Ok (Z.of_nat (length xs1))
         (vector_of (xs1 ++ xs2)
            ((if length (xs1 ++ xs2) =? 0 then 1 else length (xs1 ++ xs2) * 2)
             - length (xs1 ++ xs2))) tr).
Proof.
  intros Hkeep.
  assert (move_assign_transfers T) as Hassign.
  { intros d s. exists s. apply (proj2 Hkeep). }
  split.
  - intros spare.
    destruct (Emplace_with_room_insertion xs1 xs2 x spare Hkeep) as [tr Hrun].
    destruct (Erase_middle_exact xs1 x xs2 spare Hassign) as [r Herase].
    eexists. erewrite bind_Ok; last exact Hrun.
    rewrite Herase. reflexivity.
  - intros Htr Hnew.
    destruct (Emplace_growth_exact xs1 xs2 x Htr Hnew) as (tr & Hrun & _).
    destruct (Erase_middle_exact xs1 x xs2
                ((if length (xs1 ++ xs2) =? 0 then 1
                  else length (xs1 ++ xs2) * 2) - length (xs1 ++ xs2) - 1)
                Hassign) as [r Herase].
    eexists. erewrite bind_Ok; last exact Hrun.
    rewrite Herase. cbn [after]. do 2 f_equal.
    destruct (length (xs1 ++ xs2)); simpl; lia.
Qed.

Lemma Erase_undoes_Emplace_witness :
  exists tr,
    (p <- @Emplace Z int_element unlimited_heap 1 (Some 9%Z) ;; Erase p)
      (vector_of [1; 2; 3]%Z 1)
    = Ok 1%Z (vector_of [1; 2; 3]%Z 1) tr.
Proof.
  refine (proj1 (@Erase_undoes_Emplace Z int_element unlimited_heap
                   [1]%Z [2; 3]%Z 9%Z _) 0).
  split; reflexivity.
Defined.

(** X22: [operator[]] at the position [Emplace] returned gives the
    element that was inserted, on a full buffer (given that
    [operator new] succeeds and that relocation transfers the values)
    and, for an element type whose moves leave the source as it was, on
    a buffer with a free slot. *)
Theorem subscript_after_Emplace_reads_the_new_element {T : Type} `{Element T}
    `{Heap} (xs1 xs2 : list T) (x : T) :
  (relocation_transfers T ->
   operator_new (if length (xs1 ++ xs2) =? 0 then 1 else length (xs1 ++ xs2) * 2)
   = true ->
   exists v tr,
     (p <- Emplace (Z.of_nat (length xs1)) (Some x) ;; subscript (Z.to_nat p))
       (vector_of (xs1 ++ xs2) 0)
     = Ok x v tr) /\
  (move_keeps_source T ->
   forall spare,
     exists v tr,
       (p <- Emplace (Z.of_nat (length xs1)) (Some x) ;; subscript (Z.to_nat p))
         (vector_of (xs1 ++ xs2) (S spare))
       = Ok x v tr).
Proof.
  split.
  - intros Htr Hnew.
    destruct (Emplace_growth_exact xs1 xs2 x Htr Hnew) as (tr & Hrun & _).
    eexists _, _. erewrite bind_Ok; last exact Hrun.
    rewrite Nat2Z.id, subscript_middle. reflexivity.
  - intros Hkeep spare.
    destruct (Emplace_with_room_insertion xs1 xs2 x spare Hkeep) as [tr Hrun].
    eexists _, _. erewrite bind_Ok; last exact Hrun.
    rewrite Nat2Z.id, subscript_middle. reflexivity.
Qed.

Lemma subscript_after_Emplace_reads_the_new_element_witness :
  exists v tr,
    (p <- @Emplace Z int_element unlimited_heap 1 (Some 9%Z) ;;
     subscript (Z.to_nat p))
      (vector_of [1; 2; 3]%Z 0)
    = Ok 9%Z v tr.
Proof.
  apply (proj1 (@subscript_after_Emplace_reads_the_new_element Z int_element
                  unlimited_heap [1]%Z [2; 3]%Z 9%Z)).
  - intros x. exists x. reflexivity.
  - reflexivity.
Defined.

(** X23: [Resize] to a larger length within the capacity, when
    value-initialisation of the element type throws: the exception
    leaves [Resize] and the vector is as it was, length included. *)
Theorem Resize_failure_within_capacity_keeps_vector {T : Type} `{Element T}
    `{Heap} (xs : list T) (spare k : nat) :
  value_construct = None ->
  length xs < k -> k <= length xs + spare ->
  Resize k (vector_of xs spare) = Throw element_exn (vector_of xs spare) [].
Proof. apply Resize_grow_throw_exact. Qed.

Lemma Resize_failure_within_capacity_keeps_vector_witness :
  @Resize brittle brittle_element unlimited_heap 3 (vector_of [Brittle 1] 2)
  = Throw element_exn (vector_of [Brittle 1] 2) [].
Proof.
  apply (@Resize_failure_within_capacity_keeps_vector brittle brittle_element
           unlimited_heap [Brittle 1] 2 3).
  - reflexivity.
  - simpl. lia.
  - simpl. lia.
Defined.

(** X24: [Erase] is declared [noexcept]: when the move assignment of
    the element after the erased one throws, the program is terminated. *)
Theorem Erase_terminates_when_move_assignment_throws {T : Type} `{Element T}
    (pre : list T) (x y : T) (post : list T) (spare : nat) :
  move_assign x y = None ->
  Erase (Z.of_nat (length pre)) (vector_of (pre ++ x :: y :: post) spare)
  = Fatal terminated.
Proof. apply Erase_move_assign_throw_exact. Qed.

Lemma Erase_terminates_when_move_assignment_throws_witness :
  @Erase brittle brittle_element 1
    (vector_of ([Brittle 1] ++ Brittle 2 :: Brittle 13 :: [Brittle 4]) 0)
  = Fatal terminated.
Proof.
  apply (@Erase_terminates_when_move_assignment_throws brittle brittle_element
           [Brittle 1] (Brittle 2) (Brittle 13) [Brittle 4] 0).
  reflexivity.
Defined.

(** * Live slots *)

Section LiveSlots.
Context {T : Type} `{Element T}.

#[local] Abbreviation sat := (sat (T:=T)).

Lemma live_slots_insert (b : block T) p s :
  live_slots (<[p := s]> b) = <[p := is_live s]> (live_slots b).
Proof. unfold live_slots. by rewrite list_fmap_insert. Qed.

Lemma live_slots_length (b : block T) : length (live_slots b) = length b.
Proof. unfold live_slots. by rewrite length_fmap. Qed.

Lemma live_slots_all_live (b : block T) n :
  live_slots b = replicate n true -> exists xs, b = Live <$> xs /\ length xs = n.
Proof.
  revert n. induction b as [|s b IH]; intros n Hb.
  - destruct n; [|discriminate]. by exists [].
  - destruct n as [|n]; [discriminate|].
    unfold live_slots in Hb. rewrite fmap_cons in Hb. simpl in Hb.
    injection Hb as Hs Hb. destruct s as [|x]; [discriminate|].
    destruct (IH n Hb) as (xs & -> & <-). by exists (x :: xs).
Qed.

Lemma live_slots_all_raw (b : block T) n :
  live_slots b = replicate n false -> b = replicate n Raw.
Proof.
  revert n. induction b as [|s b IH]; intros n Hb.
  - by destruct n.
  - destruct n as [|n]; [discriminate|].
    unfold live_slots in Hb. rewrite fmap_cons in Hb. simpl in Hb.
    injection Hb as Hs Hb. destruct s; [|discriminate].
    simpl. f_equal. by apply IH.
Qed.

Lemma live_slots_app_inv (b : block T) l1 l2 :
  live_slots b = l1 ++ l2 ->
  exists b1 b2, b = b1 ++ b2 /\ live_slots b1 = l1 /\ live_slots b2 = l2.
Proof.
  intros Hb. exists (take (length l1) b), (drop (length l1) b).
  rewrite take_drop. split; [done|].
  unfold live_slots in *. rewrite fmap_take, fmap_drop, Hb.
  by rewrite take_app_length, drop_app_length.
Qed.

Lemma live_slots_app (b1 b2 : block T) :
  live_slots (b1 ++ b2) = live_slots b1 ++ live_slots b2.
Proof. unfold live_slots. by rewrite fmap_app. Qed.

Lemma live_slots_Live (xs : list T) :
  live_slots (Live <$> xs) = replicate (length xs) true.
Proof. induction xs as [|x xs IH]; [done|]. simpl. by rewrite <- IH. Qed.

Lemma live_slots_Raw n : live_slots (replicate n (@Raw T)) = replicate n false.
Proof. unfold live_slots. by rewrite fmap_replicate. Qed.

(** A vector is well formed when its first [size_] slots and only they
    hold objects. *)
Lemma well_formed_live_slots (v : Vector T) :
  well_formed v <->
  live_slots (buffer_ (data_ v))
  = replicate (size_ v) true ++ replicate (capacity_ (data_ v) - size_ v) false /\
  size_ v <= capacity_ (data_ v).
Proof.
  split.
  - intros (xs & spare & ->). simpl. split; [|lia].
    rewrite live_slots_app, live_slots_Live, live_slots_Raw.
    by replace (length xs + spare - length xs) with spare by lia.
  - intros [Hb Hle]. destruct v as [[b c] n]. simpl in *.
    destruct (live_slots_app_inv _ _ _ Hb) as (b1 & b2 & -> & Hb1 & Hb2).
    destruct (live_slots_all_live _ _ Hb1) as (xs & -> & Hxs).
    apply live_slots_all_raw in Hb2. subst b2.
    exists xs, (c - n). unfold vector_of. subst n.
    apply vector_ext; [done|lia|done].
Qed.

(** ** What the algorithms do to the live slots *)

Lemma replicate_middle {A} k (x : A) l :
  replicate k x ++ x :: l = x :: replicate k x ++ l.
Proof. induction k as [|k IH]; [done|]. simpl. by rewrite IH. Qed.

Lemma replicate_snoc_app {A} n (x : A) l :
  replicate n x ++ x :: l = replicate (n + 1) x ++ l.
Proof. by rewrite replicate_add, <- app_assoc. Qed.

Lemma insert_middle {A} (pre : list A) x y post p :
  p = length pre -> <[p := y]> (pre ++ x :: post) = pre ++ y :: post.
Proof. intros ->. rewrite insert_app_r_alt by done. by rewrite Nat.sub_diag. Qed.

Lemma construct_at_live p init ev (b : block T) pre s post Q E :
  live_slots b = pre ++ s :: post -> p = length pre ->
  (forall x b', init = Some x -> live_slots b' = pre ++ true :: post ->
                Q tt b' [ev x]) ->
  (init = None -> E element_exn b []) ->
  sat (construct_at p init ev b) Q E.
Proof.
  intros Hb Hp HQ HE. apply construct_at_sat; [|done].
  intros x Hx _. apply HQ; [done|].
  rewrite live_slots_insert, Hb. by apply insert_middle.
Qed.

Lemma destroy_at_live p (b : block T) pre s post Q E :
  live_slots b = pre ++ s :: post -> p = length pre ->
  (forall x b', live_slots b' = pre ++ false :: post -> Q tt b' [EvDestroy x]) ->
  sat (destroy_at p b) Q E.
Proof.
  intros Hb Hp HQ. apply destroy_at_sat.
  intros x Hx. apply HQ.
  rewrite live_slots_insert, Hb. by apply insert_middle.
Qed.

Lemma live_slots_lookup (b : block T) p x :
  b !! p = Some (Live x) -> live_slots b !! p = Some true.
Proof. intros Hx. unfold live_slots. by rewrite list_lookup_fmap, Hx. Qed.

Lemma live_slots_insert_live (b : block T) p x y :
  b !! p = Some (Live x) -> live_slots (<[p := Live y]> b) = live_slots b.
Proof.
  intros Hx. rewrite live_slots_insert. apply list_insert_id.
  by eapply live_slots_lookup.
Qed.

(** Move assignment keeps both objects alive. *)
Lemma move_assign_at_live s d (b : block T) Q E :
  (forall x b', live_slots b' = live_slots b -> Q tt b' [EvMoveAssign x]) ->
  E element_exn b [] ->
  sat (move_assign_at s d b) Q E.
Proof.
  intros HQ HE. unfold move_assign_at. wp.
  apply deref_sat. intros x Hx. wp.
  apply deref_sat. intros y Hy. wp; [|done].
  apply set_slot_sat. intros Hs. wp.
  apply set_slot_sat. intros Hd. wp. simpl. apply HQ.
  destruct (decide (d = s)) as [->|Hne].
  - rewrite list_insert_insert_eq. by eapply live_slots_insert_live.
  - erewrite live_slots_insert_live.
    + by eapply live_slots_insert_live.
    + rewrite list_lookup_insert_ne by done. exact Hy.
Qed.

Lemma copy_assign_at_live x d (b : block T) Q E :
  (forall b', live_slots b' = live_slots b -> Q tt b' [EvCopyAssign x]) ->
  E element_exn b [] ->
  sat (copy_assign_at x d b) Q E.
Proof.
  intros HQ HE. unfold copy_assign_at. wp.
  apply deref_sat. intros y Hy. wp; [|done].
  apply set_slot_sat. intros Hd. wp. simpl. apply HQ.
  by eapply live_slots_insert_live.
Qed.

Lemma destroy_n_live first n (b : block T) pre mid post :
  live_slots b = pre ++ mid ++ post -> first = length pre -> n = length mid ->
  sat (destroy_n first n b)
      (fun _ b' _ => live_slots b' = pre ++ replicate n false ++ post)
      (fun _ _ _ => False).
Proof.
  revert first n b pre. induction mid as [|m mid IH]; intros first n b pre Hb -> ->.
  - simpl. by wp.
  - cbn [length destroy_n]. wp.
    eapply destroy_at_live; [exact Hb|done|].
    intros x b' Hb'.
    eapply sat_mono; [eapply (IH _ _ b' (pre ++ [false]))| |done].
    + by rewrite <- app_assoc.
    + rewrite length_app. simpl. lia.
    + done.
    + simpl. intros _ b'' _ Hb''. by rewrite Hb'', <- app_assoc.
Qed.

(** [std::uninitialized_value_construct_n] and
    [std::uninitialized_copy_n] into raw slots: they are all alive when
    the algorithm returns, and all raw again when it throws. *)
Lemma uninitialized_value_construct_loop_live result cur n (b : block T)
    pre k post :
  live_slots b = pre ++ replicate k true ++ replicate n false ++ post ->
  result = length pre -> cur = length pre + k ->
  sat (uninitialized_value_construct_loop result cur n b)
      (fun _ b' _ => live_slots b' = pre ++ replicate (k + n) true ++ post)
      (fun _ b' _ =>
         live_slots b' = pre ++ replicate k false ++ replicate n false ++ post).
Proof.
  revert cur b k. induction n as [|n IH]; intros cur b k Hb -> ->.
  - simpl. wp. simpl. by rewrite Nat.add_0_r.
  - cbn [uninitialized_value_construct_loop]. wp.
    eapply construct_at_live.
    + rewrite Hb. rewrite (app_assoc pre). reflexivity.
    + by rewrite length_app, length_replicate.
    + intros x b' _ Hb'.
      eapply sat_mono; [eapply (IH _ b' (S k))| |]; [|done|lia|..].
      * rewrite Hb', <- app_assoc.
        replace (S k) with (k + 1) by lia.
        by rewrite replicate_add, <- app_assoc.
      * cbn beta. intros _ b'' _ ->.
        by replace (S k + n) with (k + S n) by lia.
      * cbn beta. intros _ b'' _ ->.
        replace (S k) with (k + 1) by lia.
        by rewrite replicate_add, <- !app_assoc.
    + intros _. unfold destroy.
      replace (length pre + k - length pre) with k by lia.
      eapply sat_mono;
        [eapply destroy_n_live with (pre := pre) (mid := replicate k true)| |done].
      * exact Hb.
      * done.
      * by rewrite length_replicate.
      * cbn beta. by intros _ b' _ ->.
Qed.

Lemma uninitialized_copy_loop_live src result first cur n (b : block T)
    pre k post :
  live_slots b = pre ++ replicate k true ++ replicate n false ++ post ->
  result = length pre -> cur = length pre + k ->
  sat (uninitialized_copy_loop src result first cur n b)
      (fun _ b' _ => live_slots b' = pre ++ replicate (k + n) true ++ post)
      (fun _ b' _ =>
         live_slots b' = pre ++ replicate k false ++ replicate n false ++ post).
Proof.
  revert first cur b k. induction n as [|n IH]; intros first cur b k Hb -> ->.
  - simpl. wp. simpl. by rewrite Nat.add_0_r.
  - cbn [uninitialized_copy_loop].
    destruct (src !! first) as [[|x]|]; [done| |done]. wp.
    eapply construct_at_live.
    + rewrite Hb. rewrite (app_assoc pre). reflexivity.
    + by rewrite length_app, length_replicate.
    + intros y b' _ Hb'.
      eapply sat_mono; [eapply (IH _ _ b' (S k))| |]; [|done|lia|..].
      * rewrite Hb', <- app_assoc.
        replace (S k) with (k + 1) by lia.
        by rewrite replicate_add, <- app_assoc.
      * cbn beta. intros _ b'' _ ->.
        by replace (S k + n) with (k + S n) by lia.
      * cbn beta. intros _ b'' _ ->.
        replace (S k) with (k + 1) by lia.
        by rewrite replicate_add, <- !app_assoc.
    + intros _. unfold destroy.
      replace (length pre + k - length pre) with k by lia.
      eapply sat_mono;
        [eapply destroy_n_live with (pre := pre) (mid := replicate k true)| |done].
      * exact Hb.
      * done.
      * by rewrite length_replicate.
      * cbn beta. by intros _ b' _ ->.
Qed.

(** [std::move], [std::move_backward] and [std::copy] assign to live
    objects and keep them alive. *)
Lemma move_loop_live first d_first n (b : block T) :
  sat (move_loop first d_first n b)
      (fun _ b' _ => live_slots b' = live_slots b)
      (fun _ b' _ => live_slots b' = live_slots b).
Proof.
  revert first d_first b. induction n as [|n IH]; intros first d_first b.
  - simpl. by wp.
  - cbn [move_loop]. wp. apply move_assign_at_live; [|done].
    intros x b' Hb'. eapply sat_mono; [apply IH|..]; simpl; congruence.
Qed.

Lemma move_backward_loop_live last d_last n (b : block T) :
  sat (move_backward_loop last d_last n b)
      (fun _ b' _ => live_slots b' = live_slots b)
      (fun _ b' _ => live_slots b' = live_slots b).
Proof.
  revert last d_last b. induction n as [|n IH]; intros last d_last b.
  - by rewrite move_backward_loop_0.
  - destruct last as [|last]; [done|].
    destruct d_last as [|d_last]; [done|]. cbn [move_backward_loop]. wp.
    apply move_assign_at_live; [|done].
    intros x b' Hb'. eapply sat_mono; [apply IH|..]; simpl; congruence.
Qed.

Lemma copy_loop_live src first d_first n (b : block T) :
  sat (copy_loop src first d_first n b)
      (fun _ b' _ => live_slots b' = live_slots b)
      (fun _ b' _ => live_slots b' = live_slots b).
Proof.
  revert first d_first b. induction n as [|n IH]; intros first d_first b.
  - simpl. by wp.
  - cbn [copy_loop]. destruct (src !! first) as [[|x]|]; [done| |done]. wp.
    apply copy_assign_at_live; [|done].
    intros b' Hb'. eapply sat_mono; [apply IH|..]; simpl; congruence.
Qed.
End LiveSlots.

Section Relocation.
Context {T : Type} `{Element T} `{Heap}.

#[local] Abbreviation sat := (sat (T:=T)).

Lemma old_kept_refl (s : Vector T * RawMemory T) : old_kept s s.
Proof. by unfold old_kept. Qed.

Lemma old_kept_trans (s1 s2 s3 : Vector T * RawMemory T) :
  old_kept s1 s2 -> old_kept s2 s3 -> old_kept s1 s3.
Proof. unfold old_kept. intros (?&?&?&?) (?&?&?&?). repeat split; congruence. Qed.

Lemma old_kept_new (s : Vector T * RawMemory T) b :
  old_kept s (update new_buffer b s).
Proof. destruct s. by unfold old_kept. Qed.

Lemma sat_const {St A} (r : res T St A) (P : Prop) :
  P -> sat r (fun _ _ _ => P) (fun _ _ _ => P).
Proof. by destruct r. Qed.

(** [std::uninitialized_move_n] from the buffer of the vector into the
    local [new_data]: the objects moved from stay alive. *)
Lemma uninitialized_move_loop_live result first cur n
    (s : Vector T * RawMemory T) pre k post :
  live_slots (buffer_ (snd s))
  = pre ++ replicate k true ++ replicate n false ++ post ->
  result = length pre -> cur = length pre + k ->
  sat (uninitialized_move_loop old_buffer new_buffer result first cur n s)
      (fun _ s' _ =>
         old_kept s s' /\
         live_slots (buffer_ (snd s')) = pre ++ replicate (k + n) true ++ post)
      (fun _ s' _ => old_kept s s').
Proof.
  revert first cur s k. induction n as [|n IH]; intros first cur s k Hb -> ->.
  - simpl. wp. simpl. rewrite Nat.add_0_r. split; [apply old_kept_refl|done].
  - cbn [uninitialized_move_loop]. wp. unfold move_construct_at. wp.
    apply deref_sat. intros x Hx. wp.
    apply slot_at_sat. intros sl Hsl. wp.
    apply call_move_construct_sat.
    + intros [y r] Hmv. wp. apply set_slot_sat. intros Hfirst. wp.
      apply set_slot_sat. intros Hcur. wp. cbn beta.
      destruct s as [v m].
      cbn [view update old_buffer new_buffer this_buffer compose_lens fst_lens
           snd_lens data_lens buffer_lens fst snd buffer_ data_ capacity_ size_]
        in *.
      eapply sat_mono; [eapply (IH _ _ _ (S k))| |]; [|done|lia|..].
      * cbn [snd buffer_]. rewrite live_slots_insert, Hb.
        rewrite (app_assoc pre). cbn [replicate app is_live].
        rewrite insert_middle by (by rewrite length_app, length_replicate).
        by rewrite <- app_assoc, replicate_middle.
      * cbn beta. intros _ s' _ [Hkept ->]. split.
        -- eapply old_kept_trans; [|exact Hkept].
           unfold old_kept. cbn [fst snd data_ size_ capacity_ buffer_].
           repeat split. by eapply live_slots_insert_live.
        -- by replace (S k + n) with (k + S n) by lia.
      * cbn beta. intros _ s' _ Hkept.
        eapply old_kept_trans; [|exact Hkept].
        unfold old_kept. cbn [fst snd data_ size_ capacity_ buffer_].
        repeat split. by eapply live_slots_insert_live.
    + intros Hmv Hnt. wp.
      eapply sat_mono; [apply sat_any|..]; cbn beta; intros;
        destruct s as [[[? ?] ?] [? ?]]; by unfold old_kept.
Qed.
End Relocation.

Section WellFormed.
Context {T : Type} `{Element T} `{Heap}.

#[local] Abbreviation sat := (sat (T:=T)).

Lemma well_formed_intro (v : Vector T) n m :
  live_slots (buffer_ (data_ v)) = replicate n true ++ replicate m false ->
  size_ v = n -> capacity_ (data_ v) = n + m ->
  well_formed v.
Proof.
  intros Hb Hn Hc. apply well_formed_live_slots. rewrite Hn, Hc.
  split; [|lia]. by replace (n + m - n) with m by lia.
Qed.

Lemma vector_of_live (xs : list T) spare :
  live_slots (buffer_ (data_ (vector_of xs spare)))
  = replicate (length xs) true ++ replicate spare false.
Proof. simpl. by rewrite live_slots_app, live_slots_Live, live_slots_Raw. Qed.

Lemma RawMemory_ctor_raw {St} n (s : St) Q E :
  (forall tr, Q {| buffer_ := replicate n Raw; capacity_ := n |} s tr) ->
  E bad_alloc s [] ->
  sat (RawMemory_ctor n s) Q E.
Proof.
  intros HQ HE. unfold RawMemory_ctor, Allocate.
  destruct n as [|n]; simpl.
  - wp. apply HQ.
  - wp; [|done]. apply HQ.
Qed.

(** The relocation step of [Reserve] and [EmplaceBack], and each half
    of the one of [EmplaceWithReallocate]. *)
Lemma relocation_live (this : Vector T) first n d_first
    (s : Vector T * RawMemory T) pre post :
  live_slots (buffer_ (snd s)) = pre ++ replicate n false ++ post ->
  d_first = length pre ->
  sat ((if is_nothrow_move_constructible || negb is_copy_constructible
        then uninitialized_move_n old_buffer new_buffer first n d_first
        else zoom new_buffer
               (uninitialized_copy_n (buffer_ (data_ this)) first n d_first)) s)
      (fun _ s' _ =>
         old_kept s s' /\
         live_slots (buffer_ (snd s')) = pre ++ replicate n true ++ post)
      (fun _ s' _ => old_kept s s').
Proof.
  intros Hb ->.
  destruct (is_nothrow_move_constructible || negb is_copy_constructible).
  - unfold uninitialized_move_n.
    eapply sat_mono;
      [eapply uninitialized_move_loop_live with (pre := pre) (k := 0)|..];
      [exact Hb|done|lia|..]; cbn beta.
    + by intros _ s' _ [? ?].
    + done.
  - wp. unfold uninitialized_copy_n.
    eapply sat_mono;
      [eapply uninitialized_copy_loop_live with (pre := pre) (k := 0)|..];
      [destruct s; exact Hb|done|lia|..]; cbn beta.
    + intros _ b' _ Hb'. split; [apply old_kept_new|]. by destruct s.
    + intros _ b' _ _. apply old_kept_new.
Qed.

Lemma Reserve_wf n (v : Vector T) :
  well_formed v ->
  sat (Reserve n v)
      (fun _ v' _ =>
         well_formed v' /\ size_ v' = size_ v /\
         capacity_ (data_ v') = Nat.max n (capacity_ (data_ v)))
      (fun _ v' _ => well_formed v' /\ size_ v' = size_ v /\
                     capacity_ (data_ v') = capacity_ (data_ v)).
Proof.
  intros Hv. pose proof Hv as (xs & spare & ->).
  unfold Reserve, RawMemory_Capacity. wp.
  { apply Nat.leb_le in Heqb. repeat split; [done|]. lia. }
  apply Nat.leb_gt in Heqb.
  apply RawMemory_ctor_raw; [|done]. intros tr. wp.
  eapply sat_mono;
    [eapply relocation_live with (pre := []) (post := replicate (n - length xs) false)
    |..]; cbn beta.
  - cbn [snd buffer_ vector_of size_ app]. rewrite live_slots_Raw.
    rewrite <- replicate_add. f_equal. simpl in Heqb. lia.
  - done.
  - intros _ [v1 m1] _ [(Hsz & Hcap & Hold & Hnew) Hb]. cbn [fst snd] in *.
    wp.
    eapply sat_mono;
      [eapply destroy_n_live with (pre := []) (mid := replicate (length xs) true)
                                  (post := replicate spare false)|..].
    + cbn [view old_buffer this_buffer compose_lens fst_lens data_lens
           buffer_lens fst app].
      rewrite Hold. apply vector_of_live.
    + done.
    + by rewrite length_replicate.
    + cbn beta. intros _ b' _ _. wp. unfold Swap_new_data.
      cbn [view update old_buffer this_buffer compose_lens fst_lens data_lens
           buffer_lens fst snd data_ size_ capacity_].
      split; [|split; [done|simpl in *; lia]].
      eapply well_formed_intro; [exact Hb|done|].
      simpl in *. lia.
    + done.
  - intros _ [v1 m1] _ (Hsz & Hcap & Hold & Hnew). cbn [fst snd] in *.
    split; [|done].
    eapply well_formed_intro; [rewrite Hold; apply vector_of_live|done|].
    by rewrite Hcap.
Qed.

Lemma PopBack_wf (v : Vector T) :
  well_formed v ->
  sat (PopBack v) (fun _ v' _ => well_formed v') (fun _ v' _ => well_formed v').
Proof.
  intros (xs & spare & ->).
  destruct xs as [|x xs _] using rev_ind.
  - rewrite PopBack_empty. hnf. by eexists _, _.
  - rewrite PopBack_exact. hnf. by eexists _, _.
Qed.

Lemma subscript_wf i (v : Vector T) :
  well_formed v ->
  sat (subscript i v) (fun _ v' _ => v' = v) (fun _ v' _ => v' = v).
Proof.
  intros _. unfold subscript, RawMemory_index. wp.
  apply deref_sat. intros x _. by destruct v as [[? ?] ?].
Qed.

Lemma Resize_wf n (v : Vector T) :
  well_formed v ->
  sat (Resize n v) (fun _ v' _ => well_formed v') (fun _ v' _ => well_formed v').
Proof.
  intros Hv. pose proof Hv as (xs & spare & ->).
  unfold Resize, Capacity, RawMemory_Capacity. wp.
  - apply Nat.ltb_lt in Heqb. cbn [vector_of size_] in *.
    eapply sat_mono;
      [eapply destroy_n_live with (pre := replicate n true)
                                  (mid := replicate (length xs - n) true)
                                  (post := replicate spare false)|..].
    + cbn [view this_buffer compose_lens data_lens buffer_lens].
      rewrite vector_of_live, app_assoc, <- replicate_add.
      do 2 f_equal. lia.
    + by rewrite length_replicate.
    + by rewrite length_replicate.
    + cbn beta. intros _ b' _ Hb'. wp.
      eapply well_formed_intro with (n := n) (m := length xs - n + spare).
      * cbn [update this_buffer compose_lens data_lens buffer_lens data_
             buffer_ set_size].
        by rewrite Hb', replicate_add.
      * done.
      * simpl. lia.
    + done.
  - apply Nat.ltb_ge in Heqb. apply Nat.ltb_lt in Heqb0.
    eapply sat_mono; [by apply Reserve_wf|..]; cbn beta.
    + intros _ v1 _ (Hv1 & Hsz & Hcap).
      cbn [vector_of size_ data_ capacity_] in *.
      apply well_formed_live_slots in Hv1 as [Hb1 Hle1].
      wp.
      eapply sat_mono;
        [eapply uninitialized_value_construct_loop_live with
           (pre := replicate (length xs) true) (k := 0)
           (post := replicate (capacity_ (data_ v1) - n) false)|..].
      * cbn [view this_buffer compose_lens data_lens buffer_lens].
        rewrite Hb1, Hsz. cbn [replicate app].
        rewrite <- replicate_add. do 2 f_equal. lia.
      * by rewrite length_replicate.
      * rewrite length_replicate. lia.
      * cbn beta. intros _ b' _ Hb'. wp.
        eapply well_formed_intro with (n := n) (m := capacity_ (data_ v1) - n).
        -- cbn [update this_buffer compose_lens data_lens buffer_lens data_
                buffer_ set_size].
           rewrite Hb', app_assoc, <- replicate_add.
           do 2 f_equal. lia.
        -- done.
        -- simpl. lia.
      * cbn beta. intros _ b' _ Hb'.
        eapply well_formed_intro with (n := length xs)
                                     (m := capacity_ (data_ v1) - length xs).
        -- cbn [update this_buffer compose_lens data_lens buffer_lens data_
                buffer_].
           rewrite Hb'. cbn [replicate app].
           rewrite <- replicate_add. do 2 f_equal. lia.
        -- done.
        -- simpl. lia.
    + intros _ v1 _ (Hv1 & _). done.
  - apply Nat.ltb_ge in Heqb. apply Nat.ltb_ge in Heqb0.
    cbn [vector_of size_ data_ capacity_] in *.
    eapply sat_mono;
      [eapply uninitialized_value_construct_loop_live with
         (pre := replicate (length xs) true) (k := 0)
         (post := replicate (length xs + spare - n) false)|..].
    + cbn [view this_buffer compose_lens data_lens buffer_lens].
      rewrite vector_of_live. cbn [replicate app].
      rewrite <- replicate_add. do 2 f_equal. lia.
    + by rewrite length_replicate.
    + rewrite length_replicate. lia.
    + cbn beta. intros _ b' _ Hb'. wp.
      eapply well_formed_intro with (n := n) (m := length xs + spare - n).
      * cbn [update this_buffer compose_lens data_lens buffer_lens data_
             buffer_ set_size].
        rewrite Hb', app_assoc, <- replicate_add.
        do 2 f_equal. lia.
      * done.
      * simpl. lia.
    + cbn beta. intros _ b' _ Hb'.
      eapply well_formed_intro with (n := length xs) (m := spare).
      * cbn [update this_buffer compose_lens data_lens buffer_lens data_
             buffer_].
        rewrite Hb'. cbn [replicate app].
        rewrite <- replicate_add. do 2 f_equal. lia.
      * done.
      * done.
Qed.

Lemma EmplaceBack_wf args (v : Vector T) :
  well_formed v ->
  sat (EmplaceBack args v)
      (fun _ v' _ => well_formed v') (fun _ v' _ => well_formed v').
Proof.
  intros Hv. pose proof Hv as (xs & spare & ->).
  unfold EmplaceBack, Capacity, RawMemory_Capacity, RawMemory_plus. wp.
  - (* the buffer is full *)
    apply Nat.eqb_eq in Heqb. cbn [vector_of size_ data_ capacity_] in *.
    assert (spare = 0) as -> by lia.
    set (N := if length xs =? 0 then 1 else length xs * 2).
    assert (length xs < N) as HN by (subst N; destruct (length xs); simpl; lia).
    apply RawMemory_ctor_raw; [|done]. intros tr. wp.
    eapply construct_at_live with (pre := replicate (length xs) false) (s := false)
                                  (post := replicate (N - length xs - 1) false).
    + cbn [view new_buffer compose_lens snd_lens buffer_lens snd buffer_].
      rewrite live_slots_Raw.
      change (false :: replicate (N - length xs - 1) false)
        with (replicate (S (N - length xs - 1)) false).
      rewrite <- replicate_add. f_equal. lia.
    + by rewrite length_replicate.
    + intros x b' _ Hb'. wp.
      eapply sat_mono;
        [eapply relocation_live with (this := vector_of xs 0)
           (pre := []) (post := true :: replicate (N - length xs - 1) false)|..];
        cbn beta.
      * cbn [update new_buffer compose_lens snd_lens buffer_lens snd buffer_
             vector_of size_]. exact Hb'.
      * done.
      * intros _ [v1 m1] _ [(Hsz & Hcap & Hold & Hnew) Hb]. cbn [fst snd] in *.
        wp.
        eapply sat_mono;
          [eapply destroy_n_live with (pre := [])
             (mid := replicate (length xs) true) (post := [])|..].
        -- cbn [view old_buffer this_buffer compose_lens fst_lens data_lens
                buffer_lens fst app].
           etrans; [exact Hold|]. apply (vector_of_live xs 0).
        -- done.
        -- by rewrite length_replicate.
        -- cbn beta. intros _ b'' _ _. wp. unfold Swap_new_data, incr_size, set_size.
           cbn [view update old_buffer this_buffer compose_lens fst_lens data_lens
                buffer_lens fst snd data_ size_ capacity_].
           eapply well_formed_intro with (n := length xs + 1)
                                         (m := N - length xs - 1).
           ++ cbn [data_]. rewrite Hb. cbn [app]. apply replicate_snoc_app.
           ++ simpl in *. lia.
           ++ simpl in *. lia.
        -- done.
      * intros _ [v1 m1] _ (Hsz & Hcap & Hold & Hnew). cbn [fst snd] in *.
        eapply well_formed_intro with (n := length xs) (m := 0);
          [etrans; [exact Hold|]; apply (vector_of_live xs 0)
          |done|by rewrite Hcap].
    + intros _. done.
  - (* a free slot *)
    apply Nat.eqb_neq in Heqb. cbn [vector_of size_ data_ capacity_] in *.
    destruct spare as [|spare]; [lia|].
    eapply construct_at_live with (pre := replicate (length xs) true) (s := false)
                                  (post := replicate spare false).
    + cbn [view this_buffer compose_lens data_lens buffer_lens].
      by rewrite vector_of_live.
    + by rewrite length_replicate.
    + intros x b' _ Hb'. wp. unfold incr_size, set_size.
      eapply well_formed_intro with (n := length xs + 1) (m := spare).
      * cbn [update this_buffer compose_lens data_lens buffer_lens data_ buffer_].
        rewrite Hb'. apply replicate_snoc_app.
      * done.
      * simpl. lia.
    + intros _. done.
Qed.

Lemma Erase_wf pos (v : Vector T) :
  well_formed v ->
  sat (Erase pos v) (fun _ v' _ => well_formed v') (fun _ v' _ => well_formed v').
Proof.
  intros Hv. unfold Erase, std_move. wp; [|done].
  eapply sat_mono; [apply move_loop_live|..]; cbn beta; [|done].
  intros _ b' _ Hb'.
  eapply sat_mono; [apply PopBack_wf|..]; cbn beta.
  - destruct Hv as (xs & spare & ->).
    eapply well_formed_intro with (n := length xs) (m := spare); [|done..].
    cbn [update this_buffer compose_lens data_lens buffer_lens data_ buffer_].
    rewrite Hb'. apply vector_of_live.
  - intros _ v' _ Hv'. by wp.
  - done.
Qed.

(** The relocation step of [EmplaceWithReallocate], around the new
    element. *)
Lemma relocation_around_live (this : Vector T) shift n
    (s : Vector T * RawMemory T) post :
  live_slots (buffer_ (snd s))
  = replicate shift false ++ true :: replicate n false ++ post ->
  sat ((if is_nothrow_move_constructible || negb is_copy_constructible
        then
          uninitialized_move_n old_buffer new_buffer 0 shift 0 ;;
          uninitialized_move_n old_buffer new_buffer shift n (shift + 1)
        else
          catch_rethrow
            (zoom new_buffer
               (uninitialized_copy_n (buffer_ (data_ this)) 0 shift 0) ;;
             zoom new_buffer
               (uninitialized_copy_n (buffer_ (data_ this)) shift n (shift + 1)))
            (zoom new_buffer (destroy_n shift 1))) s)
      (fun _ s' _ =>
         old_kept s s' /\
         live_slots (buffer_ (snd s'))
         = replicate shift true ++ true :: replicate n true ++ post)
      (fun _ s' _ => old_kept s s').
Proof.
  intros Hb.
  destruct (is_nothrow_move_constructible || negb is_copy_constructible).
  - unfold uninitialized_move_n. wp.
    eapply sat_mono;
      [eapply uninitialized_move_loop_live with
         (pre := []) (k := 0) (post := true :: replicate n false ++ post)|..];
      [exact Hb|done|done|..]; cbn beta; [|done].
    intros _ s1 _ [Hkept Hb1].
    eapply sat_mono;
      [eapply uninitialized_move_loop_live with
         (pre := replicate shift true ++ [true]) (k := 0) (post := post)|..];
      [|rewrite length_app, length_replicate; done
       |rewrite length_app, length_replicate; simpl; lia|..]; cbn beta.
    + rewrite Hb1. cbn [app replicate]. by rewrite <- app_assoc.
    + intros _ s2 _ [Hkept2 Hb2]. split; [by eapply old_kept_trans|].
      rewrite Hb2. cbn [app replicate Nat.add]. by rewrite <- app_assoc.
    + intros _ s2 _ Hkept2. by eapply old_kept_trans.
  - unfold uninitialized_copy_n. wp.
    eapply sat_mono;
      [eapply uninitialized_copy_loop_live with
         (pre := []) (k := 0) (post := true :: replicate n false ++ post)|..];
      [destruct s; exact Hb|done|done|..]; cbn beta.
    + intros _ b1 _ Hb1. wp.
      eapply sat_mono;
        [eapply uninitialized_copy_loop_live with
           (pre := replicate shift true ++ [true]) (k := 0) (post := post)|..];
        [|rewrite length_app, length_replicate; done
         |rewrite length_app, length_replicate; simpl; lia|..]; cbn beta.
      * destruct s. cbn [view update new_buffer compose_lens snd_lens
                         buffer_lens snd buffer_].
        rewrite Hb1. cbn [app replicate]. by rewrite <- app_assoc.
      * intros _ b2 _ Hb2. destruct s as [v m]. split; [done|].
        cbn [view update new_buffer compose_lens snd_lens buffer_lens snd
             buffer_].
        rewrite Hb2. cbn [app replicate Nat.add]. by rewrite <- app_assoc.
      * intros _ b2 _ _. wp.
        eapply sat_mono; [apply sat_any|..]; cbn beta; intros;
          destruct s as [[[? ?] ?] [? ?]]; by unfold old_kept.
    + intros _ b1 _ _. wp.
      eapply sat_mono; [apply sat_any|..]; cbn beta; intros;
        destruct s as [[[? ?] ?] [? ?]]; by unfold old_kept.
Qed.

Lemma EmplaceWithReallocate_wf shift args (v : Vector T) :
  well_formed v -> shift <= size_ v ->
  sat (EmplaceWithReallocate shift args v)
      (fun _ v' _ => well_formed (incr_size v'))
      (fun _ v' _ => well_formed v').
Proof.
  intros Hv Hshift. pose proof Hv as (xs & spare & ->).
  cbn [vector_of size_] in Hshift.
  unfold EmplaceWithReallocate, RawMemory_plus.
  apply sat_bind, sat_get. cbn [vector_of size_].
  set (N := if length xs =? 0 then 1 else length xs * 2).
  assert (length xs < N) as HN by (subst N; destruct (length xs); simpl; lia).
  apply sat_bind.
  apply RawMemory_ctor_raw; [|done]. intros tr. wp.
  eapply construct_at_live with (pre := replicate shift false) (s := false)
                                (post := replicate (N - shift - 1) false).
  - cbn [view new_buffer compose_lens snd_lens buffer_lens snd buffer_].
    rewrite live_slots_Raw.
    change (false :: replicate (N - shift - 1) false)
      with (replicate (S (N - shift - 1)) false).
    rewrite <- replicate_add. f_equal. lia.
  - by rewrite length_replicate.
  - intros x b' _ Hb'. wp.
    eapply sat_mono;
      [eapply relocation_around_live with (this := vector_of xs spare)
         (post := replicate (N - length xs - 1) false)|..]; cbn beta.
    + cbn [update new_buffer compose_lens snd_lens buffer_lens snd buffer_].
      rewrite Hb'. do 2 f_equal. rewrite <- replicate_add. f_equal. lia.
    + intros _ [v1 m1] _ [(Hsz & Hcap & Hold & Hnew) Hb]. cbn [fst snd] in *.
      wp.
      eapply sat_mono;
        [eapply destroy_n_live with (pre := [])
           (mid := replicate (length xs) true) (post := replicate spare false)|..].
      * cbn [view old_buffer this_buffer compose_lens fst_lens data_lens
             buffer_lens fst app].
        etrans; [exact Hold|]. apply (vector_of_live xs spare).
      * done.
      * by rewrite length_replicate.
      * cbn beta. intros _ b'' _ _. wp. unfold Swap_new_data, incr_size, set_size.
        cbn [view update old_buffer this_buffer compose_lens fst_lens data_lens
             buffer_lens fst snd data_ size_ capacity_].
        eapply well_formed_intro with (n := length xs + 1)
                                      (m := N - length xs - 1).
        -- cbn [data_]. rewrite Hb.
           rewrite replicate_snoc_app, app_assoc, <- replicate_add.
           do 2 f_equal. lia.
        -- simpl in *. lia.
        -- simpl in *. lia.
      * done.
    + intros _ [v1 m1] _ (Hsz & Hcap & Hold & Hnew). cbn [fst snd] in *.
      eapply well_formed_intro with (n := length xs) (m := spare);
        [etrans; [exact Hold|]; apply (vector_of_live xs spare)
        |done|by rewrite Hcap].
  - intros _. done.
Qed.

Lemma EmplaceWithoutReallocate_wf shift args (xs : list T) spare :
  shift <= length xs ->
  sat (EmplaceWithoutReallocate shift args (vector_of xs (S spare)))
      (fun _ v' _ => well_formed (incr_size v'))
      (fun _ v' _ => well_formed v' \/ args = None).
Proof.
  intros Hshift.
  assert (forall b : block T,
            live_slots b = replicate (length xs + 1) true ++ replicate spare false ->
            well_formed
              (incr_size (update this_buffer b (vector_of xs (S spare)))))
    as Hdone.
  { intros b Hb.
    eapply well_formed_intro with (n := length xs + 1) (m := spare);
      [exact Hb|done|simpl; lia]. }
  unfold EmplaceWithoutReallocate, RawMemory_plus.
  apply sat_bind, sat_get. cbn [vector_of size_ data_ capacity_].
  apply sat_bind.
  destruct (negb (length xs =? 0)) eqn:Hne.
  - (* the vector is not empty *)
    apply negb_true_iff, Nat.eqb_neq in Hne.
    wp. unfold move_construct_at. wp.
    apply deref_sat. intros l Hl. wp.
    apply slot_at_sat. intros sl Hsl. wp.
    apply call_move_construct_sat; [|intros _ _; wp; left; by eexists _, _].
    intros [y r] Hmv. wp. apply set_slot_sat. intros Hlast. wp.
    apply set_slot_sat. intros Hfree. wp. cbn beta.
    cbn [view update this_buffer compose_lens data_lens buffer_lens data_
         buffer_ capacity_ size_ vector_of fst snd] in *.
    set (b1 := <[length xs := Live y]>
                 (<[length xs - 1 := Live r]>
                    ((Live <$> xs) ++ replicate (S spare) Raw))) in *.
    assert (live_slots b1
            = replicate (length xs) true ++ true :: replicate spare false)
      as Hb1.
    { subst b1. rewrite live_slots_insert.
      erewrite live_slots_insert_live by exact Hl.
      rewrite live_slots_app, live_slots_Live, live_slots_Raw.
      cbn [replicate is_live].
      apply insert_middle. by rewrite length_replicate. }
    unfold std_move_backward. wp.
    eapply sat_mono; [apply move_backward_loop_live|..]; cbn beta.
    + intros _ b2 _ Hb2. rewrite Hb1 in Hb2. wp.
      apply destroy_at_sat. intros z Hz. wp.
      apply construct_at_sat; [|by right].
      intros x _ _. cbn [app]. apply Hdone.
      cbn [view update this_buffer compose_lens data_lens buffer_lens data_
           buffer_] in *.
      rewrite list_insert_insert_eq.
      erewrite live_slots_insert_live by exact Hz.
      rewrite Hb2. apply replicate_snoc_app.
    + intros _ b2 _ Hb2. rewrite Hb1 in Hb2. wp.
      eapply sat_mono;
        [eapply destroy_n_live with (pre := replicate (length xs) true)
           (mid := [true]) (post := replicate spare false)|..];
        [exact Hb2|by rewrite length_replicate|done|..]; cbn beta; [|done].
      intros _ b3 _ Hb3. left.
      eapply well_formed_intro with (n := length xs) (m := S spare);
        [exact Hb3|done..].
  - (* the vector is empty *)
    apply negb_false_iff, Nat.eqb_eq in Hne.
    destruct xs; [|discriminate]. simpl in Hshift.
    assert (shift = 0) as -> by lia.
    wp.
    apply construct_at_sat; [|by right].
    intros x _ _. apply Hdone.
    rewrite live_slots_insert.
    cbn [view this_buffer compose_lens data_lens buffer_lens data_ buffer_
         vector_of fmap list_fmap app replicate length Nat.add].
    change (Raw :: replicate spare (@Raw T)) with (replicate (S spare) (@Raw T)).
    by rewrite live_slots_Raw.
Qed.

Lemma Emplace_wf pos args (v : Vector T) :
  well_formed v ->
  sat (Emplace pos args v)
      (fun _ v' _ => well_formed v')
      (fun _ v' _ => well_formed v' \/ args = None).
Proof.
  intros Hv. unfold Emplace, Capacity, RawMemory_Capacity.
  apply sat_bind, sat_get. apply sat_bind, sat_assert. intros Hpos.
  apply andb_true_iff in Hpos as [Hlo Hhi].
  apply Z.leb_le in Hlo, Hhi.
  assert (Z.to_nat pos <= size_ v) as Hshift by lia.
  apply sat_bind.
  destruct (size_ v =? capacity_ (data_ v)) eqn:Hfull.
  - eapply sat_mono; [by apply EmplaceWithReallocate_wf|..]; cbn beta.
    + intros p v' _ Hv'. by wp.
    + intros _ v' _ Hv'. by left.
  - apply Nat.eqb_neq in Hfull. destruct Hv as (xs & spare & ->).
    cbn [vector_of size_ data_ capacity_] in *.
    destruct spare as [|spare]; [lia|].
    eapply sat_mono; [by apply EmplaceWithoutReallocate_wf|..]; cbn beta.
    + intros p v' _ Hv'. by wp.
    + done.
Qed.
End WellFormed.

Section WellFormedStores.
Context {T : Type} `{Element T} `{Heap}.

#[local] Abbreviation sat := (sat (T:=T)).

Lemma well_formed_default : well_formed (@Vector_default T).
Proof. by exists [], 0. Qed.

Lemma call_wf {A} this (m : M T (Vector T) A) (st : objects T) :
  (forall v, well_formed v ->
     sat (m v) (fun _ v' _ => well_formed v') (fun _ _ _ => True)) ->
  Forall well_formed st ->
  sat (call this m st)
      (fun _ st' _ => Forall well_formed st') (fun _ _ _ => True).
Proof.
  intros Hm Hst. apply call_sat. intros v Hv.
  eapply sat_mono; [apply Hm|..]; [|cbn beta|done].
  - by eapply Forall_lookup_1.
  - intros _ v' _ Hv'. by apply Forall_insert.
Qed.

Lemma Vector_sized_wf {St} size (s : St) :
  sat (Vector_sized size s)
      (fun v s' _ => s' = s /\ well_formed v) (fun _ s' _ => s' = s).
Proof.
  unfold Vector_sized. wp. apply RawMemory_ctor_raw; [|done]. intros tr. wp.
  unfold uninitialized_value_construct_n.
  eapply sat_mono;
    [eapply uninitialized_value_construct_loop_live with
       (pre := []) (k := 0) (post := [])|..]; cbn beta.
  - cbn [view compose_lens snd_lens buffer_lens snd buffer_ app replicate].
    by rewrite live_slots_Raw, app_nil_r.
  - done.
  - done.
  - intros _ b' _ Hb'. wp. split; [done|].
    eapply well_formed_intro with (n := size) (m := 0); [|done|simpl; lia].
    cbn [data_ snd update compose_lens snd_lens buffer_lens buffer_].
    rewrite Hb'. reflexivity.
  - done.
Qed.

Lemma Vector_copy_wf {St} other (s : St) :
  sat (Vector_copy other s)
      (fun v s' _ => s' = s /\ well_formed v) (fun _ s' _ => s' = s).
Proof.
  unfold Vector_copy. wp. apply RawMemory_ctor_raw; [|done]. intros tr. wp.
  unfold uninitialized_copy_n.
  eapply sat_mono;
    [eapply uninitialized_copy_loop_live with
       (pre := []) (k := 0) (post := [])|..]; cbn beta.
  - cbn [view compose_lens snd_lens buffer_lens snd buffer_ app replicate].
    by rewrite live_slots_Raw, app_nil_r.
  - done.
  - done.
  - intros _ b' _ Hb'. wp. split; [done|].
    eapply well_formed_intro with (n := size_ other) (m := 0); [|done|simpl; lia].
    cbn [data_ snd update compose_lens snd_lens buffer_lens buffer_].
    rewrite Hb'. reflexivity.
  - done.
Qed.

Lemma Swap_wf this other (st : objects T) :
  Forall well_formed st ->
  sat (Swap this other st)
      (fun _ st' _ => Forall well_formed st') (fun _ _ _ => True).
Proof.
  intros Hst. eapply sat_mono; [apply Swap_sat|..]; [cbn beta|done].
  intros _ st' tr (a & b & Ha & Hb & -> & _).
  apply Forall_insert; [apply Forall_insert|]; [done|..];
    by eapply Forall_lookup_1.
Qed.

Lemma Vector_move_wf other (st : objects T) :
  Forall well_formed st ->
  sat (Vector_move other st)
      (fun _ st' _ => Forall well_formed st') (fun _ _ _ => True).
Proof.
  intros Hst. unfold Vector_move. wp. apply new_object_sat. wp.
  eapply sat_mono; [apply Swap_wf|..]; [|cbn beta|done].
  - apply Forall_app. split; [done|]. apply Forall_singleton.
    apply well_formed_default.
  - intros _ st' _ Hst'. wp. done.
Qed.

Lemma assign_copy_wf this rhs (st : objects T) :
  Forall well_formed st ->
  sat (assign_copy this rhs st)
      (fun _ st' _ => Forall well_formed st') (fun _ _ _ => True).
Proof.
  intros Hst. unfold assign_copy, delete_object, RawMemory_Capacity. wp; [|done].
  apply object_sat. intros t Ht. wp.
  apply object_sat. intros r Hr. wp.
  - eapply sat_mono; [apply Vector_copy_wf|..]; [cbn beta|done].
    intros v ? _ (-> & Hv). wp. apply new_object_sat. wp.
    eapply sat_mono; [apply Swap_wf|..]; [|cbn beta|done].
    + apply Forall_app. split; [done|]. by apply Forall_singleton.
    + intros _ st' _ Hst'. wp.
      apply call_sat. intros v0 Hv0. unfold Vector_dtor. wp.
      eapply sat_mono; [apply sat_any|..]; [cbn beta|done].
      intros _ b' _ _. wp. rewrite take_insert_ge by done.
      by apply Forall_take.
  - apply Nat.ltb_ge in Heqb0.
    pose proof (Forall_lookup_1 _ _ _ _ Hst Ht) as (ts & spare & ->).
    cbn [vector_of data_ capacity_ size_ buffer_] in *.
    apply call_sat. intros t' Ht'. rewrite Ht in Ht'. injection Ht' as <-.
    unfold std_copy. wp.
    eapply sat_mono; [apply copy_loop_live|..]; [cbn beta|done].
    intros _ b1 _ Hb1. wp.
    + (* fewer elements: the others are destroyed *)
      apply Nat.ltb_lt in Heqb2. cbn [vector_of size_] in *.
      eapply sat_mono;
        [eapply destroy_n_live with (pre := replicate (size_ r) true)
           (mid := replicate (length ts - size_ r) true)
           (post := replicate spare false)|..].
      * cbn [view update this_buffer compose_lens data_lens buffer_lens data_
             buffer_].
        rewrite Hb1. etrans; [apply (vector_of_live ts spare)|].
        rewrite app_assoc, <- replicate_add. do 2 f_equal. lia.
      * by rewrite length_replicate.
      * by rewrite length_replicate.
      * cbn beta. intros _ b2 _ Hb2. wp. apply Forall_insert; [done|].
        eapply well_formed_intro with (n := size_ r)
                                      (m := length ts - size_ r + spare).
        -- cbn [view update this_buffer compose_lens data_lens buffer_lens
                data_ buffer_ set_size].
           by rewrite Hb2, replicate_add.
        -- done.
        -- simpl. lia.
      * done.
    + (* at least as many elements: the others are copy-constructed *)
      apply Nat.ltb_ge in Heqb2. cbn [vector_of size_] in *.
      unfold uninitialized_copy_n.
      eapply sat_mono;
        [eapply uninitialized_copy_loop_live with
           (pre := replicate (length ts) true) (k := 0)
           (post := replicate (length ts + spare - size_ r) false)|..].
      * cbn [view update this_buffer compose_lens data_lens buffer_lens data_
             buffer_].
        rewrite Hb1. etrans; [apply (vector_of_live ts spare)|].
        cbn [replicate app]. rewrite <- replicate_add. do 2 f_equal. lia.
      * by rewrite length_replicate.
      * rewrite length_replicate. lia.
      * cbn beta. intros _ b2 _ Hb2. wp. apply Forall_insert; [done|].
        eapply well_formed_intro with (n := size_ r)
                                      (m := length ts + spare - size_ r).
        -- cbn [view update this_buffer compose_lens data_lens buffer_lens
                data_ buffer_ set_size].
           rewrite Hb2, app_assoc, <- replicate_add. do 2 f_equal. lia.
        -- done.
        -- simpl. lia.
      * done.
Qed.

(** Each method keeps a well-formed vector well formed when it returns. *)
Lemma method_wf {A} (m : M T (Vector T) A) E :
  (forall v, well_formed v -> sat (m v) (fun _ v' _ => well_formed v') E) ->
  forall v, well_formed v ->
    sat (m v) (fun _ v' _ => well_formed v') (fun _ _ _ => True).
Proof. intros Hm v Hv. eapply sat_mono; [by apply Hm|done..]. Qed.

Lemma exec_wf o (st : objects T) :
  Forall well_formed st ->
  sat (exec o st) (fun _ st' _ => Forall well_formed st') (fun _ _ _ => True).
Proof.
  assert (forall args (v : Vector T),
            well_formed v ->
            sat (EmplaceBack args v)
                (fun _ v' _ => well_formed v') (fun _ _ _ => True)) as HEmplaceBack.
  { intros args. apply method_wf with (E := fun _ v' _ => well_formed v').
    intros v Hv. by apply EmplaceBack_wf. }
  assert (forall pos args (v : Vector T),
            well_formed v ->
            sat (Emplace pos args v)
                (fun _ v' _ => well_formed v') (fun _ _ _ => True)) as HEmplace.
  { intros pos args v Hv. eapply sat_mono; [by apply Emplace_wf|done..]. }
  intros Hst. destruct o; unfold exec, PushBack, PushBack_move, Insert, Insert_move.
  - wp. apply new_object_sat. wp. apply Forall_app. split; [done|].
    apply Forall_singleton, well_formed_default.
  - wp. eapply sat_mono; [apply Vector_sized_wf|..]; [cbn beta|done].
    intros v ? _ (-> & Hv). wp. apply new_object_sat. wp.
    apply Forall_app. split; [done|]. by apply Forall_singleton.
  - wp. apply object_sat. intros r Hr. wp.
    eapply sat_mono; [apply Vector_copy_wf|..]; [cbn beta|done].
    intros v ? _ (-> & Hv). wp. apply new_object_sat. wp.
    apply Forall_app. split; [done|]. by apply Forall_singleton.
  - wp. eapply sat_mono; [by apply Vector_move_wf|..]; [cbn beta|done].
    intros ? st' _ Hst'. by wp.
  - by apply assign_copy_wf.
  - unfold assign_move. wp; [|done]. by apply Swap_wf.
  - wp. eapply sat_mono; [apply call_wf; [|done]|..]; [|cbn beta|done].
    + intros v Hv. eapply sat_mono; [by apply subscript_wf|..]; [cbn beta|done].
      by intros ? ? _ ->.
    + intros ? st' _ Hst'. by wp.
  - apply call_wf; [|done]. intros v Hv.
    eapply sat_mono; [by apply Reserve_wf|..]; [cbn beta|done].
    by intros ? ? _ (? & _).
  - by apply Swap_wf.
  - apply call_wf; [|done]. intros v Hv.
    eapply sat_mono; [by apply Resize_wf|done..].
  - apply call_wf; [|done]. intros v Hv. wp.
    eapply sat_mono; [by apply HEmplaceBack|..]; [cbn beta|done].
    intros ? v' _ Hv'. by wp.
  - apply call_wf; [|done]. intros v Hv. wp.
    eapply sat_mono; [by apply HEmplaceBack|..]; [cbn beta|done].
    intros ? v' _ Hv'. by wp.
  - wp. eapply sat_mono; [apply call_wf; [apply HEmplaceBack|done]|..];
      [cbn beta|done].
    intros ? st' _ Hst'. by wp.
  - apply call_wf; [|done]. intros v Hv.
    eapply sat_mono; [by apply PopBack_wf|done..].
  - wp. eapply sat_mono; [apply call_wf; [apply HEmplace|done]|..];
      [cbn beta|done].
    intros ? st' _ Hst'. by wp.
  - wp. eapply sat_mono; [apply call_wf; [|done]|..]; [|cbn beta|done].
    + intros v Hv. eapply sat_mono; [by apply Erase_wf|done..].
    + intros ? st' _ Hst'. by wp.
  - wp. eapply sat_mono; [apply call_wf; [apply HEmplace|done]|..];
      [cbn beta|done].
    intros ? st' _ Hst'. by wp.
  - wp. eapply sat_mono; [apply call_wf; [apply HEmplace|done]|..];
      [cbn beta|done].
    intros ? st' _ Hst'. by wp.
Qed.

Lemma run_wf prog (st : objects T) :
  Forall well_formed st ->
  sat (run prog st) (fun _ st' _ => Forall well_formed st') (fun _ _ _ => True).
Proof.
  revert st. induction prog as [|o prog IH]; intros st Hst; simpl.
  - by wp.
  - wp. eapply sat_mono; [by apply exec_wf|..]; [cbn beta|done].
    intros _ st' _ Hst'. eapply sat_mono; [by apply IH|..]; done.
Qed.
End WellFormedStores.

Section Leaks.
Context {T : Type} `{Element T} `{Heap}.

(** [EmplaceBack] on a full buffer when the copy constructor of the
    element [z] throws during the relocation: the copies made are
    destroyed by [std::uninitialized_copy_n]; nothing destroys the new
    element, which was constructed in the new buffer before. *)
Lemma EmplaceBack_relocation_throw_exact (xs1 : list T) z xs2 x :
  is_nothrow_move_constructible || negb is_copy_constructible = false ->
  Forall (fun y => copy_construct y = Some y) xs1 ->
  copy_construct z = None ->
  operator_new (length (xs1 ++ z :: xs2) * 2) = true ->
  EmplaceBack (Some x) (vector_of (xs1 ++ z :: xs2) 0)
  = Throw element_exn (vector_of (xs1 ++ z :: xs2) 0)
      (EvAllocate (length (xs1 ++ z :: xs2) * 2) :: EvEmplace x
         :: (EvCopyCtor <$> xs1) ++ (EvDestroy <$> xs1)).
Proof.
  intros Hpath Hxs1 Hz Hnew.
  assert (length (xs1 ++ z :: xs2) = length xs1 + S (length xs2)) as Hlen
    by (rewrite length_app; simpl; lia).
  set (n := length (xs1 ++ z :: xs2)) in *.
  unfold EmplaceBack. rewrite bind_get. unfold Capacity, RawMemory_Capacity.
  cbn [vector_of size_ data_ capacity_]. fold n.
  rewrite Nat.add_0_r, Nat.eqb_refl.
  replace (n =? 0) with false by (symmetry; apply Nat.eqb_neq; lia).
  erewrite bind_Throw; [reflexivity|].
  erewrite bind_Ok; last by (apply RawMemory_ctor_exact; [lia|done]).
  erewrite with_local_Throw; [reflexivity|].
  unfold RawMemory_plus, assert. cbn [capacity_].
  replace (n <=? n * 2) with true by (symmetry; apply Nat.leb_le; lia).
  erewrite bind_Ok; last reflexivity.
  erewrite bind_Ok; last first.
  { apply zoom_Ok. cbn [view new_buffer compose_lens snd_lens buffer_lens snd buffer_].
    replace (n * 2) with (n + S (n - 1)) at 1 by lia.
    rewrite replicate_add. cbn [replicate].
    apply construct_at_middle. by rewrite length_replicate. }
  rewrite Hpath.
  erewrite bind_Throw; last first.
  { apply zoom_Throw.
    cbn [view update new_buffer compose_lens snd_lens buffer_lens snd fst
         buffer_ capacity_ vector_of data_].
    unfold uninitialized_copy_n.
    pose proof (@uninitialized_copy_loop_throw_exact T _ [] (replicate 0 Raw) []
                  (Live x :: replicate (n - 1) Raw)
                  [] xs1 z xs2 (length xs2) 0 0 0 Hxs1 Hz eq_refl eq_refl eq_refl)
      as Hloop.
    cbn [app fmap list_fmap length Nat.add] in Hloop.
    fold n in Hloop. rewrite <- Hlen in Hloop. exact Hloop. }
  cbn [after app]. reflexivity.
Qed.

(** Copying a run of objects whose copy constructor gives a copy. *)
Lemma uninitialized_copy_loop_Forall_exact (spre spost pre mid post : block T) ys
    result first cur :
  Forall (fun y => copy_construct y = Some y) ys ->
  first = length spre -> cur = length pre -> length mid = length ys ->
  uninitialized_copy_loop (spre ++ (Live <$> ys) ++ spost) result first cur
    (length ys) (pre ++ mid ++ post)
  = Ok tt (pre ++ (Live <$> ys) ++ post) (EvCopyCtor <$> ys).
Proof.
  intros Hys. revert spre pre mid first cur.
  induction Hys as [|y ys Hy Hys IH]; intros spre pre mid first cur -> -> Hlen.
  { destruct mid; [done|discriminate]. }
  destruct mid as [|s mid]; [discriminate|]. simpl in Hlen.
  cbn [length uninitialized_copy_loop fmap list_fmap app].
  rewrite list_lookup_middle by done.
  erewrite bind_Ok; last first.
  { unfold catch_rethrow. rewrite Hy.
    rewrite construct_at_middle; [reflexivity|done]. }
  replace (spre ++ Live y :: (Live <$> ys) ++ spost)
    with ((spre ++ [Live y]) ++ (Live <$> ys) ++ spost)
    by (by rewrite <- app_assoc).
  replace (pre ++ Live y :: mid ++ post)
    with ((pre ++ [Live y]) ++ mid ++ post)
    by (by rewrite <- app_assoc).
  rewrite IH; [|rewrite length_app; simpl; lia..|lia].
  simpl. by rewrite <- app_assoc.
Qed.

(** [Emplace] on a full buffer when the copy constructor of the element
    [z] throws during the relocation, [z] being before the position:
    the copies made and the new element are destroyed. *)
Lemma Emplace_relocation_throw_before_exact (xs1 : list T) z xs2 xs3 x :
  is_nothrow_move_constructible || negb is_copy_constructible = false ->
  Forall (fun y => copy_construct y = Some y) xs1 ->
  copy_construct z = None ->
  operator_new (length ((xs1 ++ z :: xs2) ++ xs3) * 2) = true ->
  Emplace (Z.of_nat (length (xs1 ++ z :: xs2))) (Some x)
    (vector_of ((xs1 ++ z :: xs2) ++ xs3) 0)
  = Throw element_exn (vector_of ((xs1 ++ z :: xs2) ++ xs3) 0)
      (EvAllocate (length ((xs1 ++ z :: xs2) ++ xs3) * 2) :: EvEmplace x
         :: (EvCopyCtor <$> xs1) ++ (EvDestroy <$> xs1) ++ [EvDestroy x]).
Proof.
  intros Hpath Hxs1 Hz Hnew.
  set (shift := length (xs1 ++ z :: xs2)) in *.
  assert (shift = length xs1 + S (length xs2)) as Hshift
    by (subst shift; rewrite length_app; simpl; lia).
  assert (length ((xs1 ++ z :: xs2) ++ xs3) = shift + length xs3) as Hlen
    by (by rewrite length_app).
  set (n := length ((xs1 ++ z :: xs2) ++ xs3)) in *.
  unfold Emplace. rewrite bind_get. unfold Capacity, RawMemory_Capacity, assert.
  cbn [vector_of size_ data_ capacity_]. fold n.
  rewrite Nat.add_0_r, Nat.eqb_refl, Nat2Z.id.
  replace ((0 <=? Z.of_nat shift)%Z && (Z.of_nat shift <=? Z.of_nat n)%Z)
    with true; last first.
  { symmetry. apply andb_true_iff. split; apply Z.leb_le; lia. }
  erewrite bind_Ok; last reflexivity.
  rewrite after_nil.
  erewrite bind_Throw; [reflexivity|].
  unfold EmplaceWithReallocate. rewrite bind_get.
  cbn [vector_of size_ data_ capacity_ buffer_]. fold n.
  replace (n =? 0) with false by (symmetry; apply Nat.eqb_neq; lia).
  erewrite bind_Ok; last by (apply RawMemory_ctor_exact; [lia|done]).
  erewrite with_local_Throw; [reflexivity|].
  unfold RawMemory_plus, assert. cbn [capacity_].
  replace (shift <=? n * 2) with true by (symmetry; apply Nat.leb_le; lia).
  erewrite bind_Ok; last reflexivity.
  erewrite bind_Ok; last first.
  { apply zoom_Ok. cbn [view new_buffer compose_lens snd_lens buffer_lens snd buffer_].
    replace (n * 2) with (shift + S (n * 2 - shift - 1)) at 1 by lia.
    rewrite replicate_add. cbn [replicate].
    apply construct_at_middle. by rewrite length_replicate. }
  rewrite Hpath.
  erewrite bind_Throw; last first.
  { unfold catch_rethrow.
    erewrite bind_Throw; last first.
    { apply zoom_Throw.
      cbn [view update new_buffer compose_lens snd_lens buffer_lens snd fst
           buffer_ capacity_ vector_of data_].
      unfold uninitialized_copy_n.
      pose proof (@uninitialized_copy_loop_throw_exact T _ []
                    ((Live <$> xs3) ++ replicate 0 Raw) []
                    (Live x :: replicate (n * 2 - shift - 1) Raw)
                    [] xs1 z xs2 (length xs2) 0 0 0 Hxs1 Hz eq_refl eq_refl eq_refl)
        as Hloop.
      cbn [app fmap list_fmap length Nat.add] in Hloop.
      fold shift in Hloop. rewrite <- Hshift in Hloop.
      rewrite fmap_app, <- app_assoc. exact Hloop. }
    erewrite zoom_Ok; last first.
    { cbn [view update new_buffer compose_lens snd_lens buffer_lens snd fst
           buffer_ capacity_].
      cbn [destroy_n].
      erewrite bind_Ok; last first.
      { apply destroy_at_middle. by rewrite length_replicate. }
      reflexivity. }
    reflexivity. }
  cbn [after app]. rewrite <- !app_assoc. reflexivity.
Qed.

(** The same when [z] is at or after the position: the copies of the
    elements before the position are not destroyed. *)
Lemma Emplace_relocation_throw_after_exact (xs0 xs1 : list T) z xs2 x :
  is_nothrow_move_constructible || negb is_copy_constructible = false ->
  Forall (fun y => copy_construct y = Some y) xs0 ->
  Forall (fun y => copy_construct y = Some y) xs1 ->
  copy_construct z = None ->
  operator_new (length (xs0 ++ xs1 ++ z :: xs2) * 2) = true ->
  Emplace (Z.of_nat (length xs0)) (Some x)
    (vector_of (xs0 ++ xs1 ++ z :: xs2) 0)
  = Throw element_exn (vector_of (xs0 ++ xs1 ++ z :: xs2) 0)
      (EvAllocate (length (xs0 ++ xs1 ++ z :: xs2) * 2) :: EvEmplace x
         :: (EvCopyCtor <$> xs0) ++ (EvCopyCtor <$> xs1) ++ (EvDestroy <$> xs1)
         ++ [EvDestroy x]).
Proof.
  intros Hpath Hxs0 Hxs1 Hz Hnew.
  set (shift := length xs0) in *.
  assert (length (xs0 ++ xs1 ++ z :: xs2) = shift + (length xs1 + S (length xs2)))
    as Hlen by (rewrite !length_app; simpl; lia).
  set (n := length (xs0 ++ xs1 ++ z :: xs2)) in *.
  unfold Emplace. rewrite bind_get. unfold Capacity, RawMemory_Capacity, assert.
  cbn [vector_of size_ data_ capacity_]. fold n.
  rewrite Nat.add_0_r, Nat.eqb_refl, Nat2Z.id.
  replace ((0 <=? Z.of_nat shift)%Z && (Z.of_nat shift <=? Z.of_nat n)%Z)
    with true; last first.
  { symmetry. apply andb_true_iff. split; apply Z.leb_le; lia. }
  erewrite bind_Ok; last reflexivity.
  rewrite after_nil.
  erewrite bind_Throw; [reflexivity|].
  unfold EmplaceWithReallocate. rewrite bind_get.
  cbn [vector_of size_ data_ capacity_ buffer_]. fold n.
  replace (n =? 0) with false by (symmetry; apply Nat.eqb_neq; lia).
  erewrite bind_Ok; last by (apply RawMemory_ctor_exact; [lia|done]).
  erewrite with_local_Throw; [reflexivity|].
  unfold RawMemory_plus, assert. cbn [capacity_].
  replace (shift <=? n * 2) with true by (symmetry; apply Nat.leb_le; lia).
  erewrite bind_Ok; last reflexivity.
  erewrite bind_Ok; last first.
  { apply zoom_Ok. cbn [view new_buffer compose_lens snd_lens buffer_lens snd buffer_].
    replace (n * 2) with (shift + S (n - shift + (n - 1))) at 1 by lia.
    rewrite replicate_add. cbn [replicate]. rewrite replicate_add.
    apply construct_at_middle. by rewrite length_replicate. }
  rewrite Hpath.
  erewrite bind_Throw; last first.
  { unfold catch_rethrow.
    erewrite bind_Ok; last first.
    { apply zoom_Ok.
      cbn [view update new_buffer compose_lens snd_lens buffer_lens snd fst
           buffer_ capacity_ vector_of data_].
      unfold uninitialized_copy_n. rewrite fmap_app, <- app_assoc.
      apply (@uninitialized_copy_loop_Forall_exact []
               ((Live <$> xs1 ++ z :: xs2) ++ replicate 0 Raw) []
               (replicate shift Raw)
               (Live x :: replicate (n - shift) Raw ++ replicate (n - 1) Raw)
               xs0 0 0 0 Hxs0 eq_refl eq_refl).
      by rewrite length_replicate. }
    erewrite zoom_Throw; last first.
    { cbn [view update new_buffer compose_lens snd_lens buffer_lens snd fst
           buffer_ capacity_ vector_of data_ app].
      unfold uninitialized_copy_n.
      replace (n - shift) with (length (xs1 ++ z :: xs2))
        by (rewrite length_app; simpl; lia).
      rewrite fmap_app, <- app_assoc.
      replace ((Live <$> xs0) ++ Live x
                 :: replicate (length (xs1 ++ z :: xs2)) Raw
                 ++ replicate (n - 1) Raw)
        with (((Live <$> xs0) ++ [Live x]) ++ (Live <$> [])
                ++ replicate (length xs1 + S (length xs2)) Raw
                ++ replicate (n - 1) Raw); last first.
      { rewrite <- app_assoc. cbn [app fmap list_fmap].
        rewrite length_app. reflexivity. }
      apply (@uninitialized_copy_loop_throw_exact T _ (Live <$> xs0)
               (replicate 0 Raw) ((Live <$> xs0) ++ [Live x])
               (replicate (n - 1) Raw) [] xs1 z xs2 (length xs2)).
      - exact Hxs1.
      - exact Hz.
      - by rewrite length_fmap.
      - rewrite length_app, length_fmap. simpl. lia.
      - rewrite length_app, length_fmap. simpl. lia. }
    cbn [after].
    erewrite zoom_Ok; last first.
    { cbn [view update new_buffer compose_lens snd_lens buffer_lens snd fst
           buffer_ capacity_].
      cbn [destroy_n].
      erewrite bind_Ok; last first.
      { rewrite <- app_assoc. cbn [app].
        apply destroy_at_middle. by rewrite length_fmap. }
      reflexivity. }
    reflexivity. }
  cbn [after app]. rewrite <- !app_assoc. reflexivity.
Qed.
End Leaks.

(** X25: an operation of the public interface that returns, and whose
    allocations were all of elements that fit, keeps every vector of the
    store well formed: its buffer has as many slots as its capacity
    says, the first [size_] of them hold an object each and the others
    hold none.  So a sequence of operations that starts with no vectors
    and in which no operation throws (an operation that throws ends the
    run) has only well-formed vectors when it returns, whatever the
    element type does.  Nothing is said here about what an operation
    that throws leaves behind. *)
Theorem operations_keep_vectors_well_formed {T : Type} `{Element T} `{Heap}
    `{Sized T} :
  (forall (o : op) (st st' : objects T) tr,
     Forall well_formed st ->
     exec o st = Ok tt st' tr ->
     allocations_fit T tr = true ->
     Forall well_formed st') /\
  (forall (prog : list op) (st' : objects T) tr,
     run prog [] = Ok tt st' tr ->
     allocations_fit T tr = true ->
     Forall well_formed st').
Proof.
  split.
  - intros o st st' tr Hst Hrun _.
    pose proof (exec_wf o Hst) as Hsat. by rewrite Hrun in Hsat.
  - intros prog st' tr Hrun _.
    pose proof (run_wf prog (st := []) (Forall_nil_2 _)) as Hsat.
    by rewrite Hrun in Hsat.
Qed.

Lemma operations_keep_vectors_well_formed_witness :
  Forall (@well_formed unique_ptr) [vector_of [Some 1%Z; None; Some 9%Z] 0].
Proof.
  refine (proj1 (@operations_keep_vectors_well_formed unique_ptr
                   unique_ptr_element unlimited_heap unique_ptr_sized)
            (op_Insert_move 0 2 (Some 9%Z)) [vector_of [Some 1%Z; Some 2%Z] 1]
            _ _ _ _ _).
  - repeat constructor. by eexists _, _.
  - reflexivity.
  - reflexivity.
Defined.

(** X26: an exception that leaves [Reserve], [Resize], [EmplaceBack] or
    an [Emplace] whose new element has been constructed, after
    allocations that were all of elements that fit, leaves the vector
    well formed, whatever the element type does; after [Reserve] the
    length and the capacity are the old ones too.  ([PopBack] and [Erase]
    are [noexcept]; [T()] is a constructor that either always throws or
    never does, see [Element].) *)
Theorem exceptions_leave_the_vector_well_formed {T : Type} `{Element T} `{Heap}
    `{Sized T} (v v' : Vector T) (e : exn) (tr : list (event T)) :
  well_formed v ->
  allocations_fit T tr = true ->
  (forall n,
     Reserve n v = Throw e v' tr ->
     well_formed v' /\ size_ v' = size_ v /\
     capacity_ (data_ v') = capacity_ (data_ v)) /\
  (forall n, Resize n v = Throw e v' tr -> well_formed v') /\
  (forall args, EmplaceBack args v = Throw e v' tr -> well_formed v') /\
  (forall pos x, Emplace pos (Some x) v = Throw e v' tr -> well_formed v').
Proof.
  intros Hv _. split; [|split; [|split]].
  - intros n Hrun. pose proof (Reserve_wf n Hv) as Hsat. by rewrite Hrun in Hsat.
  - intros n Hrun. pose proof (Resize_wf n Hv) as Hsat. by rewrite Hrun in Hsat.
  - intros args Hrun.
    pose proof (EmplaceBack_wf args Hv) as Hsat. by rewrite Hrun in Hsat.
  - intros pos x Hrun.
    pose proof (Emplace_wf pos (Some x) Hv) as Hsat. rewrite Hrun in Hsat.
    by destruct Hsat.
Qed.

Lemma exceptions_leave_the_vector_well_formed_witness :
  well_formed (vector_of [Guarded 1; Guarded 13] 0).
Proof.
  refine (proj1 (proj2 (proj2
            (@exceptions_leave_the_vector_well_formed guarded guarded_element
               unlimited_heap guarded_sized (vector_of [Guarded 1; Guarded 13] 0)
               (vector_of [Guarded 1; Guarded 13] 0) element_exn
               [EvAllocate 4; EvEmplace (Guarded 5); EvCopyCtor (Guarded 1);
                EvDestroy (Guarded 1)] _ _)))
            (Some (Guarded 5)) _).
  - by eexists _, _.
  - reflexivity.
  - reflexivity.
Defined.

(** X27: when [EmplaceBack] reallocates, elements are relocated by
    copy, and the copy constructor of an element throws, the exception
    leaves [EmplaceBack] with the vector as it was; the copies made are
    destroyed, but the new element, constructed in the new buffer before
    the relocation, is never destroyed: the events of the call are one
    allocation, the construction of the new element, the copies and the
    destruction of the copies. *)
Theorem EmplaceBack_relocation_failure_leaks_the_new_element {T : Type}
    `{Element T} `{Heap} (xs1 : list T) (z : T) (xs2 : list T) (x : T) :
  is_nothrow_move_constructible || negb is_copy_constructible = false ->
  Forall (fun y => copy_construct y = Some y) xs1 ->
  copy_construct z = None ->
  operator_new (length (xs1 ++ z :: xs2) * 2) = true ->
  EmplaceBack (Some x) (vector_of (xs1 ++ z :: xs2) 0)
  = Throw element_exn (vector_of (xs1 ++ z :: xs2) 0)
      (EvAllocate (length (xs1 ++ z :: xs2) * 2) :: EvEmplace x
         :: (EvCopyCtor <$> xs1) ++ (EvDestroy <$> xs1)).
Proof. apply EmplaceBack_relocation_throw_exact. Qed.

Lemma EmplaceBack_relocation_failure_leaks_the_new_element_witness :
  @EmplaceBack guarded guarded_element unlimited_heap (Some (Guarded 5))
    (vector_of ([Guarded 1] ++ Guarded 13 :: [Guarded 3]) 0)
  = Throw element_exn (vector_of ([Guarded 1] ++ Guarded 13 :: [Guarded 3]) 0)
      [EvAllocate 6; EvEmplace (Guarded 5); EvCopyCtor (Guarded 1);
       EvDestroy (Guarded 1)].
Proof.
  apply (@EmplaceBack_relocation_failure_leaks_the_new_element guarded
           guarded_element unlimited_heap [Guarded 1] (Guarded 13) [Guarded 3]
           (Guarded 5)).
  - reflexivity.
  - repeat constructor.
  - reflexivity.
  - reflexivity.
Defined.

(** X28: when [Emplace] reallocates, elements are relocated by copy,
    and the copy constructor of an element throws, the exception leaves
    [Emplace] with the vector as it was and the new element destroyed.
    If the element that failed is before the position, the copies made
    are destroyed too; if it is at or after the position, the copies of
    the elements before the position, made by the first
    [std::uninitialized_copy_n], are never destroyed. *)
Theorem Emplace_relocation_failure_destroys_the_new_element {T : Type}
    `{Element T} `{Heap} (xs0 xs1 : list T) (z : T) (xs2 : list T) (x : T) :
  is_nothrow_move_constructible || negb is_copy_constructible = false ->
  Forall (fun y => copy_construct y = Some y) xs0 ->
  Forall (fun y => copy_construct y = Some y) xs1 ->
  copy_construct z = None ->
  (operator_new (length ((xs1 ++ z :: xs2) ++ xs0) * 2) = true ->
   Emplace (Z.of_nat (length (xs1 ++ z :: xs2))) (Some x)
     (vector_of ((xs1 ++ z :: xs2) ++ xs0) 0)
   = Throw element_exn (vector_of ((xs1 ++ z :: xs2) ++ xs0) 0)
       (EvAllocate (length ((xs1 ++ z :: xs2) ++ xs0) * 2) :: EvEmplace x
          :: (EvCopyCtor <$> xs1) ++ (EvDestroy <$> xs1) ++ [EvDestroy x])) /\
  (operator_new (length (xs0 ++ xs1 ++ z :: xs2) * 2) = true ->
   Emplace (Z.of_nat (length xs0)) (Some x)
     (vector_of (xs0 ++ xs1 ++ z :: xs2) 0)
   = Throw element_exn (vector_of (xs0 ++ xs1 ++ z :: xs2) 0)
       (EvAllocate (length (xs0 ++ xs1 ++ z :: xs2) * 2) :: EvEmplace x
          :: (EvCopyCtor <$> xs0) ++ (EvCopyCtor <$> xs1) ++ (EvDestroy <$> xs1)
          ++ [EvDestroy x])).
Proof.
  intros Hpath Hxs0 Hxs1 Hz. split.
  - by apply Emplace_relocation_throw_before_exact.
  - by apply Emplace_relocation_throw_after_exact.
Qed.

Lemma Emplace_relocation_failure_destroys_the_new_element_witness :
  @Emplace guarded guarded_element unlimited_heap 1 (Some (Guarded 5))
    (vector_of ([Guarded 1] ++ [Guarded 2] ++ Guarded 13 :: []) 0)
  = Throw element_exn
      (vector_of ([Guarded 1] ++ [Guarded 2] ++ Guarded 13 :: []) 0)
      [EvAllocate 6; EvEmplace (Guarded 5); EvCopyCtor (Guarded 1);
       EvCopyCtor (Guarded 2); EvDestroy (Guarded 2); EvDestroy (Guarded 5)].
Proof.
  refine (proj2 (@Emplace_relocation_failure_destroys_the_new_element guarded
                   guarded_element unlimited_heap [Guarded 1] [Guarded 2]
                   (Guarded 13) [] (Guarded 5) eq_refl _ _ eq_refl) _).
  - repeat constructor.
  - repeat constructor.
  - reflexivity.
Defined.
